(** * PyLyrics: the terminal rendering and synchronisation engine

    A shallow embedding of [pylyrics/lyrics.py] (the LRC parser),
    [pylyrics/media.py] (the [NowPlaying] record) and
    [pylyrics/display.py] (locator, frame builders, differential writer,
    render loop and terminal session), followed by the properties the
    specification states about them.

    Conventions.
    - A Python [str] is a list of Unicode code points ([list N]); [len] is
      [length], slicing is [firstn]/[skipn].
    - A Python [int] is a [Z]; [//] is [Z.div], [%] is [Z.modulo] (both floor).
    - A Python [float] is the rational it denotes ([Q]); no NaN or
      infinity arises here, so comparisons are exact.  Arithmetic is exact
      where Python rounds: the timestamps [parse_lrc] builds are below
      6040 s on a millisecond grid, far coarser than the rounding, so
      their order and their ties are those of the rounded values.
    - The loops run against a schedule: per pass, the signals delivered
      and the answers of the collaborators ([get_now_playing],
      [fetch_lyrics], [os.get_terminal_size]).
    - Code that can raise returns a [result].
    - The loops are given twice: on system calls that all succeed, and,
      in module [Fallible], on a process whose calls on [sys.stdout],
      [sys.stdin.fileno()], [tty.setcbreak] and [termios.tcsetattr] can
      be refused; the two agree when no call is refused. *)

From Equations Require Import Equations.
From Stdlib Require Import List ZArith QArith Bool Lia Sorted Permutation.
From Stdlib Require Import String Ascii DecimalString.
From Stdlib Require DecimalPos Qround.
Import ListNotations.

Local Open Scope Z_scope.

(* ------------------------------------------------------------------ *)
(** ** Python values *)

(** A character is its code point. *)
Definition char := N.
Definition str := list char.

(** A string literal of the source, as code points (ASCII literals only). *)
Definition lit (s : string) : str := List.map N_of_ascii (list_ascii_of_string s).

(** [len(l)] *)
Definition len {A} (l : list A) : Z := Z.of_nat (List.length l).

(** [a == b] on strings. *)
Fixpoint str_eqb (a b : str) : bool :=
  match a, b with
  | [], [] => true
  | x :: a', y :: b' => N.eqb x y && str_eqb a' b'
  | _, _ => false
  end.

(** [s * n] on strings: a non-positive count gives the empty string. *)
Definition str_mul (s : str) (n : Z) : str := List.concat (List.repeat s (Z.to_nat n)).

(** The exceptions that can reach the modelled code; [ExternalError] is
    anything a collaborator (D-Bus, the lyrics service) lets escape. *)
Inductive exn : Type :=
| IndexError
| ValueError
| ExternalError (tag : nat).

Inductive result (A : Type) : Type :=
| Ok (a : A)
| Raise (e : exn).
Arguments Ok {A} a.
Arguments Raise {A} e.

Definition bind {A B} (m : result A) (k : A -> result B) : result B :=
  match m with
  | Ok a => k a
  | Raise e => Raise e
  end.

Notation "x <- m ;; k" := (bind m (fun x => k))
  (at level 61, m at next level, right associativity).

(** [l[i]]: negative indices count from the end, anything else outside
    the list raises [IndexError]. *)
Definition py_index {A} (l : list A) (i : Z) : result A :=
  let j := if i <? 0 then i + len l else i in
  if (0 <=? j) && (j <? len l) then
    match nth_error l (Z.to_nat j) with
    | Some x => Ok x
    | None => Raise IndexError
    end
  else Raise IndexError.

(* ------------------------------------------------------------------ *)
(** ** lyrics.py: [LyricLine] *)

Record LyricLine : Type := mkLyricLine { time_s : Q; text : str }.

(* ------------------------------------------------------------------ *)
(** ** String methods used by the parser *)

Fixpoint take_while (f : char -> bool) (s : str) : str :=
  match s with
  | c :: s' => if f c then c :: take_while f s' else []
  | [] => []
  end.

Fixpoint drop_while (f : char -> bool) (s : str) : str :=
  match s with
  | c :: s' => if f c then drop_while f s' else s
  | [] => []
  end.

Definition in_range (lo hi c : N) : bool := (N.leb lo c && N.leb c hi)%N.

(** [str.isspace] on one character, which is also the regex class [\s]:
    both are CPython's [Py_UNICODE_ISSPACE]. *)
Definition isspace (c : char) : bool :=
  in_range 9 13 c || in_range 28 32 c || N.eqb c 133 || N.eqb c 160
  || N.eqb c 5760 || in_range 8192 8202 c || N.eqb c 8232 || N.eqb c 8233
  || N.eqb c 8239 || N.eqb c 8287 || N.eqb c 12288.

(** The line boundaries of [str.splitlines]:
    LF, VT, FF, CR, FS, GS, RS, NEL, LS and PS (CR LF counts once). *)
Definition is_linebreak (c : char) : bool :=
  in_range 10 13 c || in_range 28 30 c || N.eqb c 133
  || N.eqb c 8232 || N.eqb c 8233.

Definition lstrip (s : str) : str := drop_while isspace s.
Definition rstrip (s : str) : str := rev (drop_while isspace (rev s)).
Definition strip (s : str) : str := rstrip (lstrip s).

(** [cur] is the line being read, last character first; [after_cr]
    says the previous character was a CR, whose LF is swallowed. *)
Fixpoint splitlines_from (after_cr : bool) (cur : str) (s : str) : list str :=
  match s with
  | [] => match cur with [] => [] | _ => [rev cur] end
  | c :: s' =>
      if after_cr && N.eqb c 10 then splitlines_from false cur s'
      else if is_linebreak c then rev cur :: splitlines_from (N.eqb c 13) [] s'
      else splitlines_from false (c :: cur) s'
  end.

Definition splitlines (s : str) : list str := splitlines_from false [] s.

(** [s.ljust(width, fill)] *)
Definition ljust (s : str) (width : Z) (fill : char) : str :=
  s ++ List.repeat fill (Z.to_nat (width - len s)).

(* ------------------------------------------------------------------ *)
(** ** lyrics.py: [parse_lrc] *)

Definition first_some {A B} (f : A -> option B) : list A -> option B :=
  fix go (l : list A) : option B :=
    match l with
    | [] => None
    | a :: l' => match f a with Some b => Some b | None => go l' end
    end.

Definition or_else {A} (a b : option A) : option A :=
  match a with Some x => Some x | None => b end.

(** The capture groups 1 to 4 of a match. *)
Definition groups : Type := str * str * option str * str.

Section Parser.

(** The decimal-digit table of the interpreter's Unicode database.  The
    regex class [\d] and [int()] both read it; its extent beyond ASCII
    depends on the Unicode version, so it is a parameter. *)
Variable decimal : char -> option Z.

Definition is_decimal (c : char) : bool :=
  match decimal c with Some _ => true | None => false end.

(** [\d{lo,hi}] followed by the rest [k] of the pattern: greedy, the
    longest run first, shorter ones on backtracking. *)
Definition rep_digits {A} (lo hi : nat) (s : str) (k : str -> str -> option A)
  : option A :=
  let run := firstn hi (take_while is_decimal s) in
  first_some (fun n => k (firstn n s) (skipn n s))
             (rev (seq lo (List.length run + 1 - lo))).

(** The end of the pattern, a closing bracket, [\s] starred and group 4
    (a starred dot): the whitespace run is taken whole, and the dot is
    any character but LF. *)
Definition pattern_tail (g1 g2 : str) (g3 : option str) (s : str) : option groups :=
  match s with
  | c :: s' =>
      if N.eqb c 93 then
        Some (g1, g2, g3, take_while (fun c => negb (N.eqb c 10)) (drop_while isspace s'))
      else None
  | [] => None
  end.

(** From the optional group [(?:[.:](\d{1,3}))?] on: the group is
    tried first, then skipped. *)
Definition pattern_frac (g1 g2 : str) (s : str) : option groups :=
  or_else
    match s with
    | c :: s' =>
        if N.eqb c 46 || N.eqb c 58 then
          rep_digits 1 3 s' (fun g3 s'' => pattern_tail g1 g2 (Some g3) s'')
        else None
    | [] => None
    end
    (pattern_tail g1 g2 None s).

(** [pattern.match(s)], anchored at the start only.  The pattern is
    [\[(\d{1,2}):(\d{2})(?:[.:](\d{1,3}))?\]] followed by [\s] starred
    and by group 4, a starred dot. *)
Definition pattern_match (s : str) : option groups :=
  match s with
  | c :: s1 =>
      if N.eqb c 91 then
        rep_digits 1 2 s1 (fun g1 s2 =>
          match s2 with
          | c2 :: s3 =>
              if N.eqb c2 58 then
                rep_digits 2 2 s3 (fun g2 s4 => pattern_frac g1 g2 s4)
              else None
          | [] => None
          end)
      else None
  | [] => None
  end.

Fixpoint int_from (acc : Z) (s : str) : result Z :=
  match s with
  | [] => Ok acc
  | c :: s' =>
      match decimal c with
      | Some d => int_from (10 * acc + d) s'
      | None => Raise ValueError
      end
  end.

(** [int(s)] on the strings the pattern hands it; anything that is not
    a non-empty run of decimal digits raises here. *)
Definition py_int (s : str) : result Z :=
  match s with
  | [] => Raise ValueError
  | _ => int_from 0 s
  end.

(** The body of the [for raw_line] loop: [Ok None] is [continue]. *)
Definition parse_line (raw_line : str) : result (option LyricLine) :=
  match pattern_match (strip raw_line) with
  | None => Ok None
  | Some (g1, g2, g3, g4) =>
      minutes <- py_int g1 ;;
      seconds <- py_int g2 ;;
      let frac_str := match g3 with Some (c :: r) => c :: r | _ => lit "0" end in
      let frac_str := firstn 3 (ljust frac_str 3 48%N) in
      ms <- py_int frac_str ;;
      let frac := (inject_Z ms / inject_Z 1000)%Q in
      let time_s := (inject_Z (minutes * 60 + seconds) + frac)%Q in
      Ok (Some (mkLyricLine time_s (strip g4)))
  end.

Fixpoint parse_lines (raw_lines : list str) : result (list LyricLine) :=
  match raw_lines with
  | [] => Ok []
  | raw_line :: rest =>
      parsed <- parse_line raw_line ;;
      lines <- parse_lines rest ;;
      Ok (match parsed with Some l => l :: lines | None => lines end)
  end.

(** [lines.sort(key=lambda l: l.time_s)]: Python's sort is stable, and a
    stable sort has one result; insertion in front of the first line
    that is not earlier computes it. *)
Fixpoint insert_by_time (x : LyricLine) (l : list LyricLine) : list LyricLine :=
  match l with
  | [] => [x]
  | y :: l' =>
      if Qle_bool (time_s x) (time_s y) then x :: y :: l'
      else y :: insert_by_time x l'
  end.

Fixpoint sort_by_time (l : list LyricLine) : list LyricLine :=
  match l with
  | [] => []
  | x :: l' => insert_by_time x (sort_by_time l')
  end.

Definition parse_lrc (lrc_text : str) : result (list LyricLine) :=
  lines <- parse_lines (splitlines lrc_text) ;;
  Ok (sort_by_time lines).

End Parser.

(** The ASCII part of the table, which every Unicode version has. *)
Definition ascii_decimal (c : char) : option Z :=
  if in_range 48 57 c then Some (Z.of_N c - 48) else None.

(* ------------------------------------------------------------------ *)
(** ** media.py: [NowPlaying] *)

Record NowPlaying : Type := mkNowPlaying {
  title : str;
  artist : str;
  album : str;
  duration_us : Z;
  position_us : Z;
  player_name : str;
  is_playing : bool
}.

Definition duration_s (n : NowPlaying) : Q := (inject_Z (duration_us n) / inject_Z 1000000)%Q.
Definition position_s (n : NowPlaying) : Q := (inject_Z (position_us n) / inject_Z 1000000)%Q.

(* ------------------------------------------------------------------ *)
(** ** display.py: the active-line locator *)

(** The [while lo <= hi] loop of [_find_active_line]; the loop variables
    are the arguments. *)
Equations? find_loop (lines : list LyricLine) (p : Q) (lo hi res : Z)
  : result Z by wf (Z.to_nat (hi + 1 - lo)) lt :=
  find_loop lines p lo hi res with Z_le_gt_dec lo hi => {
    | right _ := Ok res
    | left _ with py_index lines ((lo + hi) / 2) => {
        | Raise e := Raise e
        | Ok l with Qle_bool (time_s l) p => {
            | true := find_loop lines p ((lo + hi) / 2 + 1) hi ((lo + hi) / 2)
            | false := find_loop lines p lo ((lo + hi) / 2 - 1) res } } }.
Proof.
  all: assert (lo <= (lo + hi) / 2 <= hi)
         by (split; [apply Z.div_le_lower_bound | apply Z.div_le_upper_bound]; lia);
       lia.
Qed.

Definition _find_active_line (lines : list LyricLine) (position_s : Q) : result Z :=
  find_loop lines position_s 0 (len lines - 1) 0.

(** Sorted non-decreasing by [time_s]. *)
Definition time_le (a b : LyricLine) : Prop := (time_s a <= time_s b)%Q.
Definition sorted_by_time (lines : list LyricLine) : Prop := Sorted time_le lines.


(* ------------------------------------------------------------------ *)
(** ** display.py: escape sequences and styles *)

Definition _ESC : str := 27%N :: lit "[".
Definition _RESET : str := _ESC ++ lit "0m".
Definition _BOLD : str := _ESC ++ lit "1m".
Definition _DIM : str := _ESC ++ lit "2m".

Definition _HIDE_CURSOR : str := _ESC ++ lit "?25l".
Definition _SHOW_CURSOR : str := _ESC ++ lit "?25h".
Definition _CLEAR : str := _ESC ++ lit "2J" ++ _ESC ++ lit "H".
Definition _EL : str := _ESC ++ lit "K".

Definition _SYNC_START : str := 27%N :: lit "[?2026h".
Definition _SYNC_END : str := 27%N :: lit "[?2026l".

Definition _FG_YELLOW : str := _ESC ++ lit "33m".
Definition _FG_BLUE : str := _ESC ++ lit "34m".
Definition _FG_MAGENTA : str := _ESC ++ lit "35m".
Definition _FG_CYAN : str := _ESC ++ lit "36m".
Definition _FG_WHITE : str := _ESC ++ lit "37m".
Definition _FG_BR_BLACK : str := _ESC ++ lit "90m".
Definition _FG_BR_WHITE : str := _ESC ++ lit "97m".
Definition _BG_BLUE : str := _ESC ++ lit "44m".

(** [str(n)] for an [int]. *)
Definition str_of_int (n : Z) : str := lit (NilZero.string_of_int (Z.to_int n)).

Definition _move (row col : Z) : str :=
  _ESC ++ str_of_int row ++ lit ";" ++ str_of_int col ++ lit "H".

(** [os.get_terminal_size()] either answers or raises [OSError]. *)
Definition _term_size (os_size : option (Z * Z)) : Z * Z :=
  match os_size with
  | Some (columns, lines) => (columns, lines)
  | None => (80, 24)
  end.

Definition spaces (n : Z) : str := str_mul (lit " ") n.

(** [text.center(width)], with CPython's rounding of the left margin. *)
Definition center (s : str) (width : Z) : str :=
  let marg := width - len s in
  if marg <=? 0 then s
  else
    let left := marg / 2 + Z.land (Z.land marg width) 1 in
    spaces left ++ s ++ spaces (marg - left).

Definition _active (text : str) (w : Z) : str :=
  _BOLD ++ _BG_BLUE ++ _FG_BR_WHITE ++ center text w ++ _RESET ++ _EL.

Definition _GRAD : list (str -> str) :=
  [ fun t => _BOLD ++ _FG_WHITE ++ t ++ _RESET ++ _EL;
    fun t => _FG_WHITE ++ t ++ _RESET ++ _EL;
    fun t => _FG_CYAN ++ t ++ _RESET ++ _EL;
    fun t => _FG_BLUE ++ t ++ _RESET ++ _EL;
    fun t => _FG_BR_BLACK ++ t ++ _RESET ++ _EL;
    fun t => _DIM ++ _FG_BR_BLACK ++ t ++ _RESET ++ _EL ].

(** [dist] is an [int] at the only call site, so [int(round(dist))] is
    [dist]; the index is clamped into the palette. *)
Definition _styled_line (text : str) (dist : Z) : str :=
  let d := Z.max 0 (dist - 1) in
  nth (Z.to_nat (Z.min d (len _GRAD - 1))) _GRAD (fun t => t) text.

(* ------------------------------------------------------------------ *)
(** ** display.py: helpers *)

(** [int(x)] on a float: truncation towards zero. *)
Definition int_of_float (x : Q) : Z := Z.quot (Qnum x) (Zpos (Qden x)).

(** The format [{s:02d}] for [0 <= s]. *)
Definition fmt_02d (n : Z) : str :=
  let d := str_of_int n in
  List.repeat 48%N (2 - List.length d) ++ d.

Definition _format_time (seconds : Q) : str :=
  let total := int_of_float seconds in
  let m := total / 60 in
  let s := total mod 60 in
  str_of_int m ++ lit ":" ++ fmt_02d s.

(** [text[:n]]: a negative [n] counts from the end. *)
Definition slice_to (s : str) (n : Z) : str :=
  if n <? 0 then firstn (Z.to_nat (len s + n)) s else firstn (Z.to_nat n) s.

Definition _center (text : str) (width : Z) : str :=
  if len text >=? width then slice_to text width
  else spaces ((width - len text) / 2) ++ text.

(* ------------------------------------------------------------------ *)
(** ** display.py: frame builders *)

(** [range(n)] *)
Definition range (n : Z) : list Z := List.map Z.of_nat (seq 0 (Z.to_nat n)).

Definition em_dash : str := [8212%N].
Definition ellipsis : str := [8230%N].

Definition dur_str (now : NowPlaying) : str :=
  if negb (Qle_bool (duration_s now) 0) then _format_time (duration_s now)
  else lit "?:??".

(** [f"{now.title} — {now.artist}  {pos_str} / {dur_str}"] *)
Definition header_plain (now : NowPlaying) : str :=
  title now ++ lit " " ++ em_dash ++ lit " " ++ artist now ++ lit "  "
  ++ _format_time (position_s now) ++ lit " / " ++ dur_str now.

Definition placeholder : LyricLine := mkLyricLine 0 [].

(** One pass of the [for row in range(available)] loop: the row it
    appends.  The bounds test comes first, so the element access that
    follows it is in range. *)
Definition lyric_row (lines : list LyricLine) (active_idx w start_idx row : Z) : str :=
  let lyric_idx := start_idx + row in
  if (lyric_idx <? 0) || (lyric_idx >=? len lines) then _EL
  else
    let lyric := text (nth (Z.to_nat lyric_idx) lines placeholder) in
    let dist := Z.abs (lyric_idx - active_idx) in
    if dist =? 0 then _active lyric w
    else _styled_line (_center lyric w) dist.

(** [while len(rows) < h: rows.append(_EL)] *)
Definition pad_rows (rows : list str) (h : Z) : list str :=
  rows ++ List.repeat _EL (Z.to_nat (h - len rows)).

Definition _build_frame (lines : list LyricLine) (active_idx : Z)
    (now : NowPlaying) (w h : Z) : list str :=
  let pos_str := _format_time (position_s now) in
  let pad := Z.max 0 ((w - len (header_plain now)) / 2) in
  let header :=
    spaces pad
    ++ (_BOLD ++ _FG_MAGENTA ++ title now ++ _RESET)
    ++ (_FG_BR_BLACK ++ lit " " ++ em_dash ++ lit " " ++ _RESET)
    ++ (_FG_CYAN ++ artist now ++ _RESET)
    ++ (_FG_YELLOW ++ lit "  " ++ pos_str ++ lit " / " ++ dur_str now ++ _RESET ++ _EL) in
  let rows := [header; _EL] in
  let available := h - 3 in
  let half := available / 2 in
  let start_idx := active_idx - half in
  let rows := rows ++ List.map (lyric_row lines active_idx w start_idx) (range available) in
  pad_rows rows h.

Definition status_row (message : str) (w mid i : Z) : str :=
  if i =? mid then _FG_BR_BLACK ++ _center message w ++ _RESET ++ _EL
  else _EL.

Definition _build_status (message : str) (now : option NowPlaying) (w h : Z) : list str :=
  let header :=
    match now with
    | Some now => header_plain now
    | None => lit "pylyrics"
    end in
  let rows := [_FG_BR_BLACK ++ _center header w ++ _RESET ++ _EL; _EL] in
  let available := h - 3 in
  let mid := available / 2 in
  let rows := rows ++ List.map (status_row message w mid) (range available) in
  pad_rows rows h.

(* ------------------------------------------------------------------ *)
(** ** display.py: the differential writer *)

(** What reaches an output stream, in order. *)
Inductive OutEvent : Type :=
| Write (s : str)
| Flush.

(** [enumerate(l)] *)
Definition enumerate {A} (l : list A) : list (Z * A) := combine (range (len l)) l.

(** The test of the loop body; [or] stops at the first true operand, so
    [prev] is only read at an index it has. *)
Definition row_changed (prev : list str) (force : bool) (row_idx : Z) (line : str) : bool :=
  force || (row_idx >=? len prev) || negb (str_eqb (nth (Z.to_nat row_idx) prev []) line).

(** One pass of the loop over [(buf, changed)]. *)
Definition diff_step (prev : list str) (force : bool)
    (st : str * bool) (e : Z * str) : str * bool :=
  let '(buf, changed) := st in
  let '(row_idx, line) := e in
  if row_changed prev force row_idx line
  then (buf ++ _move (row_idx + 1) 1 ++ line, true)
  else (buf, changed).

Definition _write_diff (out : list OutEvent) (prev cur : list str) (force : bool)
  : list OutEvent :=
  let '(buf, changed) := fold_left (diff_step prev force) (enumerate cur) (_SYNC_START, false) in
  let buf := buf ++ _SYNC_END in
  if changed then out ++ [Write buf; Flush] else out.

(* ------------------------------------------------------------------ *)
(** ** The process environment of the display loops *)

(** The part of the termios attributes [setcbreak] changes. *)
Record TermAttrs : Type := mkTermAttrs {
  echo : bool;
  icanon : bool;
  vmin : Z;
  vtime : Z
}.

(** [tty.setcbreak(fd)] *)
Definition setcbreak (a : TermAttrs) : TermAttrs :=
  {| echo := false; icanon := false; vmin := 1; vtime := 0 |}.

Inductive Handler : Type :=
| HandlerOf (owner : nat)   (* installed by someone else *)
| IntHandler                (* [_int_handler] or pipe mode's [_handler] *)
| WinchHandler.             (* [_winch_handler] *)

(** One call of [fetch_lyrics], by its keyword arguments. *)
Record FetchCall : Type := mkFetchCall {
  fc_title : str;
  fc_artist : str;
  fc_album : str;
  fc_duration_s : Q
}.

Record World : Type := mkWorld {
  stdout : list OutEvent;           (* everything sent to [sys.stdout] *)
  stdin_attrs : option TermAttrs;   (* [None]: stdin is not a terminal *)
  sigint_handler : Handler;
  sigwinch_handler : Handler;
  fetch_calls : list FetchCall      (* the calls of [fetch_lyrics] so far *)
}.

Definition with_stdout (f : list OutEvent -> list OutEvent) (wd : World) : World :=
  {| stdout := f (stdout wd); stdin_attrs := stdin_attrs wd;
     sigint_handler := sigint_handler wd; sigwinch_handler := sigwinch_handler wd;
     fetch_calls := fetch_calls wd |}.

Definition with_attrs (a : option TermAttrs) (wd : World) : World :=
  {| stdout := stdout wd; stdin_attrs := a;
     sigint_handler := sigint_handler wd; sigwinch_handler := sigwinch_handler wd;
     fetch_calls := fetch_calls wd |}.

Definition with_handlers (hi hw : Handler) (wd : World) : World :=
  {| stdout := stdout wd; stdin_attrs := stdin_attrs wd;
     sigint_handler := hi; sigwinch_handler := hw;
     fetch_calls := fetch_calls wd |}.

Definition log_fetch (c : FetchCall) (wd : World) : World :=
  {| stdout := stdout wd; stdin_attrs := stdin_attrs wd;
     sigint_handler := sigint_handler wd; sigwinch_handler := sigwinch_handler wd;
     fetch_calls := fetch_calls wd ++ [c] |}.

(** [out.write(s)] and [out.flush()] on a stream that accepts the call;
    module [Fallible] below has the calls that can be refused. *)
Definition out_write (s : str) : World -> World := with_stdout (fun o => o ++ [Write s]).
Definition out_flush : World -> World := with_stdout (fun o => o ++ [Flush]).

(** What one pass of a loop meets: the signals delivered while it
    sleeps and the answers of the collaborators it calls. *)
Record TickEnv : Type := mkTickEnv {
  env_sigint : bool;
  env_sigwinch : bool;
  env_size : option (Z * Z);                    (* [os.get_terminal_size()] *)
  env_now : result (option NowPlaying);         (* [get_now_playing(...)] *)
  env_fetch : result (option (list LyricLine))  (* [fetch_lyrics(...)], if called *)
}.

(** How a run over a finite schedule ends: the function returned, an
    exception left it, or the schedule ran out with the loop still going. *)
Inductive Outcome : Type :=
| Returned
| Raised (e : exn)
| Running.

(* ------------------------------------------------------------------ *)
(** ** display.py: [display_lyrics] *)

(** The local variables of [display_lyrics] that the loop updates. *)
Record RenderState : Type := mkRenderState {
  interrupted : bool;
  needs_redraw : bool;
  current_lines : option (list LyricLine);
  current_info : NowPlaying;
  previous_idx : Z;
  prev_frame : list str
}.

(** [_write_diff(out, prev_frame, frame, force)], then
    [prev_frame = frame] and [needs_redraw = redraw]. *)
Definition show_frame (frame : list str) (force redraw : bool)
    (st : RenderState) (wd : World) : World * RenderState :=
  (with_stdout (fun o => _write_diff o (prev_frame st) frame force) wd,
   {| interrupted := interrupted st; needs_redraw := redraw;
      current_lines := current_lines st; current_info := current_info st;
      previous_idx := previous_idx st; prev_frame := frame |}).

(** [now.title != current_info.title or now.artist != current_info.artist] *)
Definition song_changed (now info : NowPlaying) : bool :=
  negb (str_eqb (title now) (title info)) || negb (str_eqb (artist now) (artist info)).

(** The branch [if now is None]. *)
Definition tick_no_player (w h : Z) (st : RenderState) (wd : World)
  : World * result RenderState :=
  let frame := _build_status (lit "No media player detected.") None w h in
  let '(wd, st) := show_frame frame (needs_redraw st) false st wd in
  (wd, Ok st).

(** The branch of a song change, up to its [continue]. *)
Definition tick_song_changed (env : TickEnv) (now : NowPlaying) (w h : Z)
    (st : RenderState) (wd : World) : World * result RenderState :=
  let st := {| interrupted := interrupted st; needs_redraw := needs_redraw st;
               current_lines := current_lines st; current_info := now;
               previous_idx := -1; prev_frame := [] |} in
  let frame := _build_status (lit "Fetching lyrics" ++ ellipsis) (Some now) w h in
  let '(wd, st) := show_frame frame true (needs_redraw st) st wd in
  let wd := log_fetch (mkFetchCall (title now) (artist now) (album now) (duration_s now)) wd in
  match env_fetch env with
  | Raise e => (wd, Raise e)
  | Ok fetched =>
      (* if not current_lines: current_lines = None *)
      let lines := match fetched with Some (l :: ls) => Some (l :: ls) | _ => None end in
      (wd, Ok {| interrupted := interrupted st; needs_redraw := true;
                 current_lines := lines; current_info := current_info st;
                 previous_idx := previous_idx st; prev_frame := prev_frame st |})
  end.

(** The branch [if current_lines is None]. *)
Definition tick_no_lyrics (now : NowPlaying) (w h : Z) (st : RenderState) (wd : World)
  : World * result RenderState :=
  let frame := _build_status (lit "No synced lyrics found.") (Some now) w h in
  let '(wd, st) := show_frame frame (needs_redraw st) false st wd in
  (wd, Ok st).

(** The rest of the loop body, with lyrics at hand. *)
Definition tick_lyrics (lines : list LyricLine) (now : NowPlaying) (w h : Z)
    (st : RenderState) (wd : World) : World * result RenderState :=
  match _find_active_line lines (position_s now) with
  | Raise e => (wd, Raise e)
  | Ok active_idx =>
      let '(wd, st) :=
        if negb (active_idx =? previous_idx st) || needs_redraw st then
          show_frame (_build_frame lines active_idx now w h) (needs_redraw st) false st wd
        else (wd, st) in
      (wd, Ok {| interrupted := interrupted st; needs_redraw := needs_redraw st;
                 current_lines := current_lines st; current_info := current_info st;
                 previous_idx := active_idx; prev_frame := prev_frame st |})
  end.

(** The signal handlers, run while the loop sleeps: they only set flags. *)
Definition deliver_signals (env : TickEnv) (st : RenderState) : RenderState :=
  {| interrupted := interrupted st || env_sigint env;
     needs_redraw := needs_redraw st || env_sigwinch env;
     current_lines := current_lines st; current_info := current_info st;
     previous_idx := previous_idx st; prev_frame := prev_frame st |}.

(** One pass of the [while not interrupted] loop. *)
Definition tick (env : TickEnv) (st : RenderState) (wd : World)
  : World * result RenderState :=
  (* time.sleep(_POLL_DT) *)
  let st := deliver_signals env st in
  let '(w, h) := _term_size (env_size env) in
  match env_now env with
  | Raise e => (wd, Raise e)
  | Ok None => tick_no_player w h st wd
  | Ok (Some now) =>
      if song_changed now (current_info st) then tick_song_changed env now w h st wd
      else
        match current_lines st with
        | None => tick_no_lyrics now w h st wd
        | Some lines => tick_lyrics lines now w h st wd
        end
  end.

(** The [while not interrupted] loop over a schedule of passes. *)
Fixpoint run_loop (sched : list TickEnv) (st : RenderState) (wd : World)
  : World * Outcome :=
  if interrupted st then (wd, Returned)
  else
    match sched with
    | [] => (wd, Running)
    | env :: rest =>
        match tick env st wd with
        | (wd, Ok st) => run_loop rest st wd
        | (wd, Raise e) => (wd, Raised e)
        end
    end.

(** The [finally] block, given what the first [try] left in
    [old_termios] ([None] when [has_termios] is false), when each of
    its calls succeeds; [Fallible.restore] is the block when one fails. *)
Definition restore (old_termios : option TermAttrs) (old_int old_winch : Handler)
    (wd : World) : World :=
  let wd := out_write _SHOW_CURSOR wd in
  let wd := out_write _CLEAR wd in
  let wd := out_flush wd in
  let wd := match old_termios with
            | Some a => with_attrs (Some a) wd
            | None => wd
            end in
  with_handlers old_int old_winch wd.

Definition display_lyrics (lines : option (list LyricLine)) (initial_info : NowPlaying)
    (sched : list TickEnv) (wd : World) : World * Outcome :=
  let old_int := sigint_handler wd in
  let old_winch := sigwinch_handler wd in
  let wd := with_handlers IntHandler WinchHandler wd in
  let st := {| interrupted := false; needs_redraw := true;
               current_lines := lines; current_info := initial_info;
               previous_idx := -1; prev_frame := [] |} in
  (* old_termios = termios.tcgetattr(fd), or termios.error *)
  let old_termios := stdin_attrs wd in
  (* try: *)
  let wd := match old_termios with
            | Some a => with_attrs (Some (setcbreak a)) wd
            | None => wd
            end in
  let wd := out_write _HIDE_CURSOR wd in
  let wd := out_write _CLEAR wd in
  let wd := out_flush wd in
  match run_loop sched st wd with
  | (wd, Running) => (wd, Running)
  (* finally: *)
  | (wd, outcome) => (restore old_termios old_int old_winch wd, outcome)
  end.

(* ------------------------------------------------------------------ *)
(** ** display.py: [display_pipe] *)

(** [print(text, flush=True)] on a stream that accepts it: the
    characters sent and the flush.  [Fallible.print_flush] has the
    calls one by one. *)
Definition print_flush (text : str) (wd : World) : World :=
  out_flush (out_write (text ++ [10%N]) wd).

(** What one pass does to the loop: go on with a new [previous_idx], or
    leave through [return]. *)
Inductive PipeStep : Type :=
| Continue (interrupted : bool) (previous_idx : Z)
| Return.

Definition pipe_tick (lines : list LyricLine) (initial_info : NowPlaying)
    (env : TickEnv) (interrupted : bool) (previous_idx : Z) (wd : World)
  : World * result PipeStep :=
  match env_now env with
  | Raise e => (wd, Raise e)
  | Ok None => (wd, Ok (Continue (interrupted || env_sigint env) previous_idx))
  | Ok (Some now) =>
      if song_changed now initial_info then (wd, Ok Return)
      else if negb (is_playing now) then
        (wd, Ok (Continue (interrupted || env_sigint env) previous_idx))
      else
        match _find_active_line lines (position_s now) with
        | Raise e => (wd, Raise e)
        | Ok active_idx =>
            if negb (active_idx =? previous_idx) then
              match py_index lines active_idx with
              | Raise e => (wd, Raise e)
              | Ok l =>
                  let wd := match text l with
                            | [] => wd
                            | _ :: _ => print_flush (text l) wd
                            end in
                  (wd, Ok (Continue (interrupted || env_sigint env) active_idx))
              end
            else (wd, Ok (Continue (interrupted || env_sigint env) previous_idx))
        end
  end.

Fixpoint pipe_loop (lines : list LyricLine) (initial_info : NowPlaying)
    (sched : list TickEnv) (interrupted : bool) (previous_idx : Z) (wd : World)
  : World * Outcome :=
  if interrupted then (wd, Returned)
  else
    match sched with
    | [] => (wd, Running)
    | env :: rest =>
        match pipe_tick lines initial_info env interrupted previous_idx wd with
        | (wd, Ok (Continue interrupted previous_idx)) =>
            pipe_loop lines initial_info rest interrupted previous_idx wd
        | (wd, Ok Return) => (wd, Returned)
        | (wd, Raise e) => (wd, Raised e)
        end
    end.

Definition display_pipe (lines : list LyricLine) (initial_info : NowPlaying)
    (sched : list TickEnv) (wd : World) : World * Outcome :=
  let old_handler := sigint_handler wd in
  let wd := with_handlers IntHandler (sigwinch_handler wd) wd in
  match pipe_loop lines initial_info sched false (-1) wd with
  | (wd, Running) => (wd, Running)
  | (wd, outcome) => (with_handlers old_handler (sigwinch_handler wd) wd, outcome)
  end.

(* ------------------------------------------------------------------ *)
(** ** The terminal at the other end of [sys.stdout]

    What the session promises is about the terminal, so the terminal's
    reading of the stream is part of the model: the escape-sequence
    parser of ECMA-48 reduced to what decides cursor visibility, DEC
    private mode 25 ([ESC [ ? 25 h] shows, [ESC [ ? 25 l] hides). *)

Inductive ParserState : Type :=
| Ground
| Escape
| Csi (params : str).

Record Terminal : Type := mkTerminal {
  cursor_visible : bool;
  parser : ParserState
}.

Definition csi_final (c : char) : bool := in_range 64 126 c.

Definition term_step (t : Terminal) (c : char) : Terminal :=
  if N.eqb c 27 then {| cursor_visible := cursor_visible t; parser := Escape |}
  else
    match parser t with
    | Ground => t
    | Escape =>
        {| cursor_visible := cursor_visible t;
           parser := if N.eqb c 91 then Csi [] else Ground |}
    | Csi params =>
        if csi_final c then
          {| cursor_visible :=
               if str_eqb params (lit "?25") then
                 if N.eqb c 104 then true
                 else if N.eqb c 108 then false
                 else cursor_visible t
               else cursor_visible t;
             parser := Ground |}
        else {| cursor_visible := cursor_visible t; parser := Csi (params ++ [c]) |}
    end.

Definition term_feed (t : Terminal) (s : str) : Terminal := fold_left term_step s t.

(** The characters a stream carried. *)
Fixpoint out_data (out : list OutEvent) : str :=
  match out with
  | [] => []
  | Write s :: out' => s ++ out_data out'
  | Flush :: out' => out_data out'
  end.

(* ------------------------------------------------------------------ *)
(** ** media.py: choosing the player *)

Definition MPRIS_PREFIX : str := lit "org.mpris.MediaPlayer2.".

(** [s.startswith(p)] *)
Fixpoint startswith (s p : str) : bool :=
  match p, s with
  | [], _ => true
  | c :: p', d :: s' => N.eqb c d && startswith s' p'
  | _ :: _, [] => false
  end.

(** The session bus as [get_now_playing] meets it during one call:
    whether [dbus.SessionBus()] connects, the names [bus.list_names()]
    answers, and what [_query_player] returns for a name, which may
    change from one query to the next ([bus_query k] is the query made
    after [k] others). *)
Record Bus : Type := mkBus {
  bus_connect : result unit;
  bus_names : result (list str);
  bus_query : nat -> str -> result (option NowPlaying)
}.

Definition list_players (bus : Bus) : result (list str) :=
  _ <- bus_connect bus ;;
  names <- bus_names bus ;;
  Ok (filter (fun n => startswith n MPRIS_PREFIX) names).

(** The loop [for p in players] of [get_now_playing]: [Ok (Some info)]
    is its [return info], [Ok None] its running off the end. *)
Fixpoint first_playing (query : nat -> str -> result (option NowPlaying))
    (k : nat) (players : list str) : result (option NowPlaying) :=
  match players with
  | [] => Ok None
  | p :: rest =>
      info <- query k p ;;
      match info with
      | Some i => if is_playing i then Ok (Some i) else first_playing query (S k) rest
      | None => first_playing query (S k) rest
      end
  end.

Definition get_now_playing (bus : Bus) (player_bus : option str)
  : result (option NowPlaying) :=
  _ <- bus_connect bus ;;
  match player_bus with
  | None =>
      players <- list_players bus ;;
      match players with
      | [] => Ok None
      | first :: _ =>
          found <- first_playing (bus_query bus) 0 players ;;
          match found with
          | Some info => Ok (Some info)
          | None => bus_query bus (List.length players) first
          end
      end
  | Some name => bus_query bus 0 name
  end.

(* ------------------------------------------------------------------ *)
(** ** lyrics.py: [fetch_lyrics] *)

Definition LRCLIB_API : str := lit "https://lrclib.net/api".
Definition USER_AGENT : str := lit "pylyrics/1.0.0 (https://github.com/pylyrics)".

Inductive ParamValue : Type :=
| PStr (s : str)
| PInt (n : Z).

(** One call of [requests.get]; the dictionaries keep insertion order. *)
Record Request : Type := mkRequest {
  req_url : str;
  req_params : list (str * ParamValue);
  req_headers : list (str * str)
}.

(** A track object of the service, by the one field the code reads;
    [None] is a missing or null field. *)
Record Track : Type := mkTrack { syncedLyrics : option str }.

(** What [requests.get] and then [resp.json()] give: a
    [RequestException] from either, or a status code with the decoded
    body ([Raise]: decoding raised something else; the body is decoded
    only for status 200). *)
Inductive HttpReply (A : Type) : Type :=
| RequestFailed
| Reply (status_code : Z) (json : result A).
Arguments RequestFailed {A}.
Arguments Reply {A} status_code json.

(** The service, with bodies of the shape it documents: one track for
    the exact match, a list of tracks for the search. *)
Record Http : Type := mkHttp {
  http_get : Request -> HttpReply Track;
  http_search : Request -> HttpReply (list Track)
}.

(** [params] of the exact-match request. *)
Definition get_params (title artist album : str) (duration_s : option Q)
  : list (str * ParamValue) :=
  [(lit "track_name", PStr title); (lit "artist_name", PStr artist)]
  ++ match album with
     | [] => []
     | _ :: _ => [(lit "album_name", PStr album)]
     end
  ++ match duration_s with
     | Some d =>
         if negb (Qeq_bool d 0) && negb (Qle_bool d 0)
         then [(lit "duration", PInt (int_of_float d))]
         else []
     | None => []
     end.

Definition get_request (title artist album : str) (duration_s : option Q) : Request :=
  {| req_url := LRCLIB_API ++ lit "/get";
     req_params := get_params title artist album duration_s;
     req_headers := [(lit "User-Agent", USER_AGENT)] |}.

Definition search_request (title artist : str) : Request :=
  {| req_url := LRCLIB_API ++ lit "/search";
     req_params := [(lit "track_name", PStr title); (lit "artist_name", PStr artist)];
     req_headers := [(lit "User-Agent", USER_AGENT)] |}.

(** [if synced:] on the field: a text that is not empty. *)
Definition truthy_text (synced : option str) : option str :=
  match synced with
  | Some (c :: s) => Some (c :: s)
  | _ => None
  end.

(** The loop [for result in results]: the first track with a text. *)
Fixpoint first_synced (results : list Track) : option str :=
  match results with
  | [] => None
  | result :: rest =>
      match truthy_text (syncedLyrics result) with
      | Some synced => Some synced
      | None => first_synced rest
      end
  end.

Section Fetch.

Variable decimal : char -> option Z.

(** The second [try] block and the final [return None]. *)
Definition fetch_by_search (http : Http) (title artist : str)
  : result (option (list LyricLine)) :=
  match http_search http (search_request title artist) with
  | RequestFailed => Ok None
  | Reply status_code json =>
      if status_code =? 200 then
        results <- json ;;
        match first_synced results with
        | Some synced => lines <- parse_lrc decimal synced ;; Ok (Some lines)
        | None => Ok None
        end
      else Ok None
  end.

(** [fetch_lyrics], with the requests it made. *)
Definition fetch_lyrics (http : Http) (title artist album : str) (duration_s : option Q)
  : list Request * result (option (list LyricLine)) :=
  let exact := get_request title artist album duration_s in
  let search := search_request title artist in
  match http_get http exact with
  | RequestFailed => ([exact; search], fetch_by_search http title artist)
  | Reply status_code json =>
      if status_code =? 200 then
        match json with
        | Raise e => ([exact], Raise e)
        | Ok data =>
            match truthy_text (syncedLyrics data) with
            | Some synced => ([exact], lines <- parse_lrc decimal synced ;; Ok (Some lines))
            | None => ([exact; search], fetch_by_search http title artist)
            end
        end
      else ([exact; search], fetch_by_search http title artist)
  end.

End Fetch.

(* ------------------------------------------------------------------ *)
(** ** The display loops when a system call fails

    The definitions of [display_lyrics] and [display_pipe] above run the
    loops on system calls that all succeed.  [sys.stdout] refuses a call
    once the terminal or the reader of the pipe has gone ([OSError],
    [BrokenPipeError]), and [sys.stdin.fileno()], [tty.setcbreak] and
    [termios.tcsetattr] can fail as well.  This module is the same code
    with those calls answered by the process, one answer per call, and
    the exception of a refused call taking the path Python gives it:
    out of the loop, through the [finally] block, and out of the
    [finally] block itself when the call is one of its own.
    [signal.signal] and [time.sleep] are taken to succeed. *)

Module Fallible.

Record Process : Type := mkProcess {
  world : World;
  out_answers : list (option exn);   (* [sys.stdout], call by call: [Some e] raises [e];
                                        past the end every call is accepted *)
  fileno_answer : option exn;        (* [sys.stdin.fileno()] *)
  setcbreak_answer : option exn;     (* [tty.setcbreak(fd)] *)
  tcsetattr_answer : option exn      (* [termios.tcsetattr(fd, TCSADRAIN, old_termios)] *)
}.

(** A statement of the source: it changes the process and completes
    with a value or raises. *)
Definition io (A : Type) : Type := Process -> Process * result A.

Definition ret {A} (a : A) : io A := fun p => (p, Ok a).

Definition and_then {A B} (m : io A) (k : A -> io B) : io B :=
  fun p =>
    match m p with
    | (p', Ok a) => k a p'
    | (p', Raise e) => (p', Raise e)
    end.

Notation "x <~ m ;; k" := (and_then m (fun x => k))
  (at level 61, m at next level, right associativity).
Notation "m >> k" := (and_then m (fun _ => k))
  (at level 61, right associativity).

(** A call that answers without touching the process. *)
Definition lift {A} (r : result A) : io A := fun p => (p, r).

(** A call that cannot fail. *)
Definition update (f : World -> World) : io unit :=
  fun p =>
    ({| world := f (world p); out_answers := out_answers p;
        fileno_answer := fileno_answer p; setcbreak_answer := setcbreak_answer p;
        tcsetattr_answer := tcsetattr_answer p |}, Ok tt).

(** One call on [sys.stdout]: the next answer decides, and a refused
    call sends nothing. *)
Definition out_call (ev : OutEvent) : io unit :=
  fun p =>
    let answered rest wd :=
      {| world := wd; out_answers := rest;
         fileno_answer := fileno_answer p; setcbreak_answer := setcbreak_answer p;
         tcsetattr_answer := tcsetattr_answer p |} in
    match out_answers p with
    | Some e :: rest => (answered rest (world p), Raise e)
    | None :: rest => (answered rest (with_stdout (fun o => o ++ [ev]) (world p)), Ok tt)
    | [] => (answered [] (with_stdout (fun o => o ++ [ev]) (world p)), Ok tt)
    end.

Definition out_write (s : str) : io unit := out_call (Write s).
Definition out_flush : io unit := out_call Flush.

(** [sys.stdin.fileno()] *)
Definition stdin_fileno : io unit :=
  fun p => match fileno_answer p with
           | Some e => (p, Raise e)
           | None => (p, Ok tt)
           end.

(** [tty.setcbreak(fd)] on a terminal with attributes [a]. *)
Definition tty_setcbreak (a : TermAttrs) : io unit :=
  fun p => match setcbreak_answer p with
           | Some e => (p, Raise e)
           | None => update (with_attrs (Some (setcbreak a))) p
           end.

(** [termios.tcsetattr(fd, termios.TCSADRAIN, a)] *)
Definition tcsetattr (a : TermAttrs) : io unit :=
  fun p => match tcsetattr_answer p with
           | Some e => (p, Raise e)
           | None => update (with_attrs (Some a)) p
           end.

Definition _write_diff (prev cur : list str) (force : bool) : io unit :=
  let '(buf, changed) := fold_left (diff_step prev force) (enumerate cur) (_SYNC_START, false) in
  let buf := buf ++ _SYNC_END in
  if changed then out_write buf >> out_flush else ret tt.

(** [_write_diff(out, prev_frame, frame, force)], then
    [prev_frame = frame] and [needs_redraw = redraw]. *)
Definition show_frame (frame : list str) (force redraw : bool) (st : RenderState)
  : io RenderState :=
  _write_diff (prev_frame st) frame force >>
  ret {| interrupted := interrupted st; needs_redraw := redraw;
         current_lines := current_lines st; current_info := current_info st;
         previous_idx := previous_idx st; prev_frame := frame |}.

Definition tick_no_player (w h : Z) (st : RenderState) : io RenderState :=
  show_frame (_build_status (lit "No media player detected.") None w h)
             (needs_redraw st) false st.

Definition tick_song_changed (env : TickEnv) (now : NowPlaying) (w h : Z)
    (st : RenderState) : io RenderState :=
  let st := {| interrupted := interrupted st; needs_redraw := needs_redraw st;
               current_lines := current_lines st; current_info := now;
               previous_idx := -1; prev_frame := [] |} in
  let frame := _build_status (lit "Fetching lyrics" ++ ellipsis) (Some now) w h in
  st <~ show_frame frame true (needs_redraw st) st ;;
  update (log_fetch (mkFetchCall (title now) (artist now) (album now) (duration_s now))) >>
  fetched <~ lift (env_fetch env) ;;
  (* if not current_lines: current_lines = None *)
  let lines := match fetched with Some (l :: ls) => Some (l :: ls) | _ => None end in
  ret {| interrupted := interrupted st; needs_redraw := true;
         current_lines := lines; current_info := current_info st;
         previous_idx := previous_idx st; prev_frame := prev_frame st |}.

Definition tick_no_lyrics (now : NowPlaying) (w h : Z) (st : RenderState) : io RenderState :=
  show_frame (_build_status (lit "No synced lyrics found.") (Some now) w h)
             (needs_redraw st) false st.

Definition tick_lyrics (lines : list LyricLine) (now : NowPlaying) (w h : Z)
    (st : RenderState) : io RenderState :=
  active_idx <~ lift (_find_active_line lines (position_s now)) ;;
  st <~ (if negb (active_idx =? previous_idx st) || needs_redraw st then
           show_frame (_build_frame lines active_idx now w h) (needs_redraw st) false st
         else ret st) ;;
  ret {| interrupted := interrupted st; needs_redraw := needs_redraw st;
         current_lines := current_lines st; current_info := current_info st;
         previous_idx := active_idx; prev_frame := prev_frame st |}.

(** One pass of the [while not interrupted] loop. *)
Definition tick (env : TickEnv) (st : RenderState) : io RenderState :=
  (* time.sleep(_POLL_DT) *)
  let st := deliver_signals env st in
  let '(w, h) := _term_size (env_size env) in
  now <~ lift (env_now env) ;;
  match now with
  | None => tick_no_player w h st
  | Some now =>
      if song_changed now (current_info st) then tick_song_changed env now w h st
      else
        match current_lines st with
        | None => tick_no_lyrics now w h st
        | Some lines => tick_lyrics lines now w h st
        end
  end.

Fixpoint run_loop (sched : list TickEnv) (st : RenderState) (p : Process)
  : Process * Outcome :=
  if interrupted st then (p, Returned)
  else
    match sched with
    | [] => (p, Running)
    | env :: rest =>
        match tick env st p with
        | (p, Ok st) => run_loop rest st p
        | (p, Raise e) => (p, Raised e)
        end
    end.

(** The [try] block: the mode change, the three calls that open the
    screen, and the loop. *)
Definition try_block (old_termios : option TermAttrs) (sched : list TickEnv)
    (st : RenderState) (p : Process) : Process * Outcome :=
  match ((match old_termios with
          | Some a => tty_setcbreak a
          | None => ret tt
          end) >>
         out_write _HIDE_CURSOR >> out_write _CLEAR >> out_flush) p with
  | (p, Raise e) => (p, Raised e)
  | (p, Ok _) => run_loop sched st p
  end.

(** The [finally] block: a call of its own that fails ends it there. *)
Definition restore (old_termios : option TermAttrs) (old_int old_winch : Handler)
  : io unit :=
  out_write _SHOW_CURSOR >> out_write _CLEAR >> out_flush >>
  (match old_termios with
   | Some a => tcsetattr a
   | None => ret tt
   end) >>
  update (with_handlers old_int old_winch).

Definition display_lyrics (lines : option (list LyricLine)) (initial_info : NowPlaying)
    (sched : list TickEnv) (p : Process) : Process * Outcome :=
  let old_int := sigint_handler (world p) in
  let old_winch := sigwinch_handler (world p) in
  let p := fst (update (with_handlers IntHandler WinchHandler) p) in
  let st := {| interrupted := false; needs_redraw := true;
               current_lines := lines; current_info := initial_info;
               previous_idx := -1; prev_frame := [] |} in
  (* fd = sys.stdin.fileno(), outside any try *)
  match stdin_fileno p with
  | (p, Raise e) => (p, Raised e)
  | (p, Ok _) =>
      (* old_termios = termios.tcgetattr(fd), or termios.error *)
      let old_termios := stdin_attrs (world p) in
      match try_block old_termios sched st p with
      | (p, Running) => (p, Running)
      | (p, outcome) =>
          (* finally: an exception raised here replaces the pending one *)
          match restore old_termios old_int old_winch p with
          | (p, Ok _) => (p, outcome)
          | (p, Raise e) => (p, Raised e)
          end
      end
  end.

(** [print(text, flush=True)]: the text, then the end of line, then the
    flush, each a call on the stream. *)
Definition print_flush (text : str) : io unit :=
  out_write text >> out_write [10%N] >> out_flush.

Definition pipe_tick (lines : list LyricLine) (initial_info : NowPlaying)
    (env : TickEnv) (interrupted : bool) (previous_idx : Z) : io PipeStep :=
  now <~ lift (env_now env) ;;
  match now with
  | None => ret (Continue (interrupted || env_sigint env) previous_idx)
  | Some now =>
      if song_changed now initial_info then ret Return
      else if negb (is_playing now) then
        ret (Continue (interrupted || env_sigint env) previous_idx)
      else
        active_idx <~ lift (_find_active_line lines (position_s now)) ;;
        if negb (active_idx =? previous_idx) then
          l <~ lift (py_index lines active_idx) ;;
          (match text l with
           | [] => ret tt
           | _ :: _ => print_flush (text l)
           end) >>
          ret (Continue (interrupted || env_sigint env) active_idx)
        else ret (Continue (interrupted || env_sigint env) previous_idx)
  end.

Fixpoint pipe_loop (lines : list LyricLine) (initial_info : NowPlaying)
    (sched : list TickEnv) (interrupted : bool) (previous_idx : Z) (p : Process)
  : Process * Outcome :=
  if interrupted then (p, Returned)
  else
    match sched with
    | [] => (p, Running)
    | env :: rest =>
        match pipe_tick lines initial_info env interrupted previous_idx p with
        | (p, Ok (Continue interrupted previous_idx)) =>
            pipe_loop lines initial_info rest interrupted previous_idx p
        | (p, Ok Return) => (p, Returned)
        | (p, Raise e) => (p, Raised e)
        end
    end.

Definition display_pipe (lines : list LyricLine) (initial_info : NowPlaying)
    (sched : list TickEnv) (p : Process) : Process * Outcome :=
  let old_handler := sigint_handler (world p) in
  let p := fst (update (fun wd => with_handlers IntHandler (sigwinch_handler wd) wd) p) in
  match pipe_loop lines initial_info sched false (-1) p with
  | (p, Running) => (p, Running)
  (* finally: signal.signal(signal.SIGINT, old_handler) *)
  | (p, outcome) =>
      (fst (update (fun wd => with_handlers old_handler (sigwinch_handler wd) wd) p), outcome)
  end.

End Fallible.

(* ------------------------------------------------------------------ *)
(** ** Vocabulary of the properties *)

(** What the writer sends for one row: the cursor-position instruction
    for the row (rows count from 1 on the terminal), then its content. *)
Definition emit_row (e : Z * str) : str := _move (fst e + 1) 1 ++ snd e.

(** The rows of [cur], with their indices, that pass the test of the
    writer's loop. *)
Definition changed_rows (prev cur : list str) (force : bool) : list (Z * str) :=
  filter (fun e => row_changed prev force (fst e) (snd e)) (enumerate cur).

(** The row carries the erase-to-end-of-line marker at its end. *)
Definition ends_with_EL (row : str) : Prop := exists content, row = content ++ _EL.

(** The rows the two layouts produce before padding. *)
Definition frame_layout (lines : list LyricLine) (active_idx : Z)
    (now : NowPlaying) (w h : Z) : list str :=
  firstn (2 + Z.to_nat (h - 3)) (_build_frame lines active_idx now w h).

Definition status_layout (message : str) (now : option NowPlaying) (w h : Z) : list str :=
  firstn (2 + Z.to_nat (h - 3)) (_build_status message now w h).

(** What a row shows: the row without its control sequences (the
    styling ones and the erase marker), read by the same parser as the
    terminal's. *)
Fixpoint visible_from (st : ParserState) (s : str) : str :=
  match s with
  | [] => []
  | c :: s' =>
      if N.eqb c 27 then visible_from Escape s'
      else
        match st with
        | Ground => c :: visible_from Ground s'
        | Escape => visible_from (if N.eqb c 91 then Csi [] else Ground) s'
        | Csi params => visible_from (if csi_final c then Ground else Csi params) s'
        end
  end.

Definition visible (row : str) : str := visible_from Ground row.

(** Text without an escape character. *)
Definition plain (s : str) : Prop := Forall (fun c => c <> 27%N) s.

(** What a step may do to the process: append to the output stream and
    to the log of fetches; the terminal mode and the handlers stay. *)
Definition extends (wd wd' : World) : Prop :=
  stdin_attrs wd' = stdin_attrs wd /\
  sigint_handler wd' = sigint_handler wd /\
  sigwinch_handler wd' = sigwinch_handler wd /\
  (exists evs, stdout wd' = stdout wd ++ evs) /\
  (exists calls, fetch_calls wd' = fetch_calls wd ++ calls).

(** The conversion of a match as the specification words it:
    [time_s = minutes*60 + seconds + fraction], the fraction read as
    thousandths after padding the field on the right, and the text
    trimmed. *)
Section ParserSpec.

Variable decimal : char -> option Z.

Definition digit_value (c : char) : Z :=
  match decimal c with Some d => d | None => 0 end.

Definition digits_value (s : str) : Z :=
  fold_left (fun acc c => 10 * acc + digit_value c) s 0.

Definition millis (g3 : option str) : Z :=
  match g3 with
  | Some f => digits_value f * 10 ^ (3 - len f)
  | None => 0
  end.

Definition line_of_groups (g : groups) : LyricLine :=
  let '(g1, g2, g3, g4) := g in
  mkLyricLine
    (inject_Z (digits_value g1 * 60 + digits_value g2) + inject_Z (millis g3) / inject_Z 1000)%Q
    (strip g4).

(** The matches of the input lines, in input order. *)
Definition matched (raw_lines : list str) : list groups :=
  flat_map (fun raw => match pattern_match decimal (strip raw) with
                       | Some g => [g]
                       | None => []
                       end) raw_lines.

Definition is_match (raw : str) : bool :=
  match pattern_match decimal (strip raw) with Some _ => true | None => false end.

Definition all_decimal (s : str) : Prop := Forall (fun c => is_decimal decimal c = true) s.

End ParserSpec.

(** No whitespace at either end. *)
Definition trimmed (s : str) : Prop :=
  (forall c r, s = c :: r -> isspace c = false) /\
  (forall c r, rev s = c :: r -> isspace c = false).

(** The lines at timestamp [t]; filtering by it reads off their order. *)
Definition same_time (t : Q) (l : LyricLine) : bool := Qeq_bool (time_s l) t.

(** The frame a pass without song change is about: the status frame of
    its branch, or the lyric frame around the located line. *)
Definition pass_frame (env : TickEnv) (st : RenderState) : option (list str) :=
  let '(w, h) := _term_size (env_size env) in
  match env_now env with
  | Raise _ => None
  | Ok None => Some (_build_status (lit "No media player detected.") None w h)
  | Ok (Some now) =>
      match current_lines st with
      | None => Some (_build_status (lit "No synced lyrics found.") (Some now) w h)
      | Some lines =>
          match _find_active_line lines (position_s now) with
          | Ok active_idx => Some (_build_frame lines active_idx now w h)
          | Raise _ => None
          end
      end
  end.

(** The states at the head of the passes a schedule drives, the first
    one included. *)
Fixpoint loop_states (sched : list TickEnv) (st : RenderState) (wd : World)
  : list RenderState :=
  st ::
  if interrupted st then []
  else
    match sched with
    | [] => []
    | env :: rest =>
        match tick env st wd with
        | (wd, Ok st) => loop_states rest st wd
        | (_, Raise _) => []
        end
    end.

(** The lyrics at hand are absent or have a line, and the index of the
    line last shown is -1 or an index of theirs. *)
Definition lines_in_step (st : RenderState) : Prop :=
  current_lines st <> Some [] /\
  (previous_idx st = -1 \/
   exists lines, current_lines st = Some lines /\ 0 <= previous_idx st < len lines).

(** [lyrics if lyrics else None], how cli.py hands lyrics to
    [display_lyrics]. *)
Definition lyrics_or_none (lyrics : option (list LyricLine)) : option (list LyricLine) :=
  match lyrics with
  | Some (l :: ls) => Some (l :: ls)
  | _ => None
  end.

(** The state of the first pass of [display_lyrics]. *)
Definition initial_state (lines : option (list LyricLine)) (initial_info : NowPlaying)
  : RenderState :=
  {| interrupted := false; needs_redraw := true; current_lines := lines;
     current_info := initial_info; previous_idx := -1; prev_frame := [] |}.

(** What a step of pipe mode may do to the process: print lines of the
    lyrics that have a text, each with its newline and a flush. *)
Definition pipe_extends (lines : list LyricLine) (wd wd' : World) : Prop :=
  (exists printed,
     stdout wd' = stdout wd
                  ++ flat_map (fun l => [Write (text l ++ [10%N]); Flush]) printed /\
     Forall (fun l => In l lines /\ text l <> []) printed) /\
  stdin_attrs wd' = stdin_attrs wd /\
  sigint_handler wd' = sigint_handler wd /\
  sigwinch_handler wd' = sigwinch_handler wd /\
  fetch_calls wd' = fetch_calls wd.

(** One step of reading a decimal numeral with the ASCII digits. *)
Definition read_digit (a : Z) (c : char) : Z := 10 * a + digit_value ascii_decimal c.

(** The rows a terminal shows, by row index, and what an emitted row
    does to them: the cursor goes to the row and the content, ending in
    the erase marker, replaces what the row held. *)
Definition Screen : Type := Z -> option str.

Definition paint (screen : Screen) (e : Z * str) : Screen :=
  fun i => if i =? fst e then Some (snd e) else screen i.

(** A screen showing a frame. *)
Definition showing (frame : list str) : Screen :=
  fun i => if i <? 0 then None else nth_error frame (Z.to_nat i).

(** The answer was no player playing: none at all, or a paused one. *)
Definition not_playing (answer : result (option NowPlaying)) : Prop :=
  exists a, answer = Ok a /\ forall info, a = Some info -> is_playing info = false.

(** The exact-match answer offers no text: the request failed, the
    status is not 200, or the track has no synced text. *)
Definition exact_unusable (reply : HttpReply Track) : Prop :=
  match reply with
  | RequestFailed => True
  | Reply status_code json =>
      status_code <> 200 \/
      exists data, json = Ok data /\ truthy_text (syncedLyrics data) = None
  end.

(** A pass of pipe mode that only waits: no interrupt, and no player
    or the song it was started for, paused. *)
Definition waiting_pass (initial_info : NowPlaying) (env : TickEnv) : Prop :=
  env_sigint env = false /\
  (env_now env = Ok None \/
   exists n, env_now env = Ok (Some n) /\
     (title n, artist n) = (title initial_info, artist initial_info) /\
     is_playing n = false).

(** What a step may do to a process whose calls can fail: to its
    world what [extends] allows, and to the answers of the stream, use
    them up from the front; the other answers stay. *)
Definition advances (p p' : Fallible.Process) : Prop :=
  extends (Fallible.world p) (Fallible.world p') /\
  (exists used, Fallible.out_answers p = used ++ Fallible.out_answers p') /\
  Fallible.fileno_answer p' = Fallible.fileno_answer p /\
  Fallible.setcbreak_answer p' = Fallible.setcbreak_answer p /\
  Fallible.tcsetattr_answer p' = Fallible.tcsetattr_answer p.

(** A statement that only advances the process, and raises nothing
    but what the stream answered or what [origin] accounts for. *)
Definition behaves {A} (origin : exn -> Prop) (m : Fallible.io A) : Prop :=
  forall p,
    advances p (fst (m p)) /\
    forall e, snd (m p) = Raise e -> origin e \/ In (Some e) (Fallible.out_answers p).

(** A statement whose value, when it completes, satisfies [post]. *)
Definition yields {A} (post : A -> Prop) (m : Fallible.io A) : Prop :=
  forall p a, snd (m p) = Ok a -> post a.

(** The stream accepts its next [n] calls. *)
Definition accepts (n : nat) (p : Fallible.Process) : Prop :=
  Forall (fun answer => answer = None) (firstn n (Fallible.out_answers p)).

(** The process and the pending outcome of [display_lyrics] when
    control reaches the [finally] block: the handlers are installed,
    the descriptor was obtained, the [try] block has ended. *)
Definition at_finally (lines : option (list LyricLine)) (initial_info : NowPlaying)
    (sched : list TickEnv) (p : Fallible.Process) : Fallible.Process * Outcome :=
  Fallible.try_block (stdin_attrs (Fallible.world p)) sched
    (initial_state lines initial_info)
    (fst (Fallible.update (with_handlers IntHandler WinchHandler) p)).

(** A process whose calls all succeed. *)
Definition calm (wd : World) : Fallible.Process := Fallible.mkProcess wd [] None None None.

(** The exceptions the collaborators of the render loop raised in a
    schedule: [get_now_playing] in some pass, or [fetch_lyrics] in a
    pass that found a song. *)
Definition raised_in (sched : list TickEnv) (e : exn) : Prop :=
  Exists (fun env =>
            env_now env = Raise e \/
            (env_fetch env = Raise e /\ exists now, env_now env = Ok (Some now)))
         sched.

(** Two worlds that differ at most in how the characters sent to the
    stream were cut into calls. *)
Definition same_text (w wd : World) : Prop :=
  out_data (stdout w) = out_data (stdout wd) /\
  stdin_attrs w = stdin_attrs wd /\
  sigint_handler w = sigint_handler wd /\
  sigwinch_handler w = sigwinch_handler wd /\
  fetch_calls w = fetch_calls wd.

(* ------------------------------------------------------------------ *)
(** ** Sample data *)

Definition ex_lines : list LyricLine :=
  [ mkLyricLine 0 (lit "a"); mkLyricLine 2 (lit "b");
    mkLyricLine 2 (lit "c"); mkLyricLine 5 (lit "d") ].

Definition ex_now : NowPlaying :=
  mkNowPlaying (lit "Song") (lit "Band") (lit "Album") 185000000 2500000 (lit "Player") true.

Definition ex_env : TickEnv := mkTickEnv false false (Some (30, 8)) (Ok (Some ex_now)) (Ok None).

Definition ex_world : World :=
  mkWorld [] (Some (mkTermAttrs true true 1 0)) (HandlerOf 0) (HandlerOf 0) [].

Definition ex_long_lines : list LyricLine :=
  [ mkLyricLine 0 (lit "abcdefghij"); mkLyricLine 2 (lit "xy") ].

Definition ex_other : NowPlaying :=
  mkNowPlaying (lit "Other") (lit "Band") (lit "Album") 200000000 0 (lit "Player") true.

Definition ex_state : RenderState := mkRenderState false false (Some ex_lines) ex_other 3 [].

Definition ex_interrupt : TickEnv :=
  mkTickEnv true false (Some (30, 8)) (Ok (Some ex_now)) (Ok None).

Definition ex_failure : TickEnv :=
  mkTickEnv false false (Some (30, 8)) (Raise (ExternalError 0)) (Ok None).

(** A state after one shown pass of the sample song. *)
Definition ex_shown : RenderState :=
  match snd (tick ex_env (initial_state (Some ex_lines) ex_now) ex_world) with
  | Ok st => st
  | Raise _ => initial_state (Some ex_lines) ex_now
  end.

Definition ex_paused : NowPlaying :=
  mkNowPlaying (lit "Quiet") (lit "Band") (lit "Album") 100000000 0 (lit "Vlc") false.

Definition ex_bus : Bus :=
  mkBus (Ok tt)
        (Ok [lit "org.freedesktop.DBus"; lit "org.mpris.MediaPlayer2.vlc";
             lit "org.mpris.MediaPlayer2.spotify"])
        (fun _ name => if str_eqb name (lit "org.mpris.MediaPlayer2.vlc")
                       then Ok (Some ex_paused) else Ok (Some ex_now)).

Definition ex_http_exact : Http :=
  mkHttp (fun _ => Reply 200 (Ok (mkTrack (Some (lit "[00:01.5] a")))))
         (fun _ => RequestFailed).

Definition ex_http_search : Http :=
  mkHttp (fun _ => Reply 404 (Ok (mkTrack None)))
         (fun _ => Reply 200 (Ok [mkTrack None; mkTrack (Some []);
                                  mkTrack (Some (lit "[00:02] b"));
                                  mkTrack (Some (lit "[00:03] c"))])).

Definition ex_http_down : Http :=
  mkHttp (fun _ => RequestFailed) (fun _ => Reply 503 (Ok [])).

(** Passes that find no player, and the sample song paused. *)
Definition ex_absent : TickEnv := mkTickEnv false false (Some (30, 8)) (Ok None) (Ok None).

Definition ex_held : TickEnv :=
  mkTickEnv false false (Some (30, 8))
    (Ok (Some (mkNowPlaying (lit "Song") (lit "Band") (lit "Album") 185000000 2500000
                            (lit "Player") false)))
    (Ok None).

(** The sample terminal with a stream that refuses one flush, inside
    the first pass of the loop, and with one that stays broken from
    there on: its buffer takes the writes, every flush fails. *)
Definition ex_flaky : Fallible.Process :=
  Fallible.mkProcess ex_world [None; None; None; None; Some (ExternalError 5)]
                     None None None.

Definition ex_broken : Fallible.Process :=
  Fallible.mkProcess ex_world
    [None; None; None; None; Some (ExternalError 5); None; None; Some (ExternalError 5)]
    None None None.

(** The sample terminal hung up before the exit path: its stream still
    buffers, [tcsetattr] fails. *)
Definition ex_hangup : Fallible.Process :=
  Fallible.mkProcess ex_world [] None None (Some (ExternalError 6)).

(** A pipe whose reader has gone: the first call on it is refused. *)
Definition ex_closed : Fallible.Process :=
  Fallible.mkProcess ex_world [Some (ExternalError 32)] None None None.

(** A terminal whose cursor an earlier program left hidden. *)
Definition ex_hidden : Terminal := mkTerminal false Ground.

(* ================================================================== *)
(** * Properties *)

(** ** Indexing *)

Lemma len_nonneg {A} (l : list A) : 0 <= len l.
Proof. unfold len. lia. Qed.

Lemma len_app {A} (a b : list A) : len (a ++ b) = len a + len b.
Proof. unfold len. rewrite length_app. lia. Qed.

Lemma py_index_in_range {A} (l : list A) (i : Z) :
  0 <= i < len l ->
  exists x, py_index l i = Ok x /\ nth_error l (Z.to_nat i) = Some x.
Proof.
  intros Hi. unfold py_index.
  replace (i <? 0) with false by (symmetry; apply Z.ltb_ge; lia).
  replace (0 <=? i) with true by (symmetry; apply Z.leb_le; lia).
  replace (i <? len l) with true by (symmetry; apply Z.ltb_lt; lia).
  cbn [andb].
  destruct (nth_error l (Z.to_nat i)) as [x|] eqn:E.
  - exists x. split; reflexivity.
  - apply nth_error_None in E. unfold len in Hi. lia.
Qed.

Lemma nth_error_len {A} (l : list A) (j : nat) (x : A) :
  nth_error l j = Some x -> Z.of_nat j < len l.
Proof.
  intros E. assert (nth_error l j <> None) as H by congruence.
  apply nth_error_Some in H. unfold len. lia.
Qed.

(** ** The locator *)

Lemma time_le_trans : forall a b c, time_le a b -> time_le b c -> time_le a c.
Proof. unfold time_le. intros a b c H1 H2. eapply Qle_trans; eassumption. Qed.

Lemma sorted_nth (lines : list LyricLine) :
  sorted_by_time lines ->
  forall i j a b, nth_error lines i = Some a -> nth_error lines j = Some b ->
    (i <= j)%nat -> time_le a b.
Proof.
  intros Hs. apply Sorted_StronglySorted in Hs; [| exact time_le_trans].
  induction Hs as [| x l Hl IH Hx]; intros i j a b Ha Hb Hij.
  - destruct i; discriminate.
  - destruct i as [|i], j as [|j]; cbn in Ha, Hb.
    + injection Ha as <-. injection Hb as <-. unfold time_le. apply Qle_refl.
    + injection Ha as <-. rewrite Forall_forall in Hx. apply Hx.
      eapply nth_error_In; eassumption.
    + lia.
    + eapply IH; try eassumption. lia.
Qed.

Lemma mid_bounds (lo hi : Z) : lo <= hi -> lo <= (lo + hi) / 2 <= hi.
Proof.
  intros H. split; [apply Z.div_le_lower_bound | apply Z.div_le_upper_bound]; lia.
Qed.

Ltac probe_bounds :=
  match goal with
  | Hle : ?lo <= ?hi |- context [(?lo + ?hi) / 2] =>
      pose proof (mid_bounds lo hi Hle)
  | Hle : ?lo <= ?hi, H : context [(?lo + ?hi) / 2] |- _ =>
      pose proof (mid_bounds lo hi Hle)
  end.

(** The loop never leaves the list: every probe is in range, so the
    search returns, and what it returns is [res] or a probed index. *)
Lemma find_loop_range (lines : list LyricLine) (p : Q) (lo hi res : Z) :
  0 <= lo -> hi < len lines ->
  exists r, find_loop lines p lo hi res = Ok r /\ (r = res \/ lo <= r <= hi).
Proof.
  funelim (find_loop lines p lo hi res); intros Hlo Hhi.
  - exists res. split; [reflexivity | left; reflexivity].
  - exfalso. probe_bounds.
    destruct (py_index_in_range lines ((lo + hi) / 2)) as (x & E & _); [lia |].
    congruence.
  - probe_bounds.
    destruct H as (r & E & Hr); [lia | lia |].
    exists r. split; [exact E | right; lia].
  - probe_bounds.
    destruct H as (r & E & Hr); [lia | lia |].
    exists r. split; [exact E | destruct Hr; [left; assumption | right; lia]].
Qed.

(** On a sorted list the loop keeps: everything left of [lo] is at or
    before [p], everything right of [hi] is after [p], and [res] is the
    last index left of [lo] (or 0).  It ends at the boundary [k] between
    the two groups. *)
Lemma find_loop_sorted (lines : list LyricLine) (p : Q) (lo hi res : Z) :
  sorted_by_time lines ->
  0 <= lo -> hi < len lines -> lo <= hi + 1 ->
  (forall j l, nth_error lines j = Some l -> Z.of_nat j < lo -> (time_s l <= p)%Q) ->
  (forall j l, nth_error lines j = Some l -> hi < Z.of_nat j -> ~ (time_s l <= p)%Q) ->
  res = Z.max 0 (lo - 1) ->
  exists k, 0 <= k <= len lines /\
    find_loop lines p lo hi res = Ok (Z.max 0 (k - 1)) /\
    forall j l, nth_error lines j = Some l ->
      ((time_s l <= p)%Q <-> Z.of_nat j < k).
Proof.
  intros Hs. funelim (find_loop lines p lo hi res); intros Hlo Hhi Hlh Hleft Hright Hres.
  - exists lo. split; [lia |]. split; [subst res; reflexivity |].
    intros j x Hj. split.
    + intros Hle. destruct (Z_lt_ge_dec (Z.of_nat j) lo) as [|Hge]; [assumption |].
      exfalso. apply (Hright j x Hj); [lia | exact Hle].
    + apply Hleft. exact Hj.
  - exfalso. probe_bounds.
    destruct (py_index_in_range lines ((lo + hi) / 2)) as (x & E & _); [lia |].
    congruence.
  - probe_bounds.
    destruct (py_index_in_range lines ((lo + hi) / 2)) as (x & E & Hx); [lia |].
    assert (x = l) by congruence. subst x.
    apply Qle_bool_iff in Heq.
    destruct H as (k & Hk & E' & Hchar); try lia; try assumption.
    + intros j y Hj Hlt.
      eapply Qle_trans; [| exact Heq].
      apply (sorted_nth lines Hs j (Z.to_nat ((lo + hi) / 2)) y l Hj Hx). lia.
    + exists k. split; [exact Hk |]. split; [exact E' | exact Hchar].
  - probe_bounds.
    destruct (py_index_in_range lines ((lo + hi) / 2)) as (x & E & Hx); [lia |].
    assert (x = l) by congruence. subst x.
    assert (~ (time_s l <= p)%Q) as Hnle.
    { intros Hle. apply Qle_bool_iff in Hle. congruence. }
    destruct H as (k & Hk & E' & Hchar); try lia; try assumption.
    + intros j y Hj Hgt Hle. apply Hnle.
      eapply Qle_trans; [| exact Hle].
      apply (sorted_nth lines Hs (Z.to_nat ((lo + hi) / 2)) j l y Hx Hj). lia.
    + exists k. split; [exact Hk |]. split; [exact E' | exact Hchar].
Qed.

(** The boundary form of the locator's contract. *)
Lemma find_active_line_boundary (lines : list LyricLine) (p : Q) :
  sorted_by_time lines ->
  exists k, 0 <= k <= len lines /\
    _find_active_line lines p = Ok (Z.max 0 (k - 1)) /\
    forall j l, nth_error lines j = Some l ->
      ((time_s l <= p)%Q <-> Z.of_nat j < k).
Proof.
  intros Hs. unfold _find_active_line.
  apply find_loop_sorted; try assumption; try lia.
  - pose proof (len_nonneg lines). lia.
  - intros j l Hj Hgt. apply nth_error_len in Hj. lia.
Qed.

(** On a list with at least one line the locator answers an index of
    the list, sorted or not. *)
Lemma find_active_line_in_range (lines : list LyricLine) (p : Q) :
  lines <> [] ->
  exists r l, _find_active_line lines p = Ok r /\ 0 <= r <= len lines - 1 /\
    py_index lines r = Ok l.
Proof.
  intros Hne.
  assert (1 <= len lines) as Hlen.
  { destruct lines; [congruence | unfold len; cbn [List.length]; lia]. }
  destruct (find_loop_range lines p 0 (len lines - 1) 0) as (r & E & Hr); try lia.
  assert (0 <= r <= len lines - 1) as Hin by lia.
  destruct (py_index_in_range lines r) as (l & El & _); [lia |].
  exists r, l. repeat split; try assumption; lia.
Qed.

Lemma find_active_line_total (lines : list LyricLine) (p : Q) :
  exists r, _find_active_line lines p = Ok r /\ 0 <= r.
Proof.
  destruct (find_loop_range lines p 0 (len lines - 1) 0) as (r & E & Hr); try lia.
  exists r. split; [exact E | lia].
Qed.

Lemma ex_lines_sorted : sorted_by_time ex_lines.
Proof.
  unfold sorted_by_time, ex_lines.
  repeat constructor; unfold time_le, Qle; cbn; lia.
Qed.

(** C1.  On lines sorted non-decreasing by [time_s], [_find_active_line]
    returns the largest index whose timestamp is at or before the
    position, so of several lines sharing that timestamp the last one;
    it returns 0 when no line is at or before the position, which covers
    the empty list and a position below the first timestamp. *)
Theorem find_active_line_largest (lines : list LyricLine) (p : Q) :
  sorted_by_time lines ->
  exists r, _find_active_line lines p = Ok r /\
    ((exists j l, nth_error lines j = Some l /\ (time_s l <= p)%Q) ->
       0 <= r /\
       (exists lr, nth_error lines (Z.to_nat r) = Some lr /\ (time_s lr <= p)%Q /\
          forall j l, nth_error lines j = Some l ->
            (time_s l == time_s lr)%Q -> Z.of_nat j <= r) /\
       (forall j l, nth_error lines j = Some l -> (time_s l <= p)%Q ->
          Z.of_nat j <= r)) /\
    ((forall j l, nth_error lines j = Some l -> ~ (time_s l <= p)%Q) -> r = 0).
Proof.
  intros Hs.
  destruct (find_active_line_boundary lines p Hs) as (k & Hk & E & Hchar).
  exists (Z.max 0 (k - 1)). split; [exact E |]. split.
  - intros (j & l & Hj & Hle).
    assert (Z.of_nat j < k) as Hjk by (apply (Hchar j l Hj); exact Hle).
    assert (Z.max 0 (k - 1) = k - 1) as -> by lia.
    destruct (py_index_in_range lines (k - 1)) as (lr & _ & Hlr); [lia |].
    assert (time_s lr <= p)%Q as Hlrp.
    { apply (Hchar (Z.to_nat (k - 1)) lr Hlr). lia. }
    split; [lia |]. split.
    + exists lr. split; [exact Hlr |]. split; [exact Hlrp |].
      intros j' l' Hj' Heq.
      assert (Z.of_nat j' < k); [| lia].
      apply (Hchar j' l' Hj'). rewrite Heq. exact Hlrp.
    + intros j' l' Hj' Hle'.
      assert (Z.of_nat j' < k); [| lia].
      apply (Hchar j' l' Hj'). exact Hle'.
  - intros Hnone.
    destruct (Z.eq_dec k 0) as [-> | Hk0]; [reflexivity | exfalso].
    destruct (py_index_in_range lines 0) as (l0 & _ & Hl0); [lia |].
    apply (Hnone _ _ Hl0). apply (Hchar _ _ Hl0). cbn. lia.
Qed.

Lemma find_active_line_largest_witness :
  sorted_by_time ex_lines /\
  exists r, _find_active_line ex_lines 2 = Ok r /\
    forall j l, nth_error ex_lines j = Some l -> (time_s l <= 2)%Q -> Z.of_nat j <= r.
Proof.
  split; [exact ex_lines_sorted |].
  destruct (find_active_line_largest ex_lines 2 ex_lines_sorted) as (r & E & Hsome & _).
  exists r. split; [exact E |].
  apply Hsome. exists 0%nat, (mkLyricLine 0 (lit "a")).
  split; [reflexivity | unfold Qle; cbn; lia].
Defined.

(** The example of the specification: [T = [0, 2, 2, 5]] and [p = 2]
    give index 2, and a position below [T[0]] gives 0. *)
Example find_active_line_examples :
  _find_active_line ex_lines 2 = Ok 2 /\
  _find_active_line ex_lines (-1 # 2) = Ok 0 /\
  _find_active_line [] 7 = Ok 0.
Proof. repeat split. Qed.

(** C10.  On a non-empty list the index [_find_active_line] returns is
    between 0 and [len(lines) - 1], so [lines[active_idx]] in
    [display_pipe] does not raise; a pass of [display_pipe] that reaches
    the locator prints the active line's text only when the index moved
    and the text is not empty, and records the index either way. *)
Theorem pipe_active_index_in_bounds (lines : list LyricLine) :
  lines <> [] ->
  (forall p, exists r l,
      _find_active_line lines p = Ok r /\ 0 <= r <= len lines - 1 /\
      py_index lines r = Ok l) /\
  (forall initial_info env intr prev wd now,
      env_now env = Ok (Some now) ->
      song_changed now initial_info = false ->
      is_playing now = true ->
      exists active_idx l,
        _find_active_line lines (position_s now) = Ok active_idx /\
        py_index lines active_idx = Ok l /\
        pipe_tick lines initial_info env intr prev wd =
          ((if active_idx =? prev then wd
            else match text l with
                 | [] => wd
                 | _ :: _ => print_flush (text l) wd
                 end),
           Ok (Continue (intr || env_sigint env) active_idx))).
Proof.
  intros Hne. split.
  - intros p. apply find_active_line_in_range. exact Hne.
  - intros initial_info env intr prev wd now Hnow Hsame Hplay.
    destruct (find_active_line_in_range lines (position_s now) Hne)
      as (r & l & E & _ & El).
    exists r, l. split; [exact E |]. split; [exact El |].
    unfold pipe_tick. rewrite Hnow, Hsame, Hplay. cbn [negb]. rewrite E.
    destruct (r =? prev) eqn:Heq; cbn [negb].
    + apply Z.eqb_eq in Heq. subst prev. reflexivity.
    + rewrite El. reflexivity.
Qed.

Lemma pipe_active_index_in_bounds_witness :
  ex_lines <> [] /\
  exists r l, _find_active_line ex_lines 7 = Ok r /\ 0 <= r <= len ex_lines - 1 /\
    py_index ex_lines r = Ok l.
Proof.
  assert (ex_lines <> []) as Hne by (unfold ex_lines; discriminate).
  split; [exact Hne |].
  exact (proj1 (pipe_active_index_in_bounds ex_lines Hne) 7%Q).
Defined.

Example pipe_tick_prints :
  pipe_tick ex_lines ex_now ex_env false (-1) ex_world
  = (print_flush (lit "c") ex_world, Ok (Continue false 2)).
Proof. reflexivity. Qed.

(** ** The differential writer *)

Lemma str_eqb_eq (a b : str) : str_eqb a b = true <-> a = b.
Proof.
  revert b. induction a as [| x a IH]; intros [| y b]; cbn; split; intros H;
    try reflexivity; try discriminate.
  - apply andb_true_iff in H. destruct H as [Hx Ha].
    apply N.eqb_eq in Hx. apply IH in Ha. congruence.
  - injection H as -> ->. apply andb_true_iff. split.
    + apply N.eqb_refl.
    + apply IH. reflexivity.
Qed.

Lemma str_eqb_refl (a : str) : str_eqb a a = true.
Proof. apply str_eqb_eq. reflexivity. Qed.

Lemma str_eqb_neq (a b : str) : str_eqb a b = false <-> a <> b.
Proof.
  split.
  - intros H E. apply str_eqb_eq in E. congruence.
  - intros H. destruct (str_eqb a b) eqn:E; [| reflexivity].
    apply str_eqb_eq in E. contradiction.
Qed.

Lemma nth_error_combine_seq {A} (l : list A) (a j : nat) :
  nth_error (combine (List.map Z.of_nat (seq a (List.length l))) l) j
  = option_map (fun x => (Z.of_nat (a + j), x)) (nth_error l j).
Proof.
  revert a j. induction l as [| x l IH]; intros a j.
  - destruct j; reflexivity.
  - destruct j as [| j]; cbn.
    + rewrite Nat.add_0_r. reflexivity.
    + rewrite IH. replace (S a + j)%nat with (a + S j)%nat by lia. reflexivity.
Qed.

Lemma nth_error_enumerate {A} (l : list A) (j : nat) :
  nth_error (enumerate l) j = option_map (fun x => (Z.of_nat j, x)) (nth_error l j).
Proof.
  unfold enumerate, range, len. rewrite Nat2Z.id.
  apply (nth_error_combine_seq l 0 j).
Qed.

Lemma In_enumerate {A} (l : list A) (i : Z) (x : A) :
  In (i, x) (enumerate l) <-> exists j, i = Z.of_nat j /\ nth_error l j = Some x.
Proof.
  split.
  - intros H. apply In_nth_error in H. destruct H as (j & Hj).
    rewrite nth_error_enumerate in Hj.
    destruct (nth_error l j) as [y |] eqn:E; cbn in Hj; [| discriminate].
    injection Hj as <- <-. exists j. split; [reflexivity | exact E].
  - intros (j & -> & Hj). apply (nth_error_In _ j).
    rewrite nth_error_enumerate, Hj. reflexivity.
Qed.

(** The test of the loop body, read as a proposition. *)
Lemma row_changed_iff (prev : list str) (force : bool) (j : nat) (line : str) :
  row_changed prev force (Z.of_nat j) line = true <->
  force = true \/ (List.length prev <= j)%nat \/
  exists p, nth_error prev j = Some p /\ p <> line.
Proof.
  unfold row_changed. rewrite Nat2Z.id, !orb_true_iff, negb_true_iff, str_eqb_neq.
  unfold len. split.
  - intros [[Hf | Hlen] | Hne].
    + left. exact Hf.
    + right. left. apply Z.geb_le in Hlen. lia.
    + destruct (nth_error prev j) as [p |] eqn:E.
      * right. right. exists p. split; [reflexivity |].
        rewrite (nth_error_nth _ _ _ E) in Hne. exact Hne.
      * right. left. apply nth_error_None in E. exact E.
  - intros [Hf | [Hlen | (p & Hp & Hne)]].
    + left. left. exact Hf.
    + left. right. apply Z.geb_le. lia.
    + right. rewrite (nth_error_nth _ _ _ Hp). exact Hne.
Qed.

Lemma diff_fold (prev : list str) (force : bool) (l : list (Z * str)) (buf : str) (ch : bool) :
  fold_left (diff_step prev force) l (buf, ch)
  = (buf ++ List.concat (List.map emit_row
             (filter (fun e => row_changed prev force (fst e) (snd e)) l)),
     match filter (fun e => row_changed prev force (fst e) (snd e)) l with
     | [] => ch
     | _ :: _ => true
     end).
Proof.
  revert buf ch. induction l as [| [i line] l IH]; intros buf ch; cbn [fold_left filter fst snd].
  - cbn. rewrite app_nil_r. reflexivity.
  - unfold diff_step at 2. destruct (row_changed prev force i line) eqn:E.
    + rewrite IH. cbn [List.map List.concat]. unfold emit_row at 2. cbn [fst snd].
      rewrite <- !app_assoc.
      destruct (filter _ l); reflexivity.
    + apply IH.
Qed.

Lemma write_diff_changed_rows (out : list OutEvent) (prev cur : list str) (force : bool) :
  _write_diff out prev cur force =
  match changed_rows prev cur force with
  | [] => out
  | rows =>
      out ++ [Write (_SYNC_START ++ List.concat (List.map emit_row rows) ++ _SYNC_END);
              Flush]
  end.
Proof.
  unfold _write_diff, changed_rows. rewrite diff_fold.
  destruct (filter _ (enumerate cur)); [reflexivity |].
  rewrite <- app_assoc. reflexivity.
Qed.

Lemma changed_rows_self (cur : list str) : changed_rows cur cur false = [].
Proof.
  unfold changed_rows.
  assert (forall e, In e (enumerate cur) ->
            row_changed cur false (fst e) (snd e) = false) as Hall.
  { intros [i line] Hin. apply In_enumerate in Hin. destruct Hin as (j & -> & Hj).
    cbn [fst snd]. destruct (row_changed cur false (Z.of_nat j) line) eqn:E; [| reflexivity].
    apply row_changed_iff in E. destruct E as [E | [E | (p & Hp & Hne)]].
    - discriminate.
    - apply nth_error_None in E. congruence.
    - congruence. }
  induction (enumerate cur) as [| e l IH]; [reflexivity |].
  cbn [filter]. rewrite (Hall e (or_introl eq_refl)).
  apply IH. intros e' He'. apply Hall. right. exact He'.
Qed.

Lemma changed_rows_force (prev cur : list str) : changed_rows prev cur true = enumerate cur.
Proof.
  unfold changed_rows. induction (enumerate cur) as [| e l IH]; [reflexivity |].
  cbn [filter]. unfold row_changed at 1. cbn [orb]. rewrite IH. reflexivity.
Qed.

(** C2.  [_write_diff] emits a row of the current frame exactly when
    the force flag is set, or the previous frame has no row at that
    index, or its row there differs; an emitted row is a cursor-position
    instruction for it followed by its content, all of them between the
    two synchronisation markers in one write followed by one flush.  A
    frame diffed against itself without the flag leaves the stream
    untouched (no write, no flush); with the flag every row is emitted. *)
Theorem write_diff_exact (out : list OutEvent) (prev cur : list str) (force : bool) :
  _write_diff out prev cur force =
    match changed_rows prev cur force with
    | [] => out
    | rows =>
        out ++ [Write (_SYNC_START
                       ++ List.concat (List.map (fun e => _move (fst e + 1) 1 ++ snd e) rows)
                       ++ _SYNC_END);
                Flush]
    end
  /\ (forall i line,
        In (i, line) (changed_rows prev cur force) <->
        exists j, i = Z.of_nat j /\ nth_error cur j = Some line /\
          (force = true \/ (List.length prev <= j)%nat \/
           exists p, nth_error prev j = Some p /\ p <> line))
  /\ _write_diff out cur cur false = out
  /\ changed_rows prev cur true = enumerate cur.
Proof.
  split; [apply write_diff_changed_rows |]. split; [| split].
  - intros i line. unfold changed_rows. rewrite filter_In, In_enumerate. cbn [fst snd].
    split.
    + intros ((j & -> & Hj) & Hch). exists j. split; [reflexivity |]. split; [exact Hj |].
      apply row_changed_iff. exact Hch.
    + intros (j & -> & Hj & Hch). split.
      * exists j. split; [reflexivity | exact Hj].
      * apply row_changed_iff. exact Hch.
  - rewrite write_diff_changed_rows, changed_rows_self. reflexivity.
  - apply changed_rows_force.
Qed.

Example write_diff_one_row :
  _write_diff [] [lit "a"; lit "b"; lit "c"] [lit "a"; lit "X"; lit "c"; lit "d"] false
  = [Write (_SYNC_START ++ _move 2 1 ++ lit "X" ++ _move 4 1 ++ lit "d" ++ _SYNC_END); Flush].
Proof. reflexivity. Qed.

(** ** The frame builders *)

Lemma length_range (n : Z) : List.length (range n) = Z.to_nat n.
Proof. unfold range. rewrite length_map, length_seq. reflexivity. Qed.

Lemma nth_error_range (n : Z) (j : nat) :
  (j < Z.to_nat n)%nat -> nth_error (range n) j = Some (Z.of_nat j).
Proof.
  intros Hj. unfold range. rewrite nth_error_map.
  rewrite (nth_error_nth' _ 0%nat) by (rewrite length_seq; exact Hj).
  rewrite seq_nth by exact Hj. reflexivity.
Qed.

Lemma length_pad_rows (rows : list str) (h : Z) :
  len (pad_rows rows h) = Z.max h (len rows).
Proof.
  unfold pad_rows, len. rewrite length_app, repeat_length. unfold len. lia.
Qed.

Lemma ends_with_EL_blank : ends_with_EL _EL.
Proof. exists []. reflexivity. Qed.

Lemma ends_with_EL_app (a b : str) : ends_with_EL b -> ends_with_EL (a ++ b).
Proof. intros (c & ->). exists (a ++ c). rewrite app_assoc. reflexivity. Qed.

Ltac ends_EL :=
  repeat first [exact ends_with_EL_blank | apply ends_with_EL_app].

Lemma ends_with_EL_active (t : str) (w : Z) : ends_with_EL (_active t w).
Proof. unfold _active. ends_EL. Qed.

Lemma ends_with_EL_styled (t : str) (dist : Z) : ends_with_EL (_styled_line t dist).
Proof.
  unfold _styled_line.
  assert (Z.to_nat (Z.min (Z.max 0 (dist - 1)) (len _GRAD - 1)) < 6)%nat as Hlt.
  { change (len _GRAD) with 6. lia. }
  destruct (Z.to_nat (Z.min (Z.max 0 (dist - 1)) (len _GRAD - 1))) as [| [| [| [| [| [| n]]]]]];
    try lia; cbn [nth _GRAD]; ends_EL.
Qed.

Lemma ends_with_EL_lyric_row (lines : list LyricLine) (active_idx w start_idx row : Z) :
  ends_with_EL (lyric_row lines active_idx w start_idx row).
Proof.
  unfold lyric_row.
  destruct (_ || _); [apply ends_with_EL_blank |].
  destruct (_ =? 0); [apply ends_with_EL_active | apply ends_with_EL_styled].
Qed.

Lemma ends_with_EL_status_row (message : str) (w mid i : Z) :
  ends_with_EL (status_row message w mid i).
Proof.
  unfold status_row.
  destruct (i =? mid); ends_EL.
Qed.

Lemma Forall_pad_rows (P : str -> Prop) (rows : list str) (h : Z) :
  P _EL -> Forall P rows -> Forall P (pad_rows rows h).
Proof.
  intros HEL Hrows. unfold pad_rows. apply Forall_app. split; [exact Hrows |].
  apply Forall_forall. intros x Hx. apply repeat_spec in Hx. subst x. exact HEL.
Qed.

Lemma build_frame_rows (lines : list LyricLine) (active_idx : Z) (now : NowPlaying) (w h : Z) :
  exists header,
    ends_with_EL header /\
    _build_frame lines active_idx now w h
    = pad_rows ([header; _EL]
                ++ List.map (lyric_row lines active_idx w (active_idx - (h - 3) / 2))
                            (range (h - 3))) h.
Proof.
  eexists. split; [| unfold _build_frame; reflexivity].
  ends_EL.
Qed.

Lemma build_status_rows (message : str) (now : option NowPlaying) (w h : Z) :
  exists header,
    ends_with_EL header /\
    _build_status message now w h
    = pad_rows ([header; _EL]
                ++ List.map (status_row message w ((h - 3) / 2)) (range (h - 3))) h.
Proof.
  eexists. split; [| unfold _build_status; reflexivity].
  ends_EL.
Qed.

Lemma layout_length {A} (f : Z -> A) (x y : A) (h : Z) :
  len ([x; y] ++ List.map f (range (h - 3))) = 2 + Z.max 0 (h - 3).
Proof.
  unfold len. rewrite length_app, length_map, length_range. cbn [List.length]. lia.
Qed.

(** Every row of either frame carries the erase-to-end-of-line marker,
    and a frame has [h] rows unless [h] is below the two fixed rows. *)
Lemma build_frame_shape (lines : list LyricLine) (active_idx : Z) (now : NowPlaying) (w h : Z) :
  len (_build_frame lines active_idx now w h) = Z.max 2 h /\
  Forall ends_with_EL (_build_frame lines active_idx now w h).
Proof.
  destruct (build_frame_rows lines active_idx now w h) as (header & Hh & ->).
  split.
  - rewrite length_pad_rows, layout_length. lia.
  - apply Forall_pad_rows; [apply ends_with_EL_blank |].
    apply Forall_app. split.
    + repeat constructor; [exact Hh | apply ends_with_EL_blank].
    + apply Forall_forall. intros x Hx. apply in_map_iff in Hx.
      destruct Hx as (r & <- & _). apply ends_with_EL_lyric_row.
Qed.

Lemma build_status_shape (message : str) (now : option NowPlaying) (w h : Z) :
  len (_build_status message now w h) = Z.max 2 h /\
  Forall ends_with_EL (_build_status message now w h).
Proof.
  destruct (build_status_rows message now w h) as (header & Hh & ->).
  split.
  - rewrite length_pad_rows, layout_length. lia.
  - apply Forall_pad_rows; [apply ends_with_EL_blank |].
    apply Forall_app. split.
    + repeat constructor; [exact Hh | apply ends_with_EL_blank].
    + apply Forall_forall. intros x Hx. apply in_map_iff in Hx.
      destruct Hx as (r & <- & _). apply ends_with_EL_status_row.
Qed.

Lemma firstn_layout {A} (f : Z -> A) (x y : A) (h : Z) (pad : list A) :
  firstn (2 + Z.to_nat (h - 3)) (([x; y] ++ List.map f (range (h - 3))) ++ pad)
  = [x; y] ++ List.map f (range (h - 3)).
Proof.
  rewrite firstn_app.
  replace (2 + Z.to_nat (h - 3) - List.length ([x; y] ++ List.map f (range (h - 3))))%nat
    with 0%nat
    by (rewrite length_app, length_map, length_range; cbn [List.length]; lia).
  rewrite firstn_all2
    by (rewrite length_app, length_map, length_range; cbn [List.length]; lia).
  cbn [firstn]. apply app_nil_r.
Qed.

Lemma build_frame_padding (lines : list LyricLine) (active_idx : Z) (now : NowPlaying) (w h : Z) :
  _build_frame lines active_idx now w h
  = frame_layout lines active_idx now w h
    ++ List.repeat _EL (Z.to_nat (h - len (frame_layout lines active_idx now w h))).
Proof.
  unfold frame_layout.
  destruct (build_frame_rows lines active_idx now w h) as (header & _ & ->).
  unfold pad_rows at 2 3. rewrite !firstn_layout. reflexivity.
Qed.

Lemma build_status_padding (message : str) (now : option NowPlaying) (w h : Z) :
  _build_status message now w h
  = status_layout message now w h
    ++ List.repeat _EL (Z.to_nat (h - len (status_layout message now w h))).
Proof.
  unfold status_layout.
  destruct (build_status_rows message now w h) as (header & _ & ->).
  unfold pad_rows at 2 3. rewrite !firstn_layout. reflexivity.
Qed.

(** C8, amended.  With at least two terminal rows both builders return
    exactly [h] rows, each ending in the erase-to-end-of-line marker,
    and what the layout leaves short of [h] is filled with rows that
    are that marker alone. *)
Theorem frames_have_h_rows (lines : list LyricLine) (active_idx : Z) (info : NowPlaying)
    (message : str) (now : option NowPlaying) (w h : Z) :
  2 <= h ->
  (len (_build_frame lines active_idx info w h) = h /\
   Forall ends_with_EL (_build_frame lines active_idx info w h) /\
   _build_frame lines active_idx info w h
   = frame_layout lines active_idx info w h
     ++ List.repeat _EL (Z.to_nat (h - len (frame_layout lines active_idx info w h)))) /\
  (len (_build_status message now w h) = h /\
   Forall ends_with_EL (_build_status message now w h) /\
   _build_status message now w h
   = status_layout message now w h
     ++ List.repeat _EL (Z.to_nat (h - len (status_layout message now w h)))).
Proof.
  intros Hh.
  destruct (build_frame_shape lines active_idx info w h) as (Hlen & Hel).
  destruct (build_status_shape message now w h) as (Hlen' & Hel').
  repeat split; try assumption; try lia.
  - apply build_frame_padding.
  - apply build_status_padding.
Qed.

Lemma frames_have_h_rows_witness :
  2 <= 8 /\
  len (_build_frame ex_lines 1 ex_now 30 8) = 8 /\
  len (_build_status (lit "No synced lyrics found.") (Some ex_now) 30 8) = 8.
Proof.
  assert (2 <= 8) as H by lia.
  split; [exact H |].
  pose proof (frames_have_h_rows ex_lines 1 ex_now
                (lit "No synced lyrics found.") (Some ex_now) 30 8 H) as (Hf & Hs).
  split; [exact (proj1 Hf) | exact (proj1 Hs)].
Defined.

(** C8 as stated fails on a terminal of one row: the header and the
    blank row under it are always there, so the frames have two rows. *)
Lemma one_row_terminal_gets_two_rows :
  0 < 1 /\ 0 < 80 /\
  len (_build_frame ex_lines 1 ex_now 80 1) = 2 /\
  len (_build_status (lit "No media player detected.") None 80 1) = 2 /\
  len (_build_frame ex_lines 1 ex_now 80 1) <> 1 /\
  len (_build_status (lit "No media player detected.") None 80 1) <> 1.
Proof. repeat split; try lia; vm_compute; discriminate. Qed.

Lemma geb_lt (a b : Z) : a < b -> (a >=? b) = false.
Proof. intros H. rewrite Z.geb_leb. apply Z.leb_gt. exact H. Qed.

Lemma geb_lt_inv (a b : Z) : (a >=? b) = false -> a < b.
Proof. rewrite Z.geb_leb. apply Z.leb_gt. Qed.

Lemma build_frame_window (lines : list LyricLine) (active_idx : Z) (now : NowPlaying)
    (w h : Z) (row : nat) :
  (row < Z.to_nat (h - 3))%nat ->
  nth_error (_build_frame lines active_idx now w h) (2 + row)
  = Some (lyric_row lines active_idx w (active_idx - (h - 3) / 2) (Z.of_nat row)).
Proof.
  intros Hrow.
  destruct (build_frame_rows lines active_idx now w h) as (header & _ & ->).
  unfold pad_rows. rewrite nth_error_app1
    by (rewrite length_app, length_map, length_range; cbn [List.length]; lia).
  cbn [app nth_error Nat.add]. rewrite nth_error_map, nth_error_range by exact Hrow.
  reflexivity.
Qed.

(** C7.  In a lyric frame with a window of [available = h - 3 >= 1]
    rows, the window row at offset [available // 2] is the one of the
    active index, whatever the number of lines before and after it, and
    it is the highlighted row of the active line; a window row whose
    line index falls before 0 or past the end is the erase marker
    alone, and every other window row is a gradient-styled line, not
    the highlight. *)
Theorem active_line_centred (lines : list LyricLine) (active_idx : Z) (now : NowPlaying)
    (w h : Z) :
  1 <= h - 3 ->
  let available := h - 3 in
  let half := available / 2 in
  let frame := _build_frame lines active_idx now w h in
  0 <= half < available /\
  (0 <= active_idx < len lines ->
   exists l, nth_error lines (Z.to_nat active_idx) = Some l /\
     nth_error frame (Z.to_nat (2 + half)) = Some (_active (text l) w)) /\
  (forall row, 0 <= row < available ->
     let lyric_idx := active_idx - half + row in
     (lyric_idx = active_idx <-> row = half) /\
     (lyric_idx < 0 \/ len lines <= lyric_idx ->
        nth_error frame (Z.to_nat (2 + row)) = Some _EL) /\
     (0 <= lyric_idx < len lines -> row <> half ->
        exists l, nth_error lines (Z.to_nat lyric_idx) = Some l /\
          nth_error frame (Z.to_nat (2 + row))
          = Some (_styled_line (_center (text l) w) (Z.abs (row - half))))).
Proof.
  intros Hav available half frame.
  assert (0 <= half < available) as Hhalf.
  { subst half available. split.
    - apply Z.div_pos; lia.
    - apply Z.div_lt_upper_bound; lia. }
  assert (forall row, 0 <= row < available ->
            nth_error frame (Z.to_nat (2 + row))
            = Some (lyric_row lines active_idx w (active_idx - half) row)) as Hwin.
  { intros row Hrow. subst frame half available.
    replace (Z.to_nat (2 + row)) with (2 + Z.to_nat row)%nat by lia.
    rewrite build_frame_window by lia. rewrite Z2Nat.id by lia. reflexivity. }
  split; [exact Hhalf |]. split.
  - intros Hidx.
    destruct (py_index_in_range lines active_idx Hidx) as (l & _ & Hl).
    exists l. split; [exact Hl |].
    rewrite Hwin by exact Hhalf. unfold lyric_row.
    replace (active_idx - half + half) with active_idx by lia.
    replace (active_idx <? 0) with false by (symmetry; apply Z.ltb_ge; lia).
    replace (active_idx >=? len lines) with false by (symmetry; apply geb_lt; lia).
    cbn [orb]. rewrite Z.sub_diag. cbn [Z.abs Z.eqb].
    rewrite (nth_error_nth _ _ _ Hl). reflexivity.
  - intros row Hrow lyric_idx. rewrite Hwin by exact Hrow. unfold lyric_row.
    fold lyric_idx. split; [subst lyric_idx; lia |]. split.
    + intros [Hneg | Hpast].
      * replace (lyric_idx <? 0) with true by (symmetry; apply Z.ltb_lt; lia).
        reflexivity.
      * replace (lyric_idx >=? len lines) with true by (symmetry; apply Z.geb_le; lia).
        rewrite orb_true_r. reflexivity.
    + intros Hin Hne.
      destruct (py_index_in_range lines lyric_idx Hin) as (l & _ & Hl).
      exists l. split; [exact Hl |].
      replace (lyric_idx <? 0) with false by (symmetry; apply Z.ltb_ge; lia).
      replace (lyric_idx >=? len lines) with false by (symmetry; apply geb_lt; lia).
      cbn [orb].
      replace (lyric_idx - active_idx) with (row - half) by (subst lyric_idx; lia).
      replace (Z.abs (row - half) =? 0) with false by (symmetry; apply Z.eqb_neq; lia).
      rewrite (nth_error_nth _ _ _ Hl). reflexivity.
Qed.

Lemma active_line_centred_witness :
  1 <= 8 - 3 /\ 0 <= 1 < len ex_lines /\
  nth_error (_build_frame ex_lines 1 ex_now 30 8) 4 = Some (_active (lit "b") 30).
Proof.
  assert (1 <= 8 - 3) as H1 by lia.
  assert (0 <= 1 < len ex_lines) as H2 by (unfold len, ex_lines; cbn; lia).
  split; [exact H1 |]. split; [exact H2 |].
  destruct (active_line_centred ex_lines 1 ex_now 30 8 H1) as (_ & Hact & _).
  destruct (Hact H2) as (l & Hl & Hrow).
  cbn in Hl. injection Hl as <-. exact Hrow.
Defined.

(** ** Visible width *)

Lemma visible_plain_app (s rest : str) :
  plain s -> visible (s ++ rest) = s ++ visible rest.
Proof.
  unfold visible. induction 1 as [| c s Hc Hs IH]; [reflexivity |].
  cbn [app visible_from]. apply N.eqb_neq in Hc. rewrite Hc, IH. reflexivity.
Qed.

Lemma plain_app (a b : str) : plain a -> plain b -> plain (a ++ b).
Proof. intros Ha Hb. apply Forall_app. split; assumption. Qed.

Lemma plain_firstn (n : nat) (s : str) : plain s -> plain (firstn n s).
Proof.
  intros H. revert n. induction H as [| c s Hc Hs IH]; intros [| n]; cbn; constructor.
  - exact Hc.
  - apply IH.
Qed.

Lemma plain_spaces (n : Z) : plain (spaces n).
Proof.
  unfold spaces, str_mul. induction (Z.to_nat n) as [| k IH]; cbn.
  - constructor.
  - constructor; [discriminate | exact IH].
Qed.

Lemma length_spaces (n : Z) : len (spaces n) = Z.max 0 n.
Proof.
  unfold spaces, str_mul, len.
  assert (forall k, List.length (List.concat (List.repeat (lit " ") k)) = k) as H.
  { induction k as [| k IH]; cbn; [reflexivity | cbn in IH; rewrite IH; reflexivity]. }
  rewrite H. lia.
Qed.

Lemma plain_slice_to (s : str) (n : Z) : plain s -> plain (slice_to s n).
Proof. intros H. unfold slice_to. destruct (n <? 0); apply plain_firstn; exact H. Qed.

Lemma plain__center (t : str) (w : Z) : plain t -> plain (_center t w).
Proof.
  intros H. unfold _center. destruct (len t >=? w).
  - apply plain_slice_to. exact H.
  - apply plain_app; [apply plain_spaces | exact H].
Qed.

Lemma plain_center (t : str) (w : Z) : plain t -> plain (center t w).
Proof.
  intros H. unfold center. destruct (_ <=? 0); [exact H |].
  repeat apply plain_app; try apply plain_spaces. exact H.
Qed.

(** [_center] never exceeds the width, and cuts a longer text to it. *)
Lemma length__center (t : str) (w : Z) :
  0 <= w ->
  len (_center t w) <= w /\ (w <= len t -> _center t w = firstn (Z.to_nat w) t).
Proof.
  intros Hw. unfold _center, slice_to.
  replace (w <? 0) with false by (symmetry; apply Z.ltb_ge; lia).
  destruct (len t >=? w) eqn:E.
  - apply Z.geb_le in E. split; [| reflexivity].
    unfold len in *. rewrite length_firstn. lia.
  - apply geb_lt_inv in E. split; [| lia].
    rewrite len_app, length_spaces.
    assert ((w - len t) / 2 <= w - len t) by (apply Z.div_le_upper_bound; lia).
    assert (0 <= (w - len t) / 2) by (apply Z.div_pos; lia).
    lia.
Qed.

Lemma visible_tail : visible (_RESET ++ _EL) = [].
Proof. reflexivity. Qed.

Lemma visible_styled (t : str) (dist : Z) :
  plain t -> visible (_styled_line t dist) = t.
Proof.
  intros Ht. unfold _styled_line.
  assert (Z.to_nat (Z.min (Z.max 0 (dist - 1)) (len _GRAD - 1)) < 6)%nat as Hlt.
  { change (len _GRAD) with 6. lia. }
  destruct (Z.to_nat (Z.min (Z.max 0 (dist - 1)) (len _GRAD - 1))) as [| [| [| [| [| [| n]]]]]];
    try lia; cbn [nth _GRAD].
  - change (visible (_BOLD ++ _FG_WHITE ++ t ++ _RESET ++ _EL))
      with (visible (t ++ _RESET ++ _EL)).
    rewrite visible_plain_app, visible_tail by exact Ht. apply app_nil_r.
  - change (visible (_FG_WHITE ++ t ++ _RESET ++ _EL)) with (visible (t ++ _RESET ++ _EL)).
    rewrite visible_plain_app, visible_tail by exact Ht. apply app_nil_r.
  - change (visible (_FG_CYAN ++ t ++ _RESET ++ _EL)) with (visible (t ++ _RESET ++ _EL)).
    rewrite visible_plain_app, visible_tail by exact Ht. apply app_nil_r.
  - change (visible (_FG_BLUE ++ t ++ _RESET ++ _EL)) with (visible (t ++ _RESET ++ _EL)).
    rewrite visible_plain_app, visible_tail by exact Ht. apply app_nil_r.
  - change (visible (_FG_BR_BLACK ++ t ++ _RESET ++ _EL))
      with (visible (t ++ _RESET ++ _EL)).
    rewrite visible_plain_app, visible_tail by exact Ht. apply app_nil_r.
  - change (visible (_DIM ++ _FG_BR_BLACK ++ t ++ _RESET ++ _EL))
      with (visible (t ++ _RESET ++ _EL)).
    rewrite visible_plain_app, visible_tail by exact Ht. apply app_nil_r.
Qed.

Lemma visible_dimmed (t : str) :
  plain t -> visible (_FG_BR_BLACK ++ t ++ _RESET ++ _EL) = t.
Proof.
  intros Ht.
  change (visible (_FG_BR_BLACK ++ t ++ _RESET ++ _EL)) with (visible (t ++ _RESET ++ _EL)).
  rewrite visible_plain_app, visible_tail by exact Ht. apply app_nil_r.
Qed.

Lemma visible_active (t : str) (w : Z) :
  plain t -> visible (_active t w) = center t w.
Proof.
  intros Ht. unfold _active.
  change (visible (_BOLD ++ _BG_BLUE ++ _FG_BR_WHITE ++ center t w ++ _RESET ++ _EL))
    with (visible (center t w ++ _RESET ++ _EL)).
  rewrite visible_plain_app, visible_tail by (apply plain_center; exact Ht).
  apply app_nil_r.
Qed.

(** [str.center] fills the width when the text fits. *)
Lemma length_center (t : str) (w : Z) : len t <= w -> len (center t w) = w.
Proof.
  intros Hfit. unfold center.
  destruct (w - len t <=? 0) eqn:E.
  - apply Z.leb_le in E. lia.
  - apply Z.leb_gt in E.
    set (marg := w - len t) in *.
    assert (0 <= Z.land (Z.land marg w) 1 <= 1) as Hbit.
    { pose proof (Z.land_ones (Z.land marg w) 1 ltac:(lia)) as Hl.
      change (Z.ones 1) with 1 in Hl. change (2 ^ 1) with 2 in Hl. rewrite Hl.
      pose proof (Z.mod_pos_bound (Z.land marg w) 2 ltac:(lia)). lia. }
    assert (marg = 1 \/ 2 <= marg) as [H1 | H2] by lia.
    + assert (marg / 2 = 0) as Hd by (rewrite H1; reflexivity).
      rewrite !len_app, !length_spaces. lia.
    + assert (0 <= marg / 2) by (apply Z.div_pos; lia).
      assert (marg / 2 + 1 <= marg).
      { assert (marg / 2 <= marg - 1); [| lia].
        apply Z.div_le_upper_bound; lia. }
      rewrite !len_app, !length_spaces. lia.
Qed.

Ltac plain_const :=
  unfold plain; cbn; repeat (apply Forall_cons; [discriminate |]); apply Forall_nil.

Lemma plain_uint (d : Decimal.uint) : plain (lit (NilEmpty.string_of_uint d)).
Proof. induction d; cbn; constructor; try discriminate; assumption. Qed.

Lemma plain_str_of_int (n : Z) : plain (str_of_int n).
Proof.
  unfold str_of_int, NilZero.string_of_int, NilZero.string_of_uint.
  destruct (Z.to_int n) as [d | d].
  - destruct d; try apply plain_uint. cbn. repeat constructor. discriminate.
  - change (plain (45%N :: lit (match d with
                                | Decimal.Nil => "0"%string
                                | _ => NilEmpty.string_of_uint d
                                end))).
    constructor; [discriminate |].
    destruct d; try apply plain_uint. cbn. repeat constructor. discriminate.
Qed.

Lemma plain_repeat (c : char) (n : nat) : c <> 27%N -> plain (List.repeat c n).
Proof. intros Hc. induction n; cbn; constructor; assumption. Qed.

Lemma plain_format_time (q : Q) : plain (_format_time q).
Proof.
  unfold _format_time, fmt_02d.
  repeat apply plain_app; try apply plain_str_of_int.
  - plain_const.
  - apply plain_repeat. discriminate.
Qed.

Lemma plain_header (now : NowPlaying) :
  plain (title now) -> plain (artist now) -> plain (header_plain now).
Proof.
  intros Ht Ha. unfold header_plain, dur_str, em_dash.
  destruct (negb (Qle_bool (duration_s now) 0));
    repeat apply plain_app;
    first [ assumption | apply plain_str_of_int
          | apply plain_repeat; discriminate | plain_const ].
Qed.

Lemma visible_blank : visible _EL = [].
Proof. reflexivity. Qed.

Lemma visible_status_row (message : str) (w mid i : Z) :
  0 <= w -> plain message -> len (visible (status_row message w mid i)) <= w.
Proof.
  intros Hw Hm. unfold status_row. destruct (i =? mid).
  - rewrite visible_dimmed by (apply plain__center; exact Hm).
    apply length__center. exact Hw.
  - rewrite visible_blank. cbn. exact Hw.
Qed.

Lemma plain_nth (lines : list LyricLine) (i : nat) :
  Forall (fun l => plain (text l)) lines -> plain (text (nth i lines placeholder)).
Proof.
  intros H. destruct (nth_in_or_default i lines placeholder) as [Hin | ->].
  - revert Hin. generalize (nth i lines placeholder). apply Forall_forall. exact H.
  - constructor.
Qed.

(** The header row of a lyric frame shows its text behind the padding:
    the styling sequences between the fields take no room. *)
Lemma visible_header (now : NowPlaying) (pad : Z) :
  plain (title now) -> plain (artist now) ->
  visible (spaces pad
           ++ (_BOLD ++ _FG_MAGENTA ++ title now ++ _RESET)
           ++ (_FG_BR_BLACK ++ lit " " ++ em_dash ++ lit " " ++ _RESET)
           ++ (_FG_CYAN ++ artist now ++ _RESET)
           ++ (_FG_YELLOW ++ lit "  " ++ _format_time (position_s now) ++ lit " / "
               ++ dur_str now ++ _RESET ++ _EL))
  = spaces pad ++ header_plain now.
Proof.
  intros Ht Ha.
  assert (plain (dur_str now)) as Hd.
  { unfold dur_str. destruct (negb _); [apply plain_format_time | plain_const]. }
  rewrite <- !app_assoc.
  rewrite visible_plain_app by apply plain_spaces. f_equal.
  change (visible (_BOLD ++ _FG_MAGENTA ++ title now ++ ?r)) with (visible (title now ++ r)).
  rewrite visible_plain_app by exact Ht. unfold header_plain. f_equal.
  change (visible (_RESET ++ _FG_BR_BLACK ++ lit " " ++ em_dash ++ lit " " ++ _RESET
                   ++ _FG_CYAN ++ artist now ++ ?r))
    with (lit " " ++ em_dash ++ lit " " ++ visible (artist now ++ r)).
  do 3 f_equal.
  rewrite visible_plain_app by exact Ha. f_equal.
  change (visible (_RESET ++ _FG_YELLOW ++ lit "  " ++ ?r)) with (lit "  " ++ visible r).
  f_equal.
  rewrite visible_plain_app by apply plain_format_time. f_equal.
  change (visible (lit " / " ++ ?r)) with (lit " / " ++ visible r). f_equal.
  rewrite visible_plain_app by exact Hd.
  change (visible (_RESET ++ _EL)) with (@nil char). apply app_nil_r.
Qed.

Lemma build_frame_header (lines : list LyricLine) (active_idx : Z) (now : NowPlaying)
    (w h : Z) :
  plain (title now) -> plain (artist now) ->
  exists header,
    visible header = spaces (Z.max 0 ((w - len (header_plain now)) / 2)) ++ header_plain now /\
    _build_frame lines active_idx now w h
    = pad_rows ([header; _EL]
                ++ List.map (lyric_row lines active_idx w (active_idx - (h - 3) / 2))
                            (range (h - 3))) h.
Proof.
  intros Ht Ha. eexists. split; [| unfold _build_frame; reflexivity].
  apply visible_header; assumption.
Qed.

(** A header that fits is padded to at most the width. *)
Lemma length_header (t : str) (w : Z) :
  len t <= w -> len (spaces (Z.max 0 ((w - len t) / 2)) ++ t) <= w.
Proof.
  intros Hfit. rewrite len_app, length_spaces.
  assert ((w - len t) / 2 <= w - len t) by (apply Z.div_le_upper_bound; lia).
  assert (0 <= (w - len t) / 2) by (apply Z.div_pos; lia).
  lia.
Qed.

(** A window row fits the width unless it is the highlighted active
    line and the text of that line is longer than the width. *)
Lemma visible_lyric_row (lines : list LyricLine) (active_idx w start_idx row : Z) :
  0 <= w -> Forall (fun l => plain (text l)) lines ->
  len (visible (lyric_row lines active_idx w start_idx row)) <= w \/
  (start_idx + row = active_idx /\ 0 <= active_idx /\
   exists l, nth_error lines (Z.to_nat active_idx) = Some l /\
     lyric_row lines active_idx w start_idx row = _active (text l) w /\
     w < len (text l)).
Proof.
  intros Hw Hl. unfold lyric_row.
  destruct ((start_idx + row <? 0) || (start_idx + row >=? len lines)) eqn:Hout.
  - left. rewrite visible_blank. cbn. exact Hw.
  - apply orb_false_iff in Hout. destruct Hout as [Hlo Hhi].
    apply Z.ltb_ge in Hlo. apply geb_lt_inv in Hhi.
    destruct (Z.abs (start_idx + row - active_idx) =? 0) eqn:E.
    + apply Z.eqb_eq in E. assert (start_idx + row = active_idx) as Hact by lia.
      rewrite Hact in *.
      set (l := nth (Z.to_nat active_idx) lines placeholder).
      assert (plain (text l)) as Hp by (apply plain_nth; exact Hl).
      destruct (Z_le_gt_dec (len (text l)) w) as [Hfit | Hlong].
      * left. rewrite visible_active by exact Hp.
        rewrite length_center by exact Hfit. lia.
      * right. split; [reflexivity |]. split; [exact Hlo |].
        exists l. split; [| split; [reflexivity | lia]].
        apply nth_error_nth'. unfold len in Hhi. lia.
    + left. rewrite visible_styled by (apply plain__center, plain_nth; exact Hl).
      apply length__center. exact Hw.
Qed.

(** C9, amended.  With texts free of escape characters, every row of a
    status frame shows at most [w] characters, and so does every row of
    a lyric frame, the blank ones included, with two exceptions: the
    header row when the header text is longer than [w], and the
    highlighted row (the row [_active] built for the active line, at
    the centre of the window) when the text of the active line is
    longer than [w].  [_center] cuts a text longer than the width to the width
    and pads a shorter one on the left only, the erase marker clearing
    the rest of the row; the highlighted row shows exactly [w]
    characters when its text fits. *)
Theorem rows_fit_width (w h : Z) :
  0 <= w ->
  (forall message now,
      plain message ->
      match now with Some n => plain (title n) /\ plain (artist n) | None => True end ->
      Forall (fun row => len (visible row) <= w) (_build_status message now w h)) /\
  (forall lines active_idx now j row,
      Forall (fun l => plain (text l)) lines ->
      plain (title now) -> plain (artist now) ->
      nth_error (_build_frame lines active_idx now w h) j = Some row ->
      len (visible row) <= w \/
      (j = 0%nat /\ w < len (header_plain now)) \/
      (Z.of_nat j = 2 + (h - 3) / 2 /\ 0 <= active_idx /\
       exists l, nth_error lines (Z.to_nat active_idx) = Some l /\
         row = _active (text l) w /\ w < len (text l))) /\
  (forall t dist, plain t -> w <= len t ->
      visible (_styled_line (_center t w) dist) = firstn (Z.to_nat w) t) /\
  (forall t, plain t -> w <= len t ->
      visible (_FG_BR_BLACK ++ _center t w ++ _RESET ++ _EL) = firstn (Z.to_nat w) t) /\
  (forall t, plain t -> len t <= w -> len (visible (_active t w)) = w).
Proof.
  intros Hw. repeat split.
  - intros message now Hm Hnow. unfold _build_status.
    apply Forall_pad_rows; [rewrite visible_blank; cbn; exact Hw |].
    apply Forall_app. split.
    + assert (plain (match now with Some n => header_plain n | None => lit "pylyrics" end))
        as Hh.
      { destruct now as [n |]; [apply plain_header; tauto | plain_const]. }
      repeat constructor.
      * rewrite visible_dimmed by (apply plain__center; exact Hh).
        apply length__center. exact Hw.
      * rewrite visible_blank. cbn. exact Hw.
    + apply Forall_forall. intros x Hx. apply in_map_iff in Hx.
      destruct Hx as (r & <- & _). apply visible_status_row; assumption.
  - intros lines active_idx now j row Hl Ht Ha Hrow.
    destruct (build_frame_header lines active_idx now w h Ht Ha) as (header & Hvis & E).
    rewrite E in Hrow. unfold pad_rows in Hrow.
    destruct j as [| [| j]]; cbn [app nth_error] in Hrow.
    + injection Hrow as <-. rewrite Hvis.
      destruct (Z_le_gt_dec (len (header_plain now)) w) as [Hfit | Hlong].
      * left. apply length_header. exact Hfit.
      * right. left. split; [reflexivity | lia].
    + injection Hrow as <-. left. rewrite visible_blank. cbn. exact Hw.
    + destruct (Nat.lt_ge_cases j (Z.to_nat (h - 3))) as [Hlt | Hge].
      * rewrite nth_error_app1 in Hrow by (rewrite length_map, length_range; exact Hlt).
        rewrite nth_error_map, nth_error_range in Hrow by exact Hlt.
        injection Hrow as <-.
        destruct (visible_lyric_row lines active_idx w (active_idx - (h - 3) / 2)
                    (Z.of_nat j) Hw Hl) as [Hfit | (Hact & Hidx & Hline)].
        -- left. exact Hfit.
        -- right. right. split; [lia |]. split; [exact Hidx | exact Hline].
      * left.
        rewrite nth_error_app2 in Hrow by (rewrite length_map, length_range; exact Hge).
        apply nth_error_In, repeat_spec in Hrow. subst row.
        rewrite visible_blank. cbn. exact Hw.
  - intros t dist Ht Hlong.
    rewrite visible_styled by (apply plain__center; exact Ht).
    apply length__center; assumption.
  - intros t Ht Hlong.
    rewrite visible_dimmed by (apply plain__center; exact Ht).
    apply length__center; assumption.
  - intros t Ht Hfit. rewrite visible_active by exact Ht.
    apply length_center. exact Hfit.
Qed.

Lemma rows_fit_width_witness :
  0 <= 20 /\
  Forall (fun row => len (visible row) <= 20)
         (_build_status (lit "No media player detected.") None 20 6).
Proof.
  assert (0 <= 20) as H by lia.
  split; [exact H |].
  apply (proj1 (rows_fit_width 20 6 H)); [plain_const | exact I].
Defined.

(** C9 as stated fails.  On 20 columns the rows of a status frame show
    14 or 0 characters, not 20: texts are padded on the left only and
    blank rows are the erase marker alone.  On 5 columns the header row
    of a lyric frame shows all 24 characters of its text and the
    highlighted row of a 10-character line all 10 characters: neither
    is cut to the width. *)
Lemma rows_not_columns_wide :
  List.map (fun row => len (visible row)) (_build_status (lit "Fetching") None 20 6)
    = [14; 0; 0; 14; 0; 0] /\
  ~ Forall (fun row => len (visible row) = 20) (_build_status (lit "Fetching") None 20 6) /\
  (exists row, nth_error (_build_frame ex_long_lines 0 ex_now 5 8) 0 = Some row /\
     visible row = header_plain ex_now /\ len (visible row) = 24 /\ 5 < 24) /\
  (exists row, nth_error (_build_frame ex_long_lines 0 ex_now 5 8) 4 = Some row /\
     len (visible row) = 10 /\ 5 < 10).
Proof.
  split; [vm_compute; reflexivity |]. split; [| split].
  - intros H. apply Forall_inv in H. vm_compute in H. discriminate.
  - eexists. split; [reflexivity |]. split; [vm_compute; reflexivity |].
    split; [vm_compute; reflexivity | lia].
  - eexists. split; [reflexivity |]. split; [vm_compute; reflexivity | lia].
Qed.

(** ** The render loop *)

Lemma song_changed_iff (now info : NowPlaying) :
  song_changed now info = true <-> (title now, artist now) <> (title info, artist info).
Proof.
  unfold song_changed. rewrite orb_true_iff, !negb_true_iff, !str_eqb_neq. split.
  - intros [H | H] E; injection E as E1 E2; contradiction.
  - intros H.
    destruct (str_eqb (title now) (title info)) eqn:E1;
      [| left; apply str_eqb_neq; exact E1].
    destruct (str_eqb (artist now) (artist info)) eqn:E2;
      [| right; apply str_eqb_neq; exact E2].
    apply str_eqb_eq in E1, E2. exfalso. apply H. congruence.
Qed.

Lemma song_unchanged_iff (now info : NowPlaying) :
  song_changed now info = false <-> (title now, artist now) = (title info, artist info).
Proof.
  split.
  - intros H. unfold song_changed in H. apply orb_false_iff in H. destruct H as [H1 H2].
    apply negb_false_iff, str_eqb_eq in H1. apply negb_false_iff, str_eqb_eq in H2.
    congruence.
  - intros H. destruct (song_changed now info) eqn:E; [| reflexivity].
    apply song_changed_iff in E. contradiction.
Qed.

Lemma write_diff_extends (out : list OutEvent) (prev cur : list str) (force : bool) :
  exists evs, _write_diff out prev cur force = out ++ evs.
Proof.
  rewrite write_diff_changed_rows. destruct (changed_rows prev cur force).
  - exists []. symmetry. apply app_nil_r.
  - eexists. reflexivity.
Qed.

Lemma extends_refl (wd : World) : extends wd wd.
Proof.
  repeat split; try reflexivity; exists []; symmetry; apply app_nil_r.
Qed.

Lemma extends_trans (a b c : World) : extends a b -> extends b c -> extends a c.
Proof.
  intros (Ha & Hi & Hw & (e1 & He1) & (c1 & Hc1)) (Ha' & Hi' & Hw' & (e2 & He2) & (c2 & Hc2)).
  repeat split; try congruence.
  - exists (e1 ++ e2). rewrite He2, He1, app_assoc. reflexivity.
  - exists (c1 ++ c2). rewrite Hc2, Hc1, app_assoc. reflexivity.
Qed.

Lemma show_frame_extends (frame : list str) (force redraw : bool)
    (st : RenderState) (wd : World) :
  extends wd (fst (show_frame frame force redraw st wd)) /\
  fetch_calls (fst (show_frame frame force redraw st wd)) = fetch_calls wd.
Proof.
  unfold show_frame, extends. cbn.
  repeat split; try reflexivity.
  - apply write_diff_extends.
  - exists []. symmetry. apply app_nil_r.
Qed.

Lemma log_fetch_extends (c : FetchCall) (wd : World) : extends wd (log_fetch c wd).
Proof.
  unfold extends. cbn. repeat split; try reflexivity.
  - exists []. symmetry. apply app_nil_r.
  - exists [c]. reflexivity.
Qed.

Lemma app_neq_self {A} (l : list A) (x : A) : l ++ [x] <> l.
Proof.
  intros H. apply (f_equal (@List.length A)) in H. rewrite length_app in H. cbn in H. lia.
Qed.

Lemma tick_song_changed_eq (env : TickEnv) (now : NowPlaying) (w h : Z)
    (st : RenderState) (wd : World) :
  let frame := _build_status (lit "Fetching lyrics" ++ ellipsis) (Some now) w h in
  tick_song_changed env now w h st wd =
  (log_fetch (mkFetchCall (title now) (artist now) (album now) (duration_s now))
     (with_stdout (fun o => _write_diff o [] frame true) wd),
   match env_fetch env with
   | Raise e => Raise e
   | Ok fetched =>
       Ok {| interrupted := interrupted st; needs_redraw := true;
             current_lines := match fetched with
                              | Some (l :: ls) => Some (l :: ls)
                              | _ => None
                              end;
             current_info := now; previous_idx := -1; prev_frame := frame |}
   end).
Proof.
  unfold tick_song_changed, show_frame. cbn.
  destruct (env_fetch env); reflexivity.
Qed.

Lemma tick_song_changed_extends (env : TickEnv) (now : NowPlaying) (w h : Z)
    (st : RenderState) (wd : World) :
  extends wd (fst (tick_song_changed env now w h st wd)).
Proof.
  rewrite tick_song_changed_eq. cbn [fst].
  eapply extends_trans; [| apply log_fetch_extends].
  apply (show_frame_extends _ true true st wd).
Qed.

Lemma tick_lyrics_extends (lines : list LyricLine) (now : NowPlaying) (w h : Z)
    (st : RenderState) (wd : World) :
  extends wd (fst (tick_lyrics lines now w h st wd)) /\
  fetch_calls (fst (tick_lyrics lines now w h st wd)) = fetch_calls wd.
Proof.
  unfold tick_lyrics.
  destruct (_find_active_line lines (position_s now)) as [active_idx | e];
    [| split; [apply extends_refl | reflexivity]].
  destruct (negb (active_idx =? previous_idx st) || needs_redraw st).
  - apply (show_frame_extends _ _ false).
  - split; [apply extends_refl | reflexivity].
Qed.

Lemma tick_extends (env : TickEnv) (st : RenderState) (wd : World) :
  extends wd (fst (tick env st wd)).
Proof.
  unfold tick. destruct (_term_size (env_size env)) as [w h].
  destruct (env_now env) as [[now |] | e].
  - destruct (song_changed now (current_info (deliver_signals env st))).
    + apply tick_song_changed_extends.
    + destruct (current_lines (deliver_signals env st)) as [lines |].
      * apply tick_lyrics_extends.
      * apply (show_frame_extends _ _ false).
  - apply (show_frame_extends _ _ false).
  - apply extends_refl.
Qed.

Lemma write_diff_force (out : list OutEvent) (prev cur : list str) :
  cur <> [] ->
  _write_diff out prev cur true =
  out ++ [Write (_SYNC_START
                 ++ List.concat (List.map (fun e => _move (fst e + 1) 1 ++ snd e) (enumerate cur))
                 ++ _SYNC_END);
          Flush].
Proof.
  intros Hne. rewrite write_diff_changed_rows, changed_rows_force.
  destruct cur as [| x cur]; [contradiction |].
  unfold enumerate, range, len. rewrite Nat2Z.id. reflexivity.
Qed.

Lemma build_status_nonempty (message : str) (now : option NowPlaying) (w h : Z) :
  _build_status message now w h <> [].
Proof.
  destruct (build_status_rows message now w h) as (header & _ & ->). discriminate.
Qed.

Lemma tick_deliver_info (env : TickEnv) (st : RenderState) :
  current_info (deliver_signals env st) = current_info st.
Proof. reflexivity. Qed.

(** A pass that does not change song leaves the log of fetches and the
    stored identity alone. *)
Lemma tick_same_song (env : TickEnv) (st : RenderState) (wd : World) :
  (forall now, env_now env = Ok (Some now) ->
     song_changed now (current_info st) = false) ->
  fetch_calls (fst (tick env st wd)) = fetch_calls wd /\
  forall st', snd (tick env st wd) = Ok st' -> current_info st' = current_info st.
Proof.
  intros Hsame. unfold tick. destruct (_term_size (env_size env)) as [w h].
  destruct (env_now env) as [[now |] | e].
  - rewrite tick_deliver_info, (Hsame now eq_refl).
    destruct (current_lines (deliver_signals env st)) as [lines |].
    + split; [apply tick_lyrics_extends |].
      unfold tick_lyrics.
      destruct (_find_active_line lines (position_s now)) as [active_idx | e];
        [| discriminate].
      destruct (negb (active_idx =? previous_idx (deliver_signals env st))
                || needs_redraw (deliver_signals env st));
        intros st' E; injection E as <-; reflexivity.
    + split; [reflexivity |]. intros st' E. injection E as <-. reflexivity.
  - split; [reflexivity |]. intros st' E. injection E as <-. reflexivity.
  - split; [reflexivity | discriminate].
Qed.

(** C6.  A pass of the render loop makes a song transition exactly when
    the playback state it queried has a (title, artist) pair different
    from the stored identity: then it forgets the previous active index,
    writes every row of the "Fetching lyrics" status frame, calls
    [fetch_lyrics] once and asks for a full redraw.  A pass whose source
    is absent, or whose state differs in position only, calls no fetch
    and keeps the stored identity. *)
Theorem song_transition_iff (env : TickEnv) (st : RenderState) (wd : World) :
  let wd' := fst (tick env st wd) in
  let frame_for now :=
    _build_status (lit "Fetching lyrics" ++ ellipsis) (Some now)
                  (fst (_term_size (env_size env))) (snd (_term_size (env_size env))) in
  (fetch_calls wd' <> fetch_calls wd <->
     exists now, env_now env = Ok (Some now) /\
       (title now, artist now) <> (title (current_info st), artist (current_info st))) /\
  (forall now, env_now env = Ok (Some now) ->
     (title now, artist now) <> (title (current_info st), artist (current_info st)) ->
     fetch_calls wd'
       = fetch_calls wd
         ++ [mkFetchCall (title now) (artist now) (album now) (duration_s now)] /\
     stdout wd'
       = stdout wd
         ++ [Write (_SYNC_START
                    ++ List.concat (List.map (fun e => _move (fst e + 1) 1 ++ snd e)
                                             (enumerate (frame_for now)))
                    ++ _SYNC_END);
             Flush] /\
     forall st', snd (tick env st wd) = Ok st' ->
       previous_idx st' = -1 /\ needs_redraw st' = true /\
       current_info st' = now /\ prev_frame st' = frame_for now) /\
  (forall now, env_now env = Ok (Some now) ->
     (title now, artist now) = (title (current_info st), artist (current_info st)) ->
     fetch_calls wd' = fetch_calls wd /\
     forall st', snd (tick env st wd) = Ok st' -> current_info st' = current_info st) /\
  (env_now env = Ok None ->
     fetch_calls wd' = fetch_calls wd /\
     forall st', snd (tick env st wd) = Ok st' -> current_info st' = current_info st).
Proof.
  intros wd' frame_for.
  assert (forall now, env_now env = Ok (Some now) ->
            (title now, artist now) <> (title (current_info st), artist (current_info st)) ->
            tick env st wd
            = tick_song_changed env now (fst (_term_size (env_size env)))
                (snd (_term_size (env_size env))) (deliver_signals env st) wd) as Hchg.
  { intros now Hnow Hne. unfold tick. destruct (_term_size (env_size env)) as [w h].
    rewrite Hnow, tick_deliver_info.
    apply song_changed_iff in Hne. rewrite Hne. reflexivity. }
  split; [| split; [| split]].
  - split.
    + intros Hfetch.
      destruct (env_now env) as [[now |] | e] eqn:Hnow.
      * destruct (song_changed now (current_info st)) eqn:Hsc.
        -- exists now. split; [reflexivity |]. apply song_changed_iff. exact Hsc.
        -- exfalso. apply Hfetch. subst wd'. apply tick_same_song.
           intros now' E. rewrite Hnow in E. injection E as <-. exact Hsc.
      * exfalso. apply Hfetch. subst wd'. apply tick_same_song.
        intros now' E. rewrite Hnow in E. discriminate.
      * exfalso. apply Hfetch. subst wd'. apply tick_same_song.
        intros now' E. rewrite Hnow in E. discriminate.
    + intros (now & Hnow & Hne). subst wd'.
      rewrite (Hchg now Hnow Hne), tick_song_changed_eq. cbn [fst fetch_calls log_fetch].
      apply app_neq_self.
  - intros now Hnow Hne. subst wd'.
    rewrite (Hchg now Hnow Hne), tick_song_changed_eq. cbn [fst snd].
    split; [reflexivity |]. split.
    + cbn [stdout log_fetch with_stdout].
      apply write_diff_force, build_status_nonempty.
    + intros st' E. destruct (env_fetch env); [| discriminate].
      injection E as <-. cbn. repeat split; reflexivity.
  - intros now Hnow Heq. subst wd'. apply tick_same_song.
    intros now' E. rewrite Hnow in E. injection E as <-.
    apply song_unchanged_iff. exact Heq.
  - intros Hnow. subst wd'. apply tick_same_song.
    intros now' E. rewrite Hnow in E. discriminate.
Qed.

Lemma song_transition_iff_witness :
  env_now ex_env = Ok (Some ex_now) /\
  (title ex_now, artist ex_now) <> (title (current_info ex_state), artist (current_info ex_state)) /\
  fetch_calls (fst (tick ex_env ex_state ex_world))
  = [mkFetchCall (lit "Song") (lit "Band") (lit "Album") (duration_s ex_now)].
Proof.
  assert ((title ex_now, artist ex_now)
          <> (title (current_info ex_state), artist (current_info ex_state))) as Hne
    by (cbn; discriminate).
  split; [reflexivity |]. split; [exact Hne |].
  destruct (song_transition_iff ex_env ex_state ex_world) as (_ & Hchg & _).
  exact (proj1 (Hchg ex_now eq_refl Hne)).
Defined.

(** ** The terminal session *)

Lemma tick_interrupted (env : TickEnv) (st st' : RenderState) (wd : World) :
  snd (tick env st wd) = Ok st' -> interrupted st' = interrupted st || env_sigint env.
Proof.
  unfold tick. destruct (_term_size (env_size env)) as [w h].
  destruct (env_now env) as [[now |] | e]; [| | discriminate].
  - destruct (song_changed now (current_info (deliver_signals env st))).
    + rewrite tick_song_changed_eq. cbn [snd].
      destruct (env_fetch env); [| discriminate]. intros E. injection E as <-. reflexivity.
    + destruct (current_lines (deliver_signals env st)) as [lines |].
      * unfold tick_lyrics.
        destruct (_find_active_line lines (position_s now)) as [active_idx | e];
          [| discriminate].
        destruct (negb (active_idx =? previous_idx (deliver_signals env st))
                  || needs_redraw (deliver_signals env st));
          intros E; injection E as <-; reflexivity.
      * intros E. injection E as <-. reflexivity.
  - intros E. injection E as <-. reflexivity.
Qed.

Lemma run_loop_extends (sched : list TickEnv) (st : RenderState) (wd : World) :
  extends wd (fst (run_loop sched st wd)).
Proof.
  revert st wd. induction sched as [| env rest IH]; intros st wd; cbn [run_loop].
  - destruct (interrupted st); apply extends_refl.
  - destruct (interrupted st); [apply extends_refl |].
    pose proof (tick_extends env st wd) as Ht.
    destruct (tick env st wd) as [wd1 [st1 | e]]; cbn [fst] in *.
    + eapply extends_trans; [exact Ht | apply IH].
    + exact Ht.
Qed.

(** A schedule that delivers SIGINT in some pass ends the loop. *)
Lemma run_loop_ends (sched : list TickEnv) (st : RenderState) (wd : World) :
  Exists (fun env => env_sigint env = true) sched ->
  snd (run_loop sched st wd) <> Running.
Proof.
  intros Hex. revert st wd. induction Hex as [env rest Hint | env rest Hex IH];
    intros st wd; cbn [run_loop].
  - destruct (interrupted st) eqn:Hst; [discriminate |].
    destruct (tick env st wd) as [wd1 [st1 | e]] eqn:Ht; [| discriminate].
    assert (interrupted st1 = true) as Hst1.
    { rewrite (tick_interrupted env st st1 wd) by (rewrite Ht; reflexivity).
      rewrite Hint. apply orb_true_r. }
    destruct rest; cbn [run_loop]; rewrite Hst1; discriminate.
  - destruct (interrupted st); [discriminate |].
    destruct (tick env st wd) as [wd1 [st1 | e]]; [apply IH | discriminate].
Qed.

Lemma out_data_app (a b : list OutEvent) : out_data (a ++ b) = out_data a ++ out_data b.
Proof.
  induction a as [| [s |] a IH]; cbn; [reflexivity | | exact IH].
  rewrite IH, app_assoc. reflexivity.
Qed.

(** Whatever the terminal was reading, the two writes of the exit path
    leave its cursor visible. *)
Lemma show_cursor_wins (t : Terminal) (before : str) :
  cursor_visible (term_feed t (before ++ _SHOW_CURSOR ++ _CLEAR)) = true.
Proof.
  unfold term_feed. rewrite fold_left_app.
  destruct (fold_left term_step before t) as [v ps]. reflexivity.
Qed.

Lemma restore_spec (old : option TermAttrs) (old_int old_winch : Handler) (wd : World) :
  stdout (restore old old_int old_winch wd)
    = stdout wd ++ [Write _SHOW_CURSOR; Write _CLEAR; Flush] /\
  stdin_attrs (restore old old_int old_winch wd)
    = match old with Some a => Some a | None => stdin_attrs wd end /\
  sigint_handler (restore old old_int old_winch wd) = old_int /\
  sigwinch_handler (restore old old_int old_winch wd) = old_winch.
Proof.
  unfold restore. destruct old; cbn; rewrite <- !app_assoc; repeat split; reflexivity.
Qed.

(** An interrupt delivered in some pass ends the session. *)
Lemma display_lyrics_ends (lines : option (list LyricLine)) (initial_info : NowPlaying)
    (sched : list TickEnv) (wd : World) :
  Exists (fun env => env_sigint env = true) sched ->
  snd (display_lyrics lines initial_info sched wd) <> Running.
Proof.
  intros Hex. unfold display_lyrics.
  match goal with
  | |- context [run_loop sched ?st ?w] =>
      pose proof (run_loop_ends sched st w Hex) as Hend;
      destruct (run_loop sched st w) as [wd2 [| e |]]
  end; cbn [snd] in *; [discriminate | discriminate | contradiction].
Qed.

Example display_lyrics_paths :
  snd (display_lyrics (Some ex_lines) ex_now [ex_env; ex_interrupt] ex_world) = Returned /\
  snd (display_lyrics (Some ex_lines) ex_now [ex_env; ex_failure; ex_env] ex_world)
    = Raised (ExternalError 0) /\
  snd (display_lyrics (Some ex_lines) ex_now [ex_env; ex_env] ex_world) = Running /\
  stdin_attrs (fst (display_lyrics (Some ex_lines) ex_now [ex_env; ex_env] ex_world))
    = Some (mkTermAttrs false false 1 0).
Proof. repeat split; vm_compute; reflexivity. Qed.

(** *** When a call fails *)

Lemma advances_refl (p : Fallible.Process) : advances p p.
Proof.
  split; [apply extends_refl |]. split; [exists []; reflexivity |]. repeat split.
Qed.

Lemma advances_trans (a b c : Fallible.Process) :
  advances a b -> advances b c -> advances a c.
Proof.
  intros (He1 & (u1 & Hu1) & Hf1 & Hs1 & Ht1) (He2 & (u2 & Hu2) & Hf2 & Hs2 & Ht2).
  split; [eapply extends_trans; eassumption |]. split.
  - exists (u1 ++ u2). rewrite Hu1, Hu2, app_assoc. reflexivity.
  - repeat split; congruence.
Qed.

Lemma advances_answer (p p' : Fallible.Process) (e : exn) :
  advances p p' -> In (Some e) (Fallible.out_answers p') -> In (Some e) (Fallible.out_answers p).
Proof.
  intros (_ & (used & ->) & _) Hin. apply in_or_app. right. exact Hin.
Qed.

Lemma behaves_ret {A} (origin : exn -> Prop) (a : A) : behaves origin (Fallible.ret a).
Proof. intros p. split; [apply advances_refl | discriminate]. Qed.

Lemma behaves_lift {A} (origin : exn -> Prop) (r : result A) :
  (forall e, r = Raise e -> origin e) -> behaves origin (Fallible.lift r).
Proof.
  intros Hr p. split; [apply advances_refl |]. cbn. intros e E. left. apply Hr. exact E.
Qed.

Lemma behaves_update (origin : exn -> Prop) (f : World -> World) :
  (forall wd, extends wd (f wd)) -> behaves origin (Fallible.update f).
Proof.
  intros Hf p. split; [| discriminate].
  split; [apply Hf |]. split; [exists []; reflexivity |]. repeat split.
Qed.

Lemma out_call_extends (ev : OutEvent) (wd : World) :
  extends wd (with_stdout (fun o => o ++ [ev]) wd).
Proof.
  unfold extends. cbn. repeat split.
  - exists [ev]. reflexivity.
  - exists []. symmetry. apply app_nil_r.
Qed.

Lemma behaves_out_call (origin : exn -> Prop) (ev : OutEvent) :
  behaves origin (Fallible.out_call ev).
Proof.
  intros p. unfold Fallible.out_call.
  destruct (Fallible.out_answers p) as [| [e |] rest] eqn:E; cbn [fst snd].
  - split; [| discriminate].
    split; [apply out_call_extends |]. split; [exists []; cbn; exact E |]. repeat split.
  - split.
    + split; [apply extends_refl |]. split; [exists [Some e]; cbn; exact E |]. repeat split.
    + intros e' H. injection H as <-. right. left. reflexivity.
  - split; [| discriminate].
    split; [apply out_call_extends |]. split; [exists [None]; cbn; exact E |]. repeat split.
Qed.

(** Sequencing: what the second statement is run on is a value the
    first one completed with. *)
Lemma behaves_and_then {A B} (origin : exn -> Prop) (m : Fallible.io A)
    (k : A -> Fallible.io B) :
  behaves origin m ->
  (forall a, (exists p, snd (m p) = Ok a) -> behaves origin (k a)) ->
  behaves origin (Fallible.and_then m k).
Proof.
  intros Hm Hk p. unfold Fallible.and_then.
  destruct (Hm p) as (Hadv & Hraise).
  destruct (m p) as [p1 [a | e]] eqn:E; cbn [fst snd] in *.
  - destruct (Hk a (ex_intro _ p (f_equal snd E)) p1) as (Hadv' & Hraise').
    split; [eapply advances_trans; eassumption |].
    intros e He. destruct (Hraise' e He) as [Ho | Hin]; [left; exact Ho |].
    right. eapply advances_answer; eassumption.
  - split; [exact Hadv |]. intros e' He. injection He as <-. apply Hraise. reflexivity.
Qed.

Lemma behaves_then {A B} (origin : exn -> Prop) (m : Fallible.io A) (k : Fallible.io B) :
  behaves origin m -> behaves origin k -> behaves origin (Fallible.and_then m (fun _ => k)).
Proof. intros Hm Hk. apply behaves_and_then; [exact Hm | intros _ _; exact Hk]. Qed.

Lemma behaves_lift_then {A B} (origin : exn -> Prop) (r : result A)
    (k : A -> Fallible.io B) :
  (forall e, r = Raise e -> origin e) ->
  (forall a, r = Ok a -> behaves origin (k a)) ->
  behaves origin (Fallible.and_then (Fallible.lift r) k).
Proof.
  intros Hr Hk. apply behaves_and_then; [apply behaves_lift; exact Hr |].
  intros a (p & E). apply Hk. exact E.
Qed.

Lemma yields_ret {A} (post : A -> Prop) (a : A) : post a -> yields post (Fallible.ret a).
Proof. intros H p a' E. injection E as <-. exact H. Qed.

Lemma yields_and_then {A B} (mid : A -> Prop) (post : B -> Prop) (m : Fallible.io A)
    (k : A -> Fallible.io B) :
  yields mid m -> (forall a, mid a -> yields post (k a)) ->
  yields post (Fallible.and_then m k).
Proof.
  intros Hm Hk p b. unfold Fallible.and_then.
  specialize (Hm p). destruct (m p) as [p1 [a | e]]; cbn [snd] in *; [| discriminate].
  apply Hk. apply Hm. reflexivity.
Qed.

Lemma yields_lift {A} (post : A -> Prop) (r : result A) :
  (forall a, r = Ok a -> post a) -> yields post (Fallible.lift r).
Proof. intros H p a E. apply H. exact E. Qed.

Lemma yields_any {A} (m : Fallible.io A) : yields (fun _ => True) m.
Proof. intros p a _. exact I. Qed.

Lemma behaves_write_diff (origin : exn -> Prop) (prev cur : list str) (force : bool) :
  behaves origin (Fallible._write_diff prev cur force).
Proof.
  unfold Fallible._write_diff.
  destruct (fold_left (diff_step prev force) (enumerate cur) (_SYNC_START, false))
    as [buf changed].
  destruct changed; [| apply behaves_ret].
  apply behaves_then; apply behaves_out_call.
Qed.

Lemma behaves_show_frame (origin : exn -> Prop) (frame : list str) (force redraw : bool)
    (st : RenderState) :
  behaves origin (Fallible.show_frame frame force redraw st).
Proof.
  unfold Fallible.show_frame.
  apply behaves_then; [apply behaves_write_diff | apply behaves_ret].
Qed.

(** A pass of the loop raises what [get_now_playing] or [fetch_lyrics]
    raised, or what the stream answered: the locator, the frame
    builders and the writer raise nothing of their own. *)
Lemma behaves_tick (env : TickEnv) (st : RenderState) :
  behaves (raised_in [env]) (Fallible.tick env st).
Proof.
  unfold Fallible.tick. destruct (_term_size (env_size env)) as [w h].
  apply behaves_lift_then.
  { intros e E. apply Exists_cons_hd. left. exact E. }
  intros [now |] Hnow; [| apply behaves_show_frame].
  destruct (song_changed now (current_info (deliver_signals env st))).
  - unfold Fallible.tick_song_changed.
    apply behaves_and_then; [apply behaves_show_frame | intros st1 _].
    apply behaves_then; [apply behaves_update, log_fetch_extends |].
    apply behaves_lift_then; [| intros fetched _; apply behaves_ret].
    intros e E. apply Exists_cons_hd. right. split; [exact E |]. exists now. exact Hnow.
  - destruct (current_lines (deliver_signals env st)) as [lines |];
      [| apply behaves_show_frame].
    unfold Fallible.tick_lyrics.
    apply behaves_lift_then.
    { intros e E. destruct (find_active_line_total lines (position_s now)) as (r & Hr & _).
      congruence. }
    intros active_idx _. apply behaves_and_then; [| intros st1 _; apply behaves_ret].
    destruct (negb (active_idx =? previous_idx (deliver_signals env st))
              || needs_redraw (deliver_signals env st));
      [apply behaves_show_frame | apply behaves_ret].
Qed.

Lemma yields_show_frame (frame : list str) (force redraw : bool) (st : RenderState) :
  yields (fun st' => interrupted st' = interrupted st)
         (Fallible.show_frame frame force redraw st).
Proof.
  unfold Fallible.show_frame.
  eapply yields_and_then; [apply yields_any | intros _ _].
  apply yields_ret. reflexivity.
Qed.

(** A pass that completes has recorded the interrupt delivered to it. *)
Lemma yields_tick (env : TickEnv) (st : RenderState) :
  yields (fun st' => interrupted st' = interrupted st || env_sigint env)
         (Fallible.tick env st).
Proof.
  unfold Fallible.tick. destruct (_term_size (env_size env)) as [w h].
  eapply yields_and_then; [apply yields_any | intros [now |] _].
  - destruct (song_changed now (current_info (deliver_signals env st))).
    + unfold Fallible.tick_song_changed.
      eapply yields_and_then; [apply yields_show_frame | cbn beta; intros st1 H1].
      eapply yields_and_then; [apply yields_any | intros _ _].
      eapply yields_and_then; [apply yields_any | intros fetched _].
      apply yields_ret. cbn. exact H1.
    + destruct (current_lines (deliver_signals env st)) as [lines |];
        [| apply yields_show_frame].
      unfold Fallible.tick_lyrics.
      eapply yields_and_then; [apply yields_any | intros active_idx _].
      eapply yields_and_then with (mid := fun st' => interrupted st' = interrupted st || env_sigint env).
      * destruct (negb (active_idx =? previous_idx (deliver_signals env st))
                  || needs_redraw (deliver_signals env st));
          [apply yields_show_frame | apply yields_ret; reflexivity].
      * intros st1 H1. apply yields_ret. exact H1.
  - apply yields_show_frame.
Qed.

(** The loop on a process whose calls can fail: it only advances the
    process; it returns only after an interrupt, goes on only while
    none was delivered, and raises only what a collaborator raised or
    the stream answered. *)
Lemma run_loop_behaves (sched : list TickEnv) (st : RenderState) (p : Fallible.Process) :
  advances p (fst (Fallible.run_loop sched st p)) /\
  (interrupted st = false ->
   match snd (Fallible.run_loop sched st p) with
   | Raised e => raised_in sched e \/ In (Some e) (Fallible.out_answers p)
   | Returned => Exists (fun env => env_sigint env = true) sched
   | Running => Forall (fun env => env_sigint env = false) sched
   end).
Proof.
  revert st p. induction sched as [| env rest IH]; intros st p; cbn [Fallible.run_loop].
  - destruct (interrupted st); (split; [apply advances_refl |]); [discriminate |].
    intros _. constructor.
  - destruct (interrupted st) eqn:Hst; [split; [apply advances_refl | discriminate] |].
    destruct (behaves_tick env st p) as (Hadv & Hraise).
    pose proof (yields_tick env st p) as Hint.
    destruct (Fallible.tick env st p) as [p1 [st1 | e]]; cbn [fst snd] in *.
    + specialize (Hint st1 eq_refl). rewrite Hst in Hint. cbn [orb] in Hint.
      destruct (IH st1 p1) as (Hadv1 & Hend).
      split; [eapply advances_trans; eassumption |]. intros _.
      destruct (env_sigint env) eqn:Hsig.
      * destruct rest; cbn [Fallible.run_loop]; rewrite Hint; cbn [snd];
          apply Exists_cons_hd; exact Hsig.
      * specialize (Hend Hint).
        destruct (snd (Fallible.run_loop rest st1 p1)) as [| e |].
        -- apply Exists_cons_tl. exact Hend.
        -- destruct Hend as [Hr | Hin].
           ++ left. apply Exists_cons_tl. exact Hr.
           ++ right. eapply advances_answer; eassumption.
        -- constructor; [exact Hsig | exact Hend].
    + split; [exact Hadv |]. intros _.
      destruct (Hraise e eq_refl) as [Hr | Hin]; [| right; exact Hin].
      left. apply Exists_cons_hd. apply Exists_cons in Hr.
      destruct Hr as [Hr | Hr]; [exact Hr | inversion Hr].
Qed.

(** The [try] block: it leaves the handlers alone and only appends to
    the stream; the input mode is the one found or its cbreak form. *)
Lemma try_block_spec (sched : list TickEnv) (st : RenderState) (p : Fallible.Process) :
  let p1 := fst (Fallible.try_block (stdin_attrs (Fallible.world p)) sched st p) in
  (stdin_attrs (Fallible.world p1) = stdin_attrs (Fallible.world p) \/
   stdin_attrs (Fallible.world p1) = option_map setcbreak (stdin_attrs (Fallible.world p))) /\
  sigint_handler (Fallible.world p1) = sigint_handler (Fallible.world p) /\
  sigwinch_handler (Fallible.world p1) = sigwinch_handler (Fallible.world p) /\
  (exists evs, stdout (Fallible.world p1) = stdout (Fallible.world p) ++ evs) /\
  (exists used, Fallible.out_answers p = used ++ Fallible.out_answers p1) /\
  Fallible.tcsetattr_answer p1 = Fallible.tcsetattr_answer p.
Proof.
  unfold Fallible.try_block.
  set (mode := match stdin_attrs (Fallible.world p) with
               | Some a => Fallible.tty_setcbreak a
               | None => Fallible.ret tt
               end).
  assert (let p0 := fst (mode p) in
          (stdin_attrs (Fallible.world p0) = stdin_attrs (Fallible.world p) \/
           stdin_attrs (Fallible.world p0)
           = option_map setcbreak (stdin_attrs (Fallible.world p))) /\
          sigint_handler (Fallible.world p0) = sigint_handler (Fallible.world p) /\
          sigwinch_handler (Fallible.world p0) = sigwinch_handler (Fallible.world p) /\
          stdout (Fallible.world p0) = stdout (Fallible.world p) /\
          Fallible.out_answers p0 = Fallible.out_answers p /\
          Fallible.tcsetattr_answer p0 = Fallible.tcsetattr_answer p) as Hmode.
  { subst mode. destruct (stdin_attrs (Fallible.world p)) as [a |] eqn:Ha; cbn.
    - unfold Fallible.tty_setcbreak. destruct (Fallible.setcbreak_answer p); cbn.
      + repeat split. left. exact Ha.
      + repeat split. right. reflexivity.
    - repeat split. left. exact Ha. }
  cbv zeta in Hmode. destruct Hmode as (Hattr & Hi & Hw & Ho & Hans & Htc).
  assert (forall q : Fallible.Process * Outcome,
            advances (fst (mode p)) (fst q) ->
            let p1 := fst q in
            (stdin_attrs (Fallible.world p1) = stdin_attrs (Fallible.world p) \/
             stdin_attrs (Fallible.world p1)
             = option_map setcbreak (stdin_attrs (Fallible.world p))) /\
            sigint_handler (Fallible.world p1) = sigint_handler (Fallible.world p) /\
            sigwinch_handler (Fallible.world p1) = sigwinch_handler (Fallible.world p) /\
            (exists evs, stdout (Fallible.world p1) = stdout (Fallible.world p) ++ evs) /\
            (exists used, Fallible.out_answers p = used ++ Fallible.out_answers p1) /\
            Fallible.tcsetattr_answer p1 = Fallible.tcsetattr_answer p) as Hthen.
  { intros q ((Ha' & Hi' & Hw' & (evs & Ho') & _) & (used & Hu) & _ & _ & Ht'). cbv zeta.
    split; [destruct Hattr as [H | H]; [left | right]; congruence |].
    split; [congruence |]. split; [congruence |].
    split; [exists evs; congruence |].
    split; [exists used; congruence | congruence]. }
  clear Hattr Hi Hw Ho Hans Htc.
  match goal with |- context [fst ?q] => apply (Hthen q) end. clear Hthen.
  unfold Fallible.and_then at 1.
  destruct (mode p) as [p0 [[] | e]]; cbn [fst]; [| apply advances_refl].
  pose proof (behaves_then (fun _ => False) _ _
                (behaves_out_call _ (Write _HIDE_CURSOR))
                (behaves_then _ _ _ (behaves_out_call _ (Write _CLEAR))
                              (behaves_out_call _ Flush)) p0) as (Hopen & _).
  fold (Fallible.out_write _HIDE_CURSOR) (Fallible.out_write _CLEAR) Fallible.out_flush
    in Hopen.
  destruct (Fallible.and_then (Fallible.out_write _HIDE_CURSOR) _ p0)
    as [p2 [[] | e]]; cbn [fst] in *; [| exact Hopen].
  eapply advances_trans; [exact Hopen | apply run_loop_behaves].
Qed.

(** The [finally] block when its own calls succeed. *)
Lemma restore_completes (old : option TermAttrs) (old_int old_winch : Handler)
    (p : Fallible.Process) :
  accepts 3 p -> Fallible.tcsetattr_answer p = None ->
  let done := Fallible.restore old old_int old_winch p in
  snd done = Ok tt /\
  stdout (Fallible.world (fst done))
    = stdout (Fallible.world p) ++ [Write _SHOW_CURSOR; Write _CLEAR; Flush] /\
  stdin_attrs (Fallible.world (fst done))
    = match old with Some a => Some a | None => stdin_attrs (Fallible.world p) end /\
  sigint_handler (Fallible.world (fst done)) = old_int /\
  sigwinch_handler (Fallible.world (fst done)) = old_winch.
Proof.
  intros Hacc Htc. unfold accepts in Hacc.
  unfold Fallible.restore, Fallible.and_then, Fallible.out_write, Fallible.out_flush,
    Fallible.out_call, Fallible.tcsetattr, Fallible.update, Fallible.ret.
  destruct (Fallible.out_answers p) as [| [e1 |] [| [e2 |] [| [e3 |] rest]]];
    cbn [firstn] in Hacc;
    repeat match goal with
           | H : Forall _ (_ :: _) |- _ => apply Forall_cons_iff in H; destruct H as [? H]
           end;
    try discriminate;
    cbn [Fallible.out_answers Fallible.world Fallible.tcsetattr_answer fst snd];
    destruct old as [a |]; cbn [Fallible.tcsetattr_answer Fallible.world fst snd];
    rewrite ?Htc; cbn; rewrite <- ?app_assoc; repeat split; reflexivity.
Qed.

(** *** The two models agree when every call succeeds *)

Lemma write_diff_calm (prev cur : list str) (force : bool) (wd : World) :
  Fallible._write_diff prev cur force (calm wd)
  = (calm (with_stdout (fun o => _write_diff o prev cur force) wd), Ok tt).
Proof.
  unfold Fallible._write_diff, _write_diff.
  destruct (fold_left (diff_step prev force) (enumerate cur) (_SYNC_START, false))
    as [buf changed].
  destruct wd as [o a hi hw fc]. destruct changed; cbn; [| reflexivity].
  unfold calm, with_stdout. cbn [stdout stdin_attrs sigint_handler sigwinch_handler fetch_calls].
  rewrite <- app_assoc. reflexivity.
Qed.

Lemma show_frame_calm (frame : list str) (force redraw : bool) (st : RenderState)
    (wd : World) :
  Fallible.show_frame frame force redraw st (calm wd)
  = (calm (fst (show_frame frame force redraw st wd)),
     Ok (snd (show_frame frame force redraw st wd))).
Proof.
  unfold Fallible.show_frame, Fallible.and_then. rewrite write_diff_calm. reflexivity.
Qed.

Lemma tick_calm (env : TickEnv) (st : RenderState) (wd : World) :
  Fallible.tick env st (calm wd)
  = (calm (fst (tick env st wd)), snd (tick env st wd)).
Proof.
  unfold Fallible.tick, tick. destruct (_term_size (env_size env)) as [w h].
  unfold Fallible.and_then at 1. unfold Fallible.lift at 1.
  destruct (env_now env) as [[now |] | e]; [| | destruct wd; reflexivity].
  - destruct (song_changed now (current_info (deliver_signals env st))).
    + unfold Fallible.tick_song_changed, tick_song_changed, Fallible.and_then.
      rewrite show_frame_calm. cbn [show_frame fst snd Fallible.update Fallible.lift].
      destruct (env_fetch env); reflexivity.
    + destruct (current_lines (deliver_signals env st)) as [lines |].
      * unfold Fallible.tick_lyrics, tick_lyrics, Fallible.and_then, Fallible.lift.
        destruct (_find_active_line lines (position_s now)) as [active_idx | e];
          [| destruct wd; reflexivity].
        destruct (negb (active_idx =? previous_idx (deliver_signals env st))
                  || needs_redraw (deliver_signals env st)).
        -- rewrite show_frame_calm. reflexivity.
        -- destruct wd; reflexivity.
      * unfold Fallible.tick_no_lyrics, tick_no_lyrics. rewrite show_frame_calm.
        reflexivity.
  - unfold Fallible.tick_no_player, tick_no_player. rewrite show_frame_calm. reflexivity.
Qed.

Lemma run_loop_calm (sched : list TickEnv) (st : RenderState) (wd : World) :
  Fallible.run_loop sched st (calm wd)
  = (calm (fst (run_loop sched st wd)), snd (run_loop sched st wd)).
Proof.
  revert st wd. induction sched as [| env rest IH]; intros st wd;
    cbn [Fallible.run_loop run_loop].
  - destruct (interrupted st); reflexivity.
  - destruct (interrupted st); [reflexivity |].
    rewrite tick_calm. destruct (tick env st wd) as [wd1 [st1 | e]]; cbn [fst snd].
    + apply IH.
    + reflexivity.
Qed.

Lemma restore_calm (old : option TermAttrs) (old_int old_winch : Handler) (wd : World) :
  Fallible.restore old old_int old_winch (calm wd)
  = (calm (restore old old_int old_winch wd), Ok tt).
Proof. destruct wd as [o a hi hw fc]. destruct old; reflexivity. Qed.

(** On a process whose calls all succeed, [Fallible.display_lyrics] is
    [display_lyrics]: the world it leaves and the way it ends are the
    same. *)
Lemma display_lyrics_calm (lines : option (list LyricLine)) (initial_info : NowPlaying)
    (sched : list TickEnv) (wd : World) :
  Fallible.display_lyrics lines initial_info sched (calm wd)
  = (calm (fst (display_lyrics lines initial_info sched wd)),
     snd (display_lyrics lines initial_info sched wd)).
Proof.
  destruct wd as [o a hi hw fc].
  unfold Fallible.display_lyrics, display_lyrics, Fallible.try_block,
    Fallible.stdin_fileno, Fallible.and_then, Fallible.out_write, Fallible.out_flush,
    Fallible.out_call, Fallible.tty_setcbreak, Fallible.update, Fallible.ret, calm.
  cbn [Fallible.world Fallible.out_answers Fallible.fileno_answer
       Fallible.setcbreak_answer Fallible.tcsetattr_answer fst snd
       with_handlers with_attrs stdin_attrs stdout sigint_handler sigwinch_handler
       fetch_calls].
  destruct a as [a |]; cbn [Fallible.world Fallible.out_answers Fallible.fileno_answer
       Fallible.setcbreak_answer Fallible.tcsetattr_answer fst snd
       with_handlers with_attrs stdin_attrs stdout sigint_handler sigwinch_handler
       fetch_calls out_write out_flush with_stdout].
  all: unfold out_flush, out_write;
    match goal with
       | |- context [Fallible.run_loop _ _ (Fallible.mkProcess ?w [] None None None)] =>
           change (Fallible.mkProcess w [] None None None) with (calm w)
       end;
    rewrite run_loop_calm;
    match goal with |- context [run_loop ?s ?st ?w] => destruct (run_loop s st w) as [wd2 [| e |]] end;
    cbn [fst snd]; rewrite ?restore_calm; reflexivity.
Qed.

Lemma same_text_refl (wd : World) : same_text wd wd.
Proof. repeat split. Qed.

Lemma pipe_tick_calm (lines : list LyricLine) (initial_info : NowPlaying)
    (env : TickEnv) (intr : bool) (prev : Z) (w wd : World) :
  same_text w wd ->
  exists w',
    Fallible.pipe_tick lines initial_info env intr prev (calm w)
    = (calm w', snd (pipe_tick lines initial_info env intr prev wd)) /\
    same_text w' (fst (pipe_tick lines initial_info env intr prev wd)).
Proof.
  intros Hsame. unfold Fallible.pipe_tick, pipe_tick, Fallible.and_then, Fallible.lift.
  destruct (env_now env) as [[now |] | e]; try (exists w; split; [reflexivity | exact Hsame]).
  destruct (song_changed now initial_info); [exists w; split; [reflexivity | exact Hsame] |].
  destruct (negb (is_playing now)); [exists w; split; [reflexivity | exact Hsame] |].
  destruct (_find_active_line lines (position_s now)) as [active_idx | e];
    [| exists w; split; [reflexivity | exact Hsame]].
  destruct (negb (active_idx =? prev)); [| exists w; split; [reflexivity | exact Hsame]].
  destruct (py_index lines active_idx) as [l | e];
    [| exists w; split; [reflexivity | exact Hsame]].
  destruct (text l) as [| c r]; [exists w; split; [reflexivity | exact Hsame] |].
  destruct Hsame as (Hout & Ha & Hi & Hw & Hf).
  exists (with_stdout (fun o => o ++ [Write (c :: r); Write [10%N]; Flush]) w). split.
  - destruct w as [o a hi hw fc]. unfold calm. cbn. unfold Fallible.ret, with_stdout.
    cbn [stdout stdin_attrs sigint_handler sigwinch_handler fetch_calls].
    rewrite <- !app_assoc. reflexivity.
  - cbn [fst]. unfold print_flush, out_flush, out_write, with_stdout, same_text.
    cbn [stdout stdin_attrs sigint_handler sigwinch_handler fetch_calls].
    repeat split; try assumption.
    rewrite !out_data_app, Hout. cbn [out_data]. rewrite ?app_nil_r, <- ?app_assoc.
    reflexivity.
Qed.

Lemma pipe_loop_calm (lines : list LyricLine) (initial_info : NowPlaying)
    (sched : list TickEnv) (intr : bool) (prev : Z) (w wd : World) :
  same_text w wd ->
  exists w',
    Fallible.pipe_loop lines initial_info sched intr prev (calm w)
    = (calm w', snd (pipe_loop lines initial_info sched intr prev wd)) /\
    same_text w' (fst (pipe_loop lines initial_info sched intr prev wd)).
Proof.
  revert intr prev w wd. induction sched as [| env rest IH]; intros intr prev w wd Hsame;
    cbn [Fallible.pipe_loop pipe_loop].
  - destruct intr; exists w; split; reflexivity || exact Hsame.
  - destruct intr; [exists w; split; reflexivity || exact Hsame |].
    destruct (pipe_tick_calm lines initial_info env false prev w wd Hsame)
      as (w1 & -> & Hsame1).
    destruct (pipe_tick lines initial_info env false prev wd) as [wd1 [[i prev1 |] | e]];
      cbn [fst snd] in *.
    + apply IH. exact Hsame1.
    + exists w1. split; [reflexivity | exact Hsame1].
    + exists w1. split; [reflexivity | exact Hsame1].
Qed.

(** On a process whose calls all succeed, [Fallible.display_pipe] ends
    the way [display_pipe] does and sends the same characters; only
    the cut of the text into calls differs, [print] writing the end of
    line on its own. *)
Lemma display_pipe_calm (lines : list LyricLine) (initial_info : NowPlaying)
    (sched : list TickEnv) (wd : World) :
  snd (Fallible.display_pipe lines initial_info sched (calm wd))
  = snd (display_pipe lines initial_info sched wd) /\
  same_text (Fallible.world (fst (Fallible.display_pipe lines initial_info sched (calm wd))))
            (fst (display_pipe lines initial_info sched wd)).
Proof.
  unfold Fallible.display_pipe, display_pipe.
  cbn [Fallible.update fst calm Fallible.world Fallible.out_answers Fallible.fileno_answer
       Fallible.setcbreak_answer Fallible.tcsetattr_answer].
  change (Fallible.mkProcess (with_handlers IntHandler (sigwinch_handler wd) wd) [] None
                             None None)
    with (calm (with_handlers IntHandler (sigwinch_handler wd) wd)).
  destruct (pipe_loop_calm lines initial_info sched false (-1)
              (with_handlers IntHandler (sigwinch_handler wd) wd)
              (with_handlers IntHandler (sigwinch_handler wd) wd) (same_text_refl _))
    as (w1 & -> & Hsame).
  destruct (pipe_loop lines initial_info sched false (-1)
              (with_handlers IntHandler (sigwinch_handler wd) wd)) as [wd1 [| e |]];
    cbn [fst snd] in *; (split; [reflexivity |]); try exact Hsame;
    destruct Hsame as (Hout & Ha & Hi & Hw & Hf); unfold same_text; cbn;
    repeat split; congruence.
Qed.

(** *** The exit path *)

(** [display_lyrics] once the descriptor of the input is at hand: the
    [try] block, then the [finally] block unless the schedule ran out,
    an exception of the [finally] block replacing the pending outcome. *)
Lemma display_lyrics_finally (lines : option (list LyricLine)) (initial_info : NowPlaying)
    (sched : list TickEnv) (p : Fallible.Process) :
  Fallible.fileno_answer p = None ->
  Fallible.display_lyrics lines initial_info sched p =
  match at_finally lines initial_info sched p with
  | (p1, Running) => (p1, Running)
  | (p1, pending) =>
      match Fallible.restore (stdin_attrs (Fallible.world p))
                             (sigint_handler (Fallible.world p))
                             (sigwinch_handler (Fallible.world p)) p1 with
      | (p2, Ok _) => (p2, pending)
      | (p2, Raise e) => (p2, Raised e)
      end
  end.
Proof.
  intros Hfd. destruct p as [wd answers fd sc tc]. cbn in Hfd. subst fd. reflexivity.
Qed.

(** C5, amended.  Whenever [display_lyrics] reaches its [finally]
    block, after the loop returned on an interrupt or an exception left
    the [try] block, and the calls of the block itself succeed (the
    stream accepts its three calls and [tcsetattr] does not fail), the
    whole restoration runs: the last things sent are the show-cursor and
    clear-screen sequences and a flush, the termios attributes of the
    input stream are the ones found on entry (restored when the query
    had succeeded, never touched otherwise), both signal handlers are
    the previous ones, and the function ends the way the [try] block
    did.  So the input mode after exit is the one before entry, and the
    cursor is visible after exit, which is its state before entry when
    it was visible then. *)
Theorem terminal_restored (lines : option (list LyricLine)) (initial_info : NowPlaying)
    (sched : list TickEnv) (p : Fallible.Process) :
  Fallible.fileno_answer p = None ->
  Fallible.tcsetattr_answer p = None ->
  snd (at_finally lines initial_info sched p) <> Running ->
  accepts 3 (fst (at_finally lines initial_info sched p)) ->
  let run := Fallible.display_lyrics lines initial_info sched p in
  let wd := Fallible.world p in
  let wd' := Fallible.world (fst run) in
  snd run = snd (at_finally lines initial_info sched p) /\
  exists session,
    stdout wd' = stdout wd ++ session ++ [Write _SHOW_CURSOR; Write _CLEAR; Flush] /\
    stdin_attrs wd' = stdin_attrs wd /\
    sigint_handler wd' = sigint_handler wd /\
    sigwinch_handler wd' = sigwinch_handler wd /\
    forall before : Terminal,
      let after :=
        term_feed before
          (out_data (session ++ [Write _SHOW_CURSOR; Write _CLEAR; Flush])) in
      cursor_visible after = true /\
      (cursor_visible before = true -> cursor_visible after = cursor_visible before).
Proof.
  intros Hfd Htc Hend Hacc.
  rewrite (display_lyrics_finally lines initial_info sched p Hfd).
  unfold at_finally in *.
  set (p0 := fst (Fallible.update (with_handlers IntHandler WinchHandler) p)) in *.
  change (stdin_attrs (Fallible.world p)) with (stdin_attrs (Fallible.world p0)) in *.
  pose proof (try_block_spec sched (initial_state lines initial_info) p0)
    as (Hattr & Hi & Hw & (evs & Hout) & _ & Htc1).
  destruct (Fallible.try_block (stdin_attrs (Fallible.world p0)) sched
              (initial_state lines initial_info) p0) as [p1 pending].
  cbn [fst snd] in *.
  assert (Fallible.tcsetattr_answer p1 = None) as Htc' by (rewrite Htc1; exact Htc).
  pose proof (restore_completes (stdin_attrs (Fallible.world p0))
                (sigint_handler (Fallible.world p)) (sigwinch_handler (Fallible.world p))
                p1 Hacc Htc') as (Hok & Hout' & Hattr' & Hi' & Hw').
  cbv zeta in Hok, Hout', Hattr', Hi', Hw'.
  destruct (Fallible.restore (stdin_attrs (Fallible.world p0))
              (sigint_handler (Fallible.world p)) (sigwinch_handler (Fallible.world p)) p1)
    as [p2 [[] | e]]; cbn [fst snd] in *; [| discriminate].
  assert (exists session,
            stdout (Fallible.world p2)
            = stdout (Fallible.world p) ++ session
              ++ [Write _SHOW_CURSOR; Write _CLEAR; Flush] /\
            stdin_attrs (Fallible.world p2) = stdin_attrs (Fallible.world p) /\
            sigint_handler (Fallible.world p2) = sigint_handler (Fallible.world p) /\
            sigwinch_handler (Fallible.world p2) = sigwinch_handler (Fallible.world p) /\
            forall before : Terminal,
              let after :=
                term_feed before
                  (out_data (session ++ [Write _SHOW_CURSOR; Write _CLEAR; Flush])) in
              cursor_visible after = true /\
              (cursor_visible before = true -> cursor_visible after = cursor_visible before))
    as Hrestored.
  { exists evs. split; [| split; [| split; [| split]]].
    - rewrite Hout', Hout, <- app_assoc. reflexivity.
    - rewrite Hattr'. change (stdin_attrs (Fallible.world p0))
        with (stdin_attrs (Fallible.world p)) in *.
      destruct (stdin_attrs (Fallible.world p)) as [a |]; [reflexivity |].
      destruct Hattr as [H | H]; exact H.
    - exact Hi'.
    - exact Hw'.
    - intros before after.
      assert (cursor_visible after = true) as Hvis.
      { subst after. rewrite out_data_app.
        change (out_data [Write _SHOW_CURSOR; Write _CLEAR; Flush])
          with (_SHOW_CURSOR ++ _CLEAR ++ []).
        rewrite app_nil_r. apply show_cursor_wins. }
      split; [exact Hvis |]. intros Hb. rewrite Hvis, Hb. reflexivity. }
  destruct pending as [| e |]; cbv zeta; cbn [fst snd].
  - split; [reflexivity | exact Hrestored].
  - split; [reflexivity | exact Hrestored].
  - contradiction.
Qed.

(** A flush refused inside the loop takes the error path; the stream
    has recovered when the [finally] block runs, and the mode is back. *)
Lemma terminal_restored_witness :
  snd (at_finally (Some ex_lines) ex_now [ex_env; ex_env] ex_flaky) = Raised (ExternalError 5) /\
  accepts 3 (fst (at_finally (Some ex_lines) ex_now [ex_env; ex_env] ex_flaky)) /\
  snd (Fallible.display_lyrics (Some ex_lines) ex_now [ex_env; ex_env] ex_flaky)
  = Raised (ExternalError 5) /\
  stdin_attrs (Fallible.world
                 (fst (Fallible.display_lyrics (Some ex_lines) ex_now [ex_env; ex_env]
                                               ex_flaky)))
  = Some (mkTermAttrs true true 1 0).
Proof.
  assert (snd (at_finally (Some ex_lines) ex_now [ex_env; ex_env] ex_flaky)
          = Raised (ExternalError 5)) as Hpending by (vm_compute; reflexivity).
  assert (snd (at_finally (Some ex_lines) ex_now [ex_env; ex_env] ex_flaky) <> Running)
    as Hend by (rewrite Hpending; discriminate).
  assert (accepts 3 (fst (at_finally (Some ex_lines) ex_now [ex_env; ex_env] ex_flaky)))
    as Hacc by (vm_compute; constructor).
  destruct (terminal_restored (Some ex_lines) ex_now [ex_env; ex_env] ex_flaky
              eq_refl eq_refl Hend Hacc) as (Hsame & session & _ & Hattrs & _).
  split; [exact Hpending |]. split; [exact Hacc |].
  split; [rewrite Hsame; exact Hpending | exact Hattrs].
Defined.

(** C5 as stated fails.  When the stream stays broken, the flush
    refused inside the loop is refused again in the [finally] block,
    which ends there: [tcsetattr] and the two [signal.signal] calls
    never run, and the terminal is left in cbreak mode with the loop's
    handlers installed.  When [tcsetattr] itself fails after a normal
    return, the mode stays as well.  And on a terminal whose cursor was
    hidden before entry, the cursor is visible after a normal exit: the
    exit path shows the cursor whatever its state was. *)
Lemma terminal_not_always_restored :
  (let run := Fallible.display_lyrics (Some ex_lines) ex_now [ex_env; ex_env] ex_broken in
   snd run = Raised (ExternalError 5) /\
   stdin_attrs (Fallible.world ex_broken) = Some (mkTermAttrs true true 1 0) /\
   stdin_attrs (Fallible.world (fst run)) = Some (mkTermAttrs false false 1 0) /\
   stdin_attrs (Fallible.world (fst run)) <> stdin_attrs (Fallible.world ex_broken) /\
   sigint_handler (Fallible.world (fst run)) = IntHandler) /\
  (let run := Fallible.display_lyrics (Some ex_lines) ex_now [ex_env; ex_interrupt]
                                      ex_hangup in
   snd run = Raised (ExternalError 6) /\
   stdin_attrs (Fallible.world (fst run)) = Some (mkTermAttrs false false 1 0) /\
   stdin_attrs (Fallible.world (fst run)) <> stdin_attrs (Fallible.world ex_hangup)) /\
  (let run := Fallible.display_lyrics (Some ex_lines) ex_now [ex_env; ex_interrupt]
                                      (calm ex_world) in
   let after := term_feed ex_hidden (out_data (stdout (Fallible.world (fst run)))) in
   snd run = Returned /\
   cursor_visible ex_hidden = false /\ cursor_visible after = true /\
   cursor_visible after <> cursor_visible ex_hidden).
Proof.
  split; [| split].
  - cbv zeta. split; [vm_compute; reflexivity |]. split; [reflexivity |].
    split; [vm_compute; reflexivity |]. split; [vm_compute; discriminate |].
    vm_compute; reflexivity.
  - cbv zeta. split; [vm_compute; reflexivity |].
    split; [vm_compute; reflexivity | vm_compute; discriminate].
  - cbv zeta. split; [vm_compute; reflexivity |]. split; [reflexivity |].
    split; [vm_compute; reflexivity | vm_compute; discriminate].
Qed.

(** ** The parser *)

Lemma drop_while_head (f : char -> bool) (s : str) (c : char) (r : str) :
  drop_while f s = c :: r -> f c = false.
Proof.
  induction s as [| x s IH]; cbn; [discriminate |].
  destruct (f x) eqn:E; [exact IH |].
  intros H. injection H as <- <-. exact E.
Qed.

Lemma drop_while_keeps (f : char -> bool) (s : str) (c : char) :
  f c = false -> drop_while f (s ++ [c]) <> [].
Proof.
  intros Hc. induction s as [| x s IH]; cbn.
  - rewrite Hc. discriminate.
  - destruct (f x); [exact IH | discriminate].
Qed.

Lemma drop_while_suffix (f : char -> bool) (s : str) :
  exists pre, s = pre ++ drop_while f s.
Proof.
  induction s as [| x s (pre & IH)]; cbn.
  - exists []. reflexivity.
  - destruct (f x).
    + exists (x :: pre). cbn. rewrite <- IH. reflexivity.
    + exists []. reflexivity.
Qed.

Lemma strip_trimmed (s : str) : trimmed (strip s).
Proof.
  unfold strip, rstrip, lstrip. split.
  - intros c r Hs.
    destruct (drop_while isspace s) as [| x t] eqn:Hl.
    + cbn in Hs. discriminate.
    + pose proof (drop_while_head _ _ _ _ Hl) as Hx.
      destruct (drop_while_suffix isspace (rev (x :: t))) as (pre & Hpre).
      assert (drop_while isspace (rev (x :: t)) <> []) as Hne.
      { cbn [rev]. apply drop_while_keeps. exact Hx. }
      apply (f_equal (@rev char)) in Hpre. rewrite rev_involutive, rev_app_distr in Hpre.
      rewrite Hs in Hpre. cbn in Hpre. injection Hpre as <- _. exact Hx.
  - intros c r Hs. rewrite rev_involutive in Hs.
    apply drop_while_head in Hs. exact Hs.
Qed.

Lemma first_some_Some {A B} (f : A -> option B) (l : list A) (b : B) :
  first_some f l = Some b -> exists a, In a l /\ f a = Some b.
Proof.
  induction l as [| a l IH]; cbn; [discriminate |].
  destruct (f a) as [b' |] eqn:E.
  - intros H. injection H as ->. exists a. split; [left; reflexivity | exact E].
  - intros H. destruct (IH H) as (a' & Hin & Ha'). exists a'. split; [right |]; assumption.
Qed.

Lemma take_while_Forall (f : char -> bool) (s : str) :
  Forall (fun c => f c = true) (take_while f s).
Proof.
  induction s as [| c s IH]; cbn; [constructor |].
  destruct (f c) eqn:E; constructor; assumption.
Qed.

Lemma firstn_take_while (f : char -> bool) (s : str) (n : nat) :
  (n <= List.length (take_while f s))%nat ->
  firstn n s = firstn n (take_while f s).
Proof.
  revert n. induction s as [| c s IH]; intros n Hn; cbn in *.
  - reflexivity.
  - destruct (f c); cbn in *.
    + destruct n as [| n]; [reflexivity |]. cbn. rewrite IH by lia. reflexivity.
    + assert (n = 0)%nat as -> by lia. reflexivity.
Qed.

Section ParserProofs.

Variable decimal : char -> option Z.

(** The character "0" is the decimal digit zero. *)
Hypothesis decimal_zero : decimal 48%N = Some 0.

Lemma rep_digits_Some {A} (lo hi : nat) (s : str) (k : str -> str -> option A) (r : A) :
  rep_digits decimal lo hi s k = Some r ->
  exists n, (lo <= n <= hi)%nat /\ all_decimal decimal (firstn n s) /\
    List.length (firstn n s) = n /\ k (firstn n s) (skipn n s) = Some r.
Proof.
  unfold rep_digits. intros H. apply first_some_Some in H.
  destruct H as (n & Hin & Hk). apply in_rev, in_seq in Hin.
  rewrite length_firstn in Hin.
  assert (n <= List.length (take_while (is_decimal decimal) s))%nat as Hn by lia.
  exists n. split; [lia |]. split; [| split; [| exact Hk]].
  - rewrite (firstn_take_while _ _ _ Hn). unfold all_decimal.
    pose proof (take_while_Forall (is_decimal decimal) s) as Hall.
    rewrite <- (firstn_skipn n (take_while (is_decimal decimal) s)) in Hall.
    apply Forall_app in Hall. apply Hall.
  - rewrite (firstn_take_while _ _ _ Hn). rewrite length_firstn. lia.
Qed.

Lemma pattern_tail_groups (g1 g2 : str) (g3 : option str) (s : str) (g : groups) :
  pattern_tail g1 g2 g3 s = Some g -> exists g4, g = (g1, g2, g3, g4).
Proof.
  unfold pattern_tail. destruct s as [| c s]; [discriminate |].
  destruct (N.eqb c 93); [| discriminate].
  intros H. injection H as <-. eexists. reflexivity.
Qed.

(** What the pattern captures: one or two digits, two digits, and one to
    three digits when the fraction took part in the match. *)
Lemma pattern_match_groups (s g1 g2 g4 : str) (g3 : option str) :
  pattern_match decimal s = Some (g1, g2, g3, g4) ->
  all_decimal decimal g1 /\ (1 <= List.length g1 <= 2)%nat /\
  all_decimal decimal g2 /\ List.length g2 = 2%nat /\
  match g3 with
  | Some f => all_decimal decimal f /\ (1 <= List.length f <= 3)%nat
  | None => True
  end.
Proof.
  unfold pattern_match. destruct s as [| c s1]; [discriminate |].
  destruct (N.eqb c 91); [| discriminate].
  intros H. apply rep_digits_Some in H. destruct H as (n1 & Hn1 & Hd1 & Hl1 & H).
  destruct (skipn n1 s1) as [| c2 s3]; [discriminate |].
  destruct (N.eqb c2 58); [| discriminate].
  apply rep_digits_Some in H. destruct H as (n2 & Hn2 & Hd2 & Hl2 & H).
  unfold pattern_frac, or_else in H.
  match type of H with
  | match ?alt with Some _ => _ | None => _ end = _ => destruct alt as [g |] eqn:Halt
  end.
  - injection H as ->.
    destruct (skipn n2 s3) as [| c4 s5]; [discriminate |].
    destruct (N.eqb c4 46 || N.eqb c4 58); [| discriminate].
    apply rep_digits_Some in Halt. destruct Halt as (n3 & Hn3 & Hd3 & Hl3 & H).
    apply pattern_tail_groups in H. destruct H as (g4' & H).
    injection H as -> -> -> _.
    repeat split; try assumption; lia.
  - apply pattern_tail_groups in H. destruct H as (g4' & H).
    injection H as -> -> -> _.
    repeat split; try assumption; lia.
Qed.

Lemma int_from_digits (s : str) (acc : Z) :
  all_decimal decimal s ->
  int_from decimal acc s = Ok (fold_left (fun a c => 10 * a + digit_value decimal c) s acc).
Proof.
  intros H. revert acc. induction H as [| c s Hc Hs IH]; intros acc; cbn.
  - reflexivity.
  - unfold is_decimal in Hc. unfold digit_value at 2.
    destruct (decimal c) as [d |]; [apply IH | discriminate].
Qed.

Lemma py_int_digits (s : str) :
  all_decimal decimal s -> s <> [] -> py_int decimal s = Ok (digits_value decimal s).
Proof.
  intros H Hne. unfold py_int, digits_value.
  destruct s; [contradiction | apply int_from_digits; exact H].
Qed.

Lemma all_decimal_zeros (k : nat) : all_decimal decimal (List.repeat 48%N k).
Proof.
  induction k; cbn; constructor; [| assumption].
  unfold is_decimal. rewrite decimal_zero. reflexivity.
Qed.

Lemma digits_value_zeros (s : str) (k : nat) :
  digits_value decimal (s ++ List.repeat 48%N k)
  = digits_value decimal s * 10 ^ Z.of_nat k.
Proof.
  unfold digits_value. rewrite fold_left_app.
  generalize (fold_left (fun a c => 10 * a + digit_value decimal c) s 0). intros v.
  revert v. induction k as [| k IH]; intros v.
  - cbn. lia.
  - cbn [List.repeat fold_left]. rewrite IH.
    unfold digit_value. rewrite decimal_zero.
    rewrite Nat2Z.inj_succ, Z.pow_succ_r by lia. lia.
Qed.

(** [ljust(3, "0")[:3]] on a field of one to three characters. *)
Lemma padded_field (f : str) :
  (1 <= List.length f <= 3)%nat ->
  firstn 3 (ljust f 3 48%N) = f ++ List.repeat 48%N (3 - List.length f).
Proof.
  intros Hf. unfold ljust, len.
  replace (Z.to_nat (3 - Z.of_nat (List.length f))) with (3 - List.length f)%nat by lia.
  apply firstn_all2. rewrite length_app, repeat_length. lia.
Qed.

Lemma nonempty_length {A} (l : list A) : (1 <= List.length l)%nat -> l <> [].
Proof. destruct l; cbn; [lia | discriminate]. Qed.

(** The loop body agrees with the conversion the specification words,
    and never raises. *)
Lemma parse_line_spec (raw : str) :
  parse_line decimal raw
  = Ok (option_map (line_of_groups decimal) (pattern_match decimal (strip raw))).
Proof.
  unfold parse_line.
  destruct (pattern_match decimal (strip raw)) as [[[[g1 g2] g3] g4] |] eqn:Hm;
    [| reflexivity].
  apply pattern_match_groups in Hm. destruct Hm as (Hd1 & Hl1 & Hd2 & Hl2 & H3).
  rewrite (py_int_digits g1 Hd1) by (apply nonempty_length; lia).
  rewrite (py_int_digits g2 Hd2) by (apply nonempty_length; lia).
  cbn [bind option_map line_of_groups].
  destruct g3 as [f |].
  - destruct H3 as (Hd3 & Hl3).
    destruct f as [| c r]; [cbn in Hl3; lia |].
    rewrite (padded_field (c :: r) Hl3).
    rewrite py_int_digits.
    + cbn [bind]. rewrite digits_value_zeros. unfold millis, len.
      replace (Z.of_nat (3 - List.length (c :: r))) with (3 - Z.of_nat (List.length (c :: r)))
        by lia.
      reflexivity.
    + apply Forall_app. split; [exact Hd3 | apply all_decimal_zeros].
    + discriminate.
  - change (firstn 3 (ljust (lit "0") 3 48%N)) with (List.repeat 48%N 3).
    rewrite py_int_digits by (try apply all_decimal_zeros; discriminate).
    cbn [bind].
    change (List.repeat 48%N 3) with ([] ++ List.repeat 48%N 3).
    rewrite digits_value_zeros. reflexivity.
Qed.

Lemma parse_lines_spec (raw_lines : list str) :
  parse_lines decimal raw_lines
  = Ok (List.map (line_of_groups decimal) (matched decimal raw_lines)).
Proof.
  induction raw_lines as [| raw rest IH]; cbn [parse_lines matched flat_map].
  - reflexivity.
  - fold (matched decimal rest). rewrite parse_line_spec, IH. cbn [bind].
    destruct (pattern_match decimal (strip raw)); reflexivity.
Qed.

Lemma length_matched (raw_lines : list str) :
  List.length (matched decimal raw_lines)
  = List.length (filter (is_match decimal) raw_lines).
Proof.
  induction raw_lines as [| raw rest IH]; cbn [matched flat_map filter].
  - reflexivity.
  - fold (matched decimal rest). unfold is_match at 1.
    destruct (pattern_match decimal (strip raw)); cbn; rewrite IH; reflexivity.
Qed.

Lemma In_matched (raw_lines : list str) (g : groups) :
  In g (matched decimal raw_lines) <->
  exists raw, In raw raw_lines /\ pattern_match decimal (strip raw) = Some g.
Proof.
  unfold matched. rewrite in_flat_map. split.
  - intros (raw & Hin & Hg). exists raw. split; [exact Hin |].
    destruct (pattern_match decimal (strip raw)) as [g' |]; [| contradiction].
    destruct Hg as [-> | []]. reflexivity.
  - intros (raw & Hin & Hg). exists raw. split; [exact Hin |].
    rewrite Hg. left. reflexivity.
Qed.

(** *** The sort *)

Lemma insert_by_time_perm (x : LyricLine) (l : list LyricLine) :
  Permutation (insert_by_time x l) (x :: l).
Proof.
  induction l as [| y l IH]; cbn.
  - apply Permutation_refl.
  - destruct (Qle_bool (time_s x) (time_s y)).
    + apply Permutation_refl.
    + eapply Permutation_trans; [apply perm_skip, IH | apply perm_swap].
Qed.

Lemma sort_by_time_perm (l : list LyricLine) : Permutation (sort_by_time l) l.
Proof.
  induction l as [| x l IH]; cbn.
  - apply Permutation_refl.
  - eapply Permutation_trans; [apply insert_by_time_perm | apply perm_skip, IH].
Qed.

Lemma Qle_bool_false (a b : Q) : Qle_bool a b = false -> (b <= a)%Q.
Proof.
  intros H. apply Qlt_le_weak, Qnot_le_lt. intros Hle.
  apply Qle_bool_iff in Hle. congruence.
Qed.

Lemma insert_by_time_sorted (x : LyricLine) (l : list LyricLine) :
  sorted_by_time l -> sorted_by_time (insert_by_time x l).
Proof.
  unfold sorted_by_time. induction l as [| y l IH]; intros Hs; cbn.
  - repeat constructor.
  - destruct (Qle_bool (time_s x) (time_s y)) eqn:E.
    + constructor; [exact Hs |]. constructor. apply Qle_bool_iff. exact E.
    + apply Sorted_inv in Hs. destruct Hs as [Hs Hhd].
      constructor; [apply IH; exact Hs |].
      destruct l as [| z l]; cbn.
      * constructor. apply Qle_bool_false. exact E.
      * destruct (Qle_bool (time_s x) (time_s z)).
        -- constructor. apply Qle_bool_false. exact E.
        -- constructor. apply HdRel_inv in Hhd. exact Hhd.
Qed.

Lemma sort_by_time_sorted (l : list LyricLine) : sorted_by_time (sort_by_time l).
Proof.
  induction l as [| x l IH]; cbn.
  - constructor.
  - apply insert_by_time_sorted. exact IH.
Qed.

(** Insertion does not reorder lines of one timestamp: the new line
    goes in front of the first line that is not earlier. *)
Lemma insert_by_time_stable (t : Q) (x : LyricLine) (l : list LyricLine) :
  filter (same_time t) (insert_by_time x l) = filter (same_time t) (x :: l).
Proof.
  induction l as [| y l IH]; [reflexivity |].
  cbn [insert_by_time]. destruct (Qle_bool (time_s x) (time_s y)) eqn:E; [reflexivity |].
  cbn [filter] in *. rewrite IH.
  destruct (same_time t y) eqn:Hy; [| reflexivity].
  destruct (same_time t x) eqn:Hx; [| reflexivity].
  exfalso. unfold same_time in *. apply Qeq_bool_iff in Hx, Hy.
  assert (Qle_bool (time_s x) (time_s y) = true); [| congruence].
  apply Qle_bool_iff. rewrite Hx, Hy. apply Qle_refl.
Qed.

Lemma sort_by_time_stable (t : Q) (l : list LyricLine) :
  filter (same_time t) (sort_by_time l) = filter (same_time t) l.
Proof.
  induction l as [| x l IH]; [reflexivity |].
  cbn [sort_by_time]. rewrite insert_by_time_stable. cbn [filter]. rewrite IH. reflexivity.
Qed.

(** C3.  In a matching line whose fraction field has fewer than three
    digits, the field is padded on the right with zeros to three digits
    before [int()] reads it, so it counts thousandths: its value times
    [10 ^ (3 - len)].  A field "5" gives 500 ms, not 5 ms, whatever the
    minutes and seconds are. *)
Theorem fraction_right_padded (raw g1 g2 f g4 : str) :
  pattern_match decimal (strip raw) = Some (g1, g2, Some f, g4) ->
  (List.length f < 3)%nat ->
  firstn 3 (ljust f 3 48%N) = f ++ List.repeat 48%N (3 - List.length f) /\
  py_int decimal (firstn 3 (ljust f 3 48%N))
    = Ok (digits_value decimal f * 10 ^ (3 - len f)) /\
  (exists l,
     parse_line decimal raw = Ok (Some l) /\
     time_s l
     = (inject_Z (digits_value decimal g1 * 60 + digits_value decimal g2)
        + inject_Z (digits_value decimal f * 10 ^ (3 - len f)) / inject_Z 1000)%Q /\
     (forall c, f = [c] -> decimal c = Some 5 ->
        time_s l
        = (inject_Z (digits_value decimal g1 * 60 + digits_value decimal g2)
           + inject_Z 500 / inject_Z 1000)%Q)) /\
  ~ (inject_Z 500 / inject_Z 1000 == inject_Z 5 / inject_Z 1000)%Q.
Proof.
  intros Hm Hshort.
  pose proof (pattern_match_groups _ _ _ _ _ Hm) as (_ & _ & _ & _ & Hd3 & Hl3).
  split; [apply padded_field; exact Hl3 |]. split; [| split].
  - rewrite (padded_field f Hl3), py_int_digits.
    + rewrite digits_value_zeros. unfold len.
      replace (Z.of_nat (3 - List.length f)) with (3 - Z.of_nat (List.length f)) by lia.
      reflexivity.
    + apply Forall_app. split; [exact Hd3 | apply all_decimal_zeros].
    + destruct f; [cbn in Hl3; lia | discriminate].
  - eexists. split; [rewrite parse_line_spec, Hm; reflexivity |].
    cbn [line_of_groups time_s millis]. split; [reflexivity |].
    intros c -> Hc. unfold digits_value at 3, digit_value. cbn [fold_left].
    rewrite Hc. reflexivity.
  - unfold Qeq. cbn. lia.
Qed.

(** C4.  [parse_lrc] raises on no input.  Its result has one line per
    input line matching the pattern, each the conversion of a match
    ([time_s = minutes*60 + seconds + fraction], text trimmed of
    whitespace at both ends); it is sorted non-decreasing by [time_s]
    and lines of one [time_s] are in input order.  Empty input gives
    the empty list. *)
Theorem parse_lrc_sorted_stable (lrc_text : str) :
  exists lines,
    parse_lrc decimal lrc_text = Ok lines /\
    List.length lines
      = List.length (filter (is_match decimal) (splitlines lrc_text)) /\
    Permutation lines
      (List.map (line_of_groups decimal) (matched decimal (splitlines lrc_text))) /\
    (forall l, In l lines ->
       exists raw g1 g2 g3 g4,
         In raw (splitlines lrc_text) /\
         pattern_match decimal (strip raw) = Some (g1, g2, g3, g4) /\
         py_int decimal g1 = Ok (digits_value decimal g1) /\
         py_int decimal g2 = Ok (digits_value decimal g2) /\
         time_s l
         = (inject_Z (digits_value decimal g1 * 60 + digits_value decimal g2)
            + inject_Z (millis decimal g3) / inject_Z 1000)%Q /\
         text l = strip g4 /\ trimmed (text l)) /\
    sorted_by_time lines /\
    (forall t, filter (same_time t) lines
               = filter (same_time t)
                   (List.map (line_of_groups decimal)
                             (matched decimal (splitlines lrc_text)))) /\
    parse_lrc decimal [] = Ok [].
Proof.
  exists (sort_by_time (List.map (line_of_groups decimal)
                                 (matched decimal (splitlines lrc_text)))).
  split; [| split; [| split; [| split; [| split; [| split]]]]].
  - unfold parse_lrc. rewrite parse_lines_spec. reflexivity.
  - rewrite (Permutation_length (sort_by_time_perm _)), length_map. apply length_matched.
  - apply sort_by_time_perm.
  - intros l Hl.
    apply (Permutation_in _ (sort_by_time_perm _)) in Hl.
    apply in_map_iff in Hl. destruct Hl as ([[[g1 g2] g3] g4] & <- & Hg).
    apply In_matched in Hg. destruct Hg as (raw & Hraw & Hm).
    pose proof (pattern_match_groups _ _ _ _ _ Hm) as (Hd1 & Hl1 & Hd2 & Hl2 & _).
    exists raw, g1, g2, g3, g4. split; [exact Hraw |]. split; [exact Hm |].
    split; [apply py_int_digits; [exact Hd1 | apply nonempty_length; lia] |].
    split; [apply py_int_digits; [exact Hd2 | apply nonempty_length; lia] |].
    split; [reflexivity |]. split; [reflexivity |].
    cbn [line_of_groups text]. apply strip_trimmed.
  - apply sort_by_time_sorted.
  - intros t. apply sort_by_time_stable.
  - reflexivity.
Qed.

End ParserProofs.

Lemma ascii_decimal_zero : ascii_decimal 48%N = Some 0.
Proof. reflexivity. Qed.

Lemma fraction_right_padded_witness :
  ascii_decimal 48%N = Some 0 /\
  pattern_match ascii_decimal (strip (lit " [03:07.5] la la "))
    = Some (lit "03", lit "07", Some (lit "5"), lit "la la") /\
  exists l, parse_line ascii_decimal (lit " [03:07.5] la la ") = Ok (Some l) /\
    time_s l = (inject_Z 187 + inject_Z 500 / inject_Z 1000)%Q.
Proof.
  assert (pattern_match ascii_decimal (strip (lit " [03:07.5] la la "))
          = Some (lit "03", lit "07", Some (lit "5"), lit "la la")) as Hm
    by (vm_compute; reflexivity).
  assert (List.length (lit "5") < 3)%nat as Hs by (cbn; lia).
  split; [exact ascii_decimal_zero |]. split; [exact Hm |].
  destruct (fraction_right_padded ascii_decimal ascii_decimal_zero _ _ _ _ _ Hm Hs)
    as (_ & _ & (l & Hl & _ & H5) & _).
  exists l. split; [exact Hl |].
  exact (H5 53%N eq_refl eq_refl).
Defined.

Lemma parse_lrc_sorted_stable_witness :
  ascii_decimal 48%N = Some 0 /\
  exists lines,
    parse_lrc ascii_decimal (lit "[00:01.5] a" ++ [10%N] ++ lit "[00:00:250] b")
      = Ok lines /\
    sorted_by_time lines.
Proof.
  split; [exact ascii_decimal_zero |].
  destruct (parse_lrc_sorted_stable ascii_decimal ascii_decimal_zero
              (lit "[00:01.5] a" ++ [10%N] ++ lit "[00:00:250] b"))
    as (lines & Hp & _ & _ & _ & Hs & _).
  exists lines. split; [exact Hp | exact Hs].
Defined.

(** ** Worked examples *)

Example parse_two_lines :
  parse_lrc ascii_decimal (lit "[00:01.5] a" ++ [10%N] ++ lit "[00:00:250] b")
  = Ok [ mkLyricLine (inject_Z 0 + inject_Z 250 / inject_Z 1000) (lit "b");
         mkLyricLine (inject_Z 1 + inject_Z 500 / inject_Z 1000) (lit "a") ].
Proof. vm_compute. reflexivity. Qed.

Example find_tied : _find_active_line ex_lines 2 = Ok 2.
Proof. reflexivity. Qed.

(** Lines of one timestamp stay in input order. *)
Example parse_keeps_input_order :
  parse_lrc ascii_decimal
    (lit "[00:01] x" ++ [10%N] ++ lit "[00:00] b" ++ [10%N] ++ lit "no stamp"
     ++ [10%N] ++ lit "[00:01.000] a")
  = Ok [ mkLyricLine (inject_Z 0 + inject_Z 0 / inject_Z 1000) (lit "b");
         mkLyricLine (inject_Z 1 + inject_Z 0 / inject_Z 1000) (lit "x");
         mkLyricLine (inject_Z 1 + inject_Z 0 / inject_Z 1000) (lit "a") ].
Proof. vm_compute. reflexivity. Qed.

(** An active line without text prints nothing and is still recorded. *)
Example pipe_tick_empty_text :
  pipe_tick [mkLyricLine 0 (lit "a"); mkLyricLine 2 []] ex_now ex_env false 0 ex_world
  = (ex_world, Ok (Continue false 1)).
Proof. reflexivity. Qed.

(* ================================================================== *)
(** * Further properties of the code *)

(** ** The render loop between song changes *)

Lemma write_diff_self (out : list OutEvent) (frame : list str) :
  _write_diff out frame frame false = out.
Proof. rewrite write_diff_changed_rows, changed_rows_self. reflexivity. Qed.

Lemma build_frame_nonempty (lines : list LyricLine) (active_idx : Z) (now : NowPlaying)
    (w h : Z) :
  _build_frame lines active_idx now w h <> [].
Proof.
  destruct (build_frame_rows lines active_idx now w h) as (header & _ & ->). discriminate.
Qed.

Lemma tick_same_song_eq (env : TickEnv) (st : RenderState) (wd : World) :
  (forall now, env_now env = Ok (Some now) ->
     song_changed now (current_info st) = false) ->
  tick env st wd =
  match env_now env with
  | Raise e => (wd, Raise e)
  | Ok None =>
      tick_no_player (fst (_term_size (env_size env))) (snd (_term_size (env_size env)))
                     (deliver_signals env st) wd
  | Ok (Some now) =>
      match current_lines st with
      | None =>
          tick_no_lyrics now (fst (_term_size (env_size env)))
                         (snd (_term_size (env_size env))) (deliver_signals env st) wd
      | Some lines =>
          tick_lyrics lines now (fst (_term_size (env_size env)))
                      (snd (_term_size (env_size env))) (deliver_signals env st) wd
      end
  end.
Proof.
  intros Hsame. unfold tick. destruct (_term_size (env_size env)) as [w h]. cbn [fst snd].
  destruct (env_now env) as [[now |] | e]; try reflexivity.
  rewrite tick_deliver_info, (Hsame now eq_refl). reflexivity.
Qed.

(** What a pass without song change does, by the frame it is about:
    it writes the rows of the frame that differ from the previous frame
    (all of them on a redraw request), keeps the frame, and clears the
    request, except that a lyric pass on the line already shown, with no
    request pending, does nothing at all. *)
Lemma tick_same_song_frame (env : TickEnv) (st : RenderState) (wd : World) (frame : list str) :
  (forall now, env_now env = Ok (Some now) ->
     song_changed now (current_info st) = false) ->
  pass_frame env st = Some frame ->
  let redraw := needs_redraw st || env_sigwinch env in
  let skipped :=
    match env_now env, current_lines st with
    | Ok (Some now), Some lines =>
        match _find_active_line lines (position_s now) with
        | Ok active_idx => (active_idx =? previous_idx st) && negb redraw
        | Raise _ => false
        end
    | _, _ => false
    end in
  exists st',
    snd (tick env st wd) = Ok st' /\
    interrupted st' = interrupted st || env_sigint env /\
    current_lines st' = current_lines st /\
    current_info st' = current_info st /\
    (forall now lines active_idx,
       env_now env = Ok (Some now) -> current_lines st = Some lines ->
       _find_active_line lines (position_s now) = Ok active_idx ->
       previous_idx st' = active_idx) /\
    (skipped = true ->
       fst (tick env st wd) = wd /\ prev_frame st' = prev_frame st /\
       previous_idx st' = previous_idx st /\ needs_redraw st' = false) /\
    (skipped = false ->
       stdout (fst (tick env st wd)) = _write_diff (stdout wd) (prev_frame st) frame redraw /\
       fetch_calls (fst (tick env st wd)) = fetch_calls wd /\
       prev_frame st' = frame /\ needs_redraw st' = false).
Proof.
  intros Hsame Hframe redraw skipped.
  rewrite (tick_same_song_eq env st wd Hsame).
  unfold pass_frame in Hframe. subst skipped.
  destruct (_term_size (env_size env)) as [w h]. cbn [fst snd].
  destruct (env_now env) as [[now |] | e]; [| | discriminate].
  - destruct (current_lines st) as [lines |] eqn:Hlines.
    + unfold tick_lyrics.
      destruct (_find_active_line lines (position_s now)) as [active_idx | e] eqn:Hfind;
        [| discriminate].
      injection Hframe as <-.
      change (previous_idx (deliver_signals env st)) with (previous_idx st).
      change (needs_redraw (deliver_signals env st)) with redraw.
      assert (forall now' lines' a,
                Ok (Some now) = Ok (Some now') -> Some lines = Some lines' ->
                _find_active_line lines' (position_s now') = Ok a -> active_idx = a) as Hidx'.
      { intros now' lines' a E1 E2 E3. injection E1 as <-. injection E2 as <-. congruence. }
      destruct (active_idx =? previous_idx st) eqn:Hidx; cbn [negb andb orb].
      * destruct redraw eqn:Hr; cbn [negb].
        -- eexists. split; [reflexivity |]. cbn.
           repeat split; try assumption; try discriminate; reflexivity.
        -- eexists. split; [reflexivity |]. cbn. apply Z.eqb_eq in Hidx.
           repeat split; try assumption; try discriminate; reflexivity.
      * eexists. split; [reflexivity |]. cbn.
        repeat split; try assumption; try discriminate; reflexivity.
    + injection Hframe as <-. eexists. split; [reflexivity |]. cbn.
      repeat split; try assumption; try discriminate; reflexivity.
  - injection Hframe as <-. eexists. split; [reflexivity |]. cbn.
    repeat split; try assumption; try discriminate; reflexivity.
Qed.

Lemma pass_frame_defined (env : TickEnv) (st : RenderState) (src : option NowPlaying) :
  env_now env = Ok src ->
  exists frame, pass_frame env st = Some frame /\ frame <> [].
Proof.
  intros Hnow. unfold pass_frame. destruct (_term_size (env_size env)) as [w h].
  rewrite Hnow. destruct src as [now |].
  - destruct (current_lines st) as [lines |].
    + destruct (find_active_line_total lines (position_s now)) as (r & -> & _).
      eexists. split; [reflexivity | apply build_frame_nonempty].
    + eexists. split; [reflexivity | apply build_status_nonempty].
  - eexists. split; [reflexivity | apply build_status_nonempty].
Qed.

(** X1.  A redraw request, pending from the start or a song change or
    raised by SIGWINCH during the sleep, is served by the next pass
    that is not a song change: the pass writes every row of its frame
    in one synchronised write, flushes, and clears the request. *)
Theorem redraw_request_repaints (env : TickEnv) (st : RenderState) (wd : World)
    (src : option NowPlaying) :
  env_now env = Ok src ->
  (forall now, src = Some now -> song_changed now (current_info st) = false) ->
  needs_redraw st || env_sigwinch env = true ->
  exists frame st',
    pass_frame env st = Some frame /\
    snd (tick env st wd) = Ok st' /\
    stdout (fst (tick env st wd))
    = stdout wd
      ++ [Write (_SYNC_START
                 ++ List.concat (List.map (fun e => _move (fst e + 1) 1 ++ snd e)
                                          (enumerate frame))
                 ++ _SYNC_END);
          Flush] /\
    prev_frame st' = frame /\
    needs_redraw st' = false.
Proof.
  intros Hnow Hsame Hredraw.
  destruct (pass_frame_defined env st src Hnow) as (frame & Hframe & Hne).
  assert (forall now, env_now env = Ok (Some now) ->
            song_changed now (current_info st) = false) as Hsame'.
  { intros now E. apply Hsame. rewrite Hnow in E. injection E as ->. reflexivity. }
  destruct (tick_same_song_frame env st wd frame Hsame' Hframe)
    as (st' & Hst' & _ & _ & _ & _ & _ & Hshown).
  rewrite Hredraw in Hshown.
  assert (match env_now env, current_lines st with
          | Ok (Some now), Some lines =>
              match _find_active_line lines (position_s now) with
              | Ok active_idx => (active_idx =? previous_idx st) && negb true
              | Raise _ => false
              end
          | _, _ => false
          end = false) as Hskip.
  { destruct (env_now env) as [[now |] | e]; try reflexivity.
    destruct (current_lines st); try reflexivity.
    destruct (_find_active_line _ _); [apply andb_false_r | reflexivity]. }
  destruct (Hshown Hskip) as (Hout & _ & Hprev & Hred).
  exists frame, st'. repeat split; try assumption.
  rewrite Hout. apply write_diff_force. exact Hne.
Qed.

Lemma redraw_request_repaints_witness :
  env_now ex_env = Ok (Some ex_now) /\
  exists frame st',
    pass_frame ex_env (mkRenderState false true (Some ex_lines) ex_now 2 []) = Some frame /\
    snd (tick ex_env (mkRenderState false true (Some ex_lines) ex_now 2 []) ex_world) = Ok st' /\
    needs_redraw st' = false.
Proof.
  split; [reflexivity |].
  destruct (redraw_request_repaints ex_env (mkRenderState false true (Some ex_lines) ex_now 2 [])
              ex_world (Some ex_now) eq_refl)
    as (frame & st' & Hf & Hs & _ & _ & Hr).
  - intros now E. injection E as <-. reflexivity.
  - reflexivity.
  - exists frame, st'. split; [exact Hf |]. split; [exact Hs | exact Hr].
Defined.

(** X2.  A lyric pass writes nothing and keeps its state when the
    locator answers the line already shown and no redraw is pending,
    however far the position moved within the line: the clock in the
    header is refreshed only when the active line changes or a redraw
    is requested. *)
Theorem same_line_pass_is_silent (env : TickEnv) (st : RenderState) (wd : World)
    (now : NowPlaying) (lines : list LyricLine) :
  env_now env = Ok (Some now) ->
  song_changed now (current_info st) = false ->
  current_lines st = Some lines ->
  _find_active_line lines (position_s now) = Ok (previous_idx st) ->
  needs_redraw st = false ->
  env_sigwinch env = false ->
  exists st',
    tick env st wd = (wd, Ok st') /\
    prev_frame st' = prev_frame st /\
    previous_idx st' = previous_idx st /\
    needs_redraw st' = false /\
    current_lines st' = current_lines st /\
    current_info st' = current_info st.
Proof.
  intros Hnow Hsame Hlines Hfind Hred Hwinch.
  assert (forall now', env_now env = Ok (Some now') ->
            song_changed now' (current_info st) = false) as Hsame'.
  { intros now' E. rewrite Hnow in E. injection E as <-. exact Hsame. }
  destruct (pass_frame_defined env st (Some now) Hnow) as (frame & Hframe & _).
  destruct (tick_same_song_frame env st wd frame Hsame' Hframe)
    as (st' & Hst' & _ & Hl & Hi & _ & Hskipped & _).
  rewrite Hnow, Hlines, Hfind, Hred, Hwinch, Z.eqb_refl in Hskipped.
  destruct (Hskipped eq_refl) as (Hwd & Hprev & Hidx & Hnr).
  exists st'. split; [| repeat split; assumption].
  destruct (tick env st wd) as [wd1 r]. cbn [fst snd] in *. congruence.
Qed.

Lemma same_line_pass_is_silent_witness :
  exists st',
    tick ex_env (mkRenderState false false (Some ex_lines) ex_now 2 []) ex_world
    = (ex_world, Ok st') /\
    previous_idx st' = 2.
Proof.
  destruct (same_line_pass_is_silent ex_env
              (mkRenderState false false (Some ex_lines) ex_now 2 []) ex_world
              ex_now ex_lines eq_refl eq_refl eq_refl eq_refl eq_refl eq_refl)
    as (st' & Ht & _ & Hidx & _).
  exists st'. split; [exact Ht | exact Hidx].
Defined.

(** X3.  Two passes in a row that meet the same playback answer and
    terminal size, the first not a song change and the second without
    SIGWINCH: the second writes nothing.  An idle display costs no
    output. *)
Theorem idle_pass_is_silent (env env' : TickEnv) (st st1 : RenderState) (wd wd1 : World) :
  tick env st wd = (wd1, Ok st1) ->
  (forall now, env_now env = Ok (Some now) ->
     song_changed now (current_info st) = false) ->
  env_now env' = env_now env ->
  env_size env' = env_size env ->
  env_sigwinch env' = false ->
  exists st2,
    snd (tick env' st1 wd1) = Ok st2 /\
    stdout (fst (tick env' st1 wd1)) = stdout wd1 /\
    fetch_calls (fst (tick env' st1 wd1)) = fetch_calls wd1 /\
    prev_frame st2 = prev_frame st1.
Proof.
  intros Htick Hsame Hnow' Hsize' Hwinch'.
  assert (exists src, env_now env = Ok src) as (src & Hnow).
  { pose proof (tick_same_song_eq env st wd Hsame) as E. rewrite Htick in E.
    destruct (env_now env); [eexists; reflexivity | discriminate]. }
  destruct (pass_frame_defined env st src Hnow) as (frame & Hframe & _).
  destruct (tick_same_song_frame env st wd frame Hsame Hframe)
    as (st' & Hst' & _ & Hl & Hi & Hidx & Hskipped & Hshown).
  rewrite Htick in Hst', Hskipped, Hshown. cbn [fst snd] in *.
  injection Hst' as <-.
  assert (needs_redraw st1 = false) as Hnr.
  { match type of Hskipped with
    | ?sk = true -> _ => destruct sk; [apply Hskipped | apply Hshown]; reflexivity
    end. }
  assert (forall now, env_now env' = Ok (Some now) ->
            song_changed now (current_info st1) = false) as Hsame1.
  { intros now E. rewrite Hi. apply Hsame. rewrite <- Hnow'. exact E. }
  assert (pass_frame env' st1 = Some frame) as Hframe1.
  { unfold pass_frame in *. rewrite Hsize', Hnow', Hl. exact Hframe. }
  destruct (tick_same_song_frame env' st1 wd1 frame Hsame1 Hframe1)
    as (st2 & Hst2 & _ & _ & _ & _ & Hskipped2 & Hshown2).
  exists st2. split; [exact Hst2 |].
  rewrite Hnow', Hl, Hnr, Hwinch' in Hskipped2, Hshown2. cbn [orb negb] in *.
  rewrite Hnow in *.
  unfold pass_frame in Hframe. destruct (_term_size (env_size env)) as [w h].
  rewrite Hnow in Hframe.
  destruct src as [now |].
  - destruct (current_lines st) as [lines |].
    + destruct (_find_active_line lines (position_s now)) as [active_idx | e] eqn:Hfind;
        [| discriminate].
      rewrite (Hidx now lines active_idx eq_refl eq_refl Hfind), Z.eqb_refl in Hskipped2.
      destruct (Hskipped2 eq_refl) as (Hwd & Hp2 & _).
      rewrite Hwd. repeat split; try reflexivity. exact Hp2.
    + destruct (Hshown eq_refl) as (_ & _ & Hp & _).
      destruct (Hshown2 eq_refl) as (Hout & Hfc & Hp2 & _).
      rewrite Hp, write_diff_self in Hout.
      repeat split; try assumption. congruence.
  - destruct (Hshown eq_refl) as (_ & _ & Hp & _).
    destruct (Hshown2 eq_refl) as (Hout & Hfc & Hp2 & _).
    rewrite Hp, write_diff_self in Hout.
    repeat split; try assumption. congruence.
Qed.

Lemma idle_pass_is_silent_witness :
  tick ex_env (initial_state (Some ex_lines) ex_now) ex_world
    = (fst (tick ex_env (initial_state (Some ex_lines) ex_now) ex_world), Ok ex_shown) /\
  exists st2,
    snd (tick ex_env ex_shown
              (fst (tick ex_env (initial_state (Some ex_lines) ex_now) ex_world))) = Ok st2 /\
    stdout (fst (tick ex_env ex_shown
                      (fst (tick ex_env (initial_state (Some ex_lines) ex_now) ex_world))))
    = stdout (fst (tick ex_env (initial_state (Some ex_lines) ex_now) ex_world)).
Proof.
  assert (tick ex_env (initial_state (Some ex_lines) ex_now) ex_world
          = (fst (tick ex_env (initial_state (Some ex_lines) ex_now) ex_world), Ok ex_shown))
    as Ht by (vm_compute; reflexivity).
  split; [exact Ht |].
  destruct (idle_pass_is_silent ex_env ex_env _ _ _ _ Ht) as (st2 & Hs & Hout & _).
  - intros now E. injection E as <-. reflexivity.
  - reflexivity.
  - reflexivity.
  - reflexivity.
  - exists st2. split; [exact Hs | exact Hout].
Defined.

(** ** The session as a whole *)

(** The world [display_lyrics] hands to its loop. *)
Lemma display_lyrics_unfold (lines : option (list LyricLine)) (initial_info : NowPlaying)
    (sched : list TickEnv) (wd : World) :
  exists wd1,
    stdout wd1 = stdout wd ++ [Write _HIDE_CURSOR; Write _CLEAR; Flush] /\
    stdin_attrs wd1 = option_map setcbreak (stdin_attrs wd) /\
    sigint_handler wd1 = IntHandler /\ sigwinch_handler wd1 = WinchHandler /\
    fetch_calls wd1 = fetch_calls wd /\
    display_lyrics lines initial_info sched wd =
    match run_loop sched (initial_state lines initial_info) wd1 with
    | (wd2, Running) => (wd2, Running)
    | (wd2, outcome) =>
        (restore (stdin_attrs wd) (sigint_handler wd) (sigwinch_handler wd) wd2, outcome)
    end.
Proof.
  exists (out_flush (out_write _CLEAR (out_write _HIDE_CURSOR
            match stdin_attrs wd with
            | Some a => with_attrs (Some (setcbreak a))
                          (with_handlers IntHandler WinchHandler wd)
            | None => with_handlers IntHandler WinchHandler wd
            end))).
  split; [| split; [| split; [| split; [| split]]]].
  - destruct (stdin_attrs wd); cbn; rewrite <- !app_assoc; reflexivity.
  - destruct (stdin_attrs wd) eqn:E; cbn; [reflexivity | exact E].
  - destruct (stdin_attrs wd); reflexivity.
  - destruct (stdin_attrs wd); reflexivity.
  - destruct (stdin_attrs wd); reflexivity.
  - unfold display_lyrics, initial_state. reflexivity.
Qed.

(** X4.  [display_lyrics] starts by hiding the cursor, clearing the
    screen and flushing, and from then on only appends to the output.
    While its loop runs, the input is in cbreak mode (no echo, no line
    buffering) exactly when it is a terminal, and the two handlers in
    force are the loop's own. *)
Theorem session_entry (lines : option (list LyricLine)) (initial_info : NowPlaying)
    (sched : list TickEnv) (wd : World) :
  let wd' := fst (display_lyrics lines initial_info sched wd) in
  (exists evs,
     stdout wd' = stdout wd ++ [Write _HIDE_CURSOR; Write _CLEAR; Flush] ++ evs) /\
  (snd (display_lyrics lines initial_info sched wd) = Running ->
     stdin_attrs wd' = option_map setcbreak (stdin_attrs wd) /\
     (forall a, stdin_attrs wd' = Some a -> echo a = false /\ icanon a = false) /\
     sigint_handler wd' = IntHandler /\
     sigwinch_handler wd' = WinchHandler).
Proof.
  destruct (display_lyrics_unfold lines initial_info sched wd)
    as (wd1 & Hout1 & Hattr1 & Hint1 & Hwinch1 & _ & ->).
  pose proof (run_loop_extends sched (initial_state lines initial_info) wd1)
    as (Hattr2 & Hint2 & Hwinch2 & (evs & Hout2) & _).
  destruct (run_loop sched (initial_state lines initial_info) wd1) as [wd2 outcome].
  cbn [fst] in *.
  assert (stdout (restore (stdin_attrs wd) (sigint_handler wd) (sigwinch_handler wd) wd2)
          = stdout wd ++ [Write _HIDE_CURSOR; Write _CLEAR; Flush]
            ++ (evs ++ [Write _SHOW_CURSOR; Write _CLEAR; Flush])) as Hleft.
  { rewrite (proj1 (restore_spec _ _ _ _)), Hout2, Hout1, <- !app_assoc. reflexivity. }
  destruct outcome as [| e |]; cbn [fst snd].
  - split; [eexists; exact Hleft | discriminate].
  - split; [eexists; exact Hleft | discriminate].
  - split.
    + exists evs. rewrite Hout2, Hout1, <- !app_assoc. reflexivity.
    + intros _. split; [congruence |]. split; [| split; congruence].
      intros a Ha. rewrite Hattr2, Hattr1 in Ha.
      destruct (stdin_attrs wd); cbn in Ha; [| discriminate].
      injection Ha as <-. split; reflexivity.
Qed.

Lemma run_loop_fetches (sched : list TickEnv) (st : RenderState) (wd : World) :
  Forall (fun env => forall now, env_now env = Ok (Some now) ->
            song_changed now (current_info st) = false) sched ->
  fetch_calls (fst (run_loop sched st wd)) = fetch_calls wd.
Proof.
  intros Hall. revert st wd Hall. induction sched as [| env rest IH]; intros st wd Hall;
    cbn [run_loop].
  - destruct (interrupted st); reflexivity.
  - destruct (interrupted st); [reflexivity |].
    apply Forall_cons_iff in Hall. destruct Hall as [Henv Hrest].
    destruct (tick_same_song env st wd Henv) as (Hfc & Hinfo).
    destruct (tick env st wd) as [wd1 [st1 | e]]; cbn [fst snd] in *; [| exact Hfc].
    rewrite IH; [exact Hfc |].
    rewrite (Hinfo st1 eq_refl). exact Hrest.
Qed.

(** X5.  A session in which every answer of the playback source is
    either absent or the song it started with never calls
    [fetch_lyrics], whatever the positions, pauses, resizes and
    interrupts: lyrics are fetched once per song, not per pass. *)
Theorem one_song_session_never_fetches (lines : option (list LyricLine))
    (initial_info : NowPlaying) (sched : list TickEnv) (wd : World) :
  Forall (fun env => forall now, env_now env = Ok (Some now) ->
            (title now, artist now) = (title initial_info, artist initial_info)) sched ->
  fetch_calls (fst (display_lyrics lines initial_info sched wd)) = fetch_calls wd.
Proof.
  intros Hall.
  destruct (display_lyrics_unfold lines initial_info sched wd)
    as (wd1 & _ & _ & _ & _ & Hfc1 & ->).
  assert (fetch_calls (fst (run_loop sched (initial_state lines initial_info) wd1))
          = fetch_calls wd) as Hfc.
  { rewrite run_loop_fetches; [exact Hfc1 |].
    eapply Forall_impl; [| exact Hall]. cbn. intros env H now E.
    apply song_unchanged_iff. apply H. exact E. }
  destruct (run_loop sched (initial_state lines initial_info) wd1) as [wd2 [| e |]];
    cbn [fst] in *; try exact Hfc;
    unfold restore; destruct (stdin_attrs wd); exact Hfc.
Qed.

Lemma one_song_session_never_fetches_witness :
  Forall (fun env => forall now, env_now env = Ok (Some now) ->
            (title now, artist now) = (title ex_now, artist ex_now))
         [ex_env; ex_failure; ex_interrupt] /\
  fetch_calls (fst (display_lyrics (Some ex_lines) ex_now
                                   [ex_env; ex_failure; ex_interrupt] ex_world))
  = fetch_calls ex_world.
Proof.
  assert (Forall (fun env => forall now, env_now env = Ok (Some now) ->
                    (title now, artist now) = (title ex_now, artist ex_now))
                 [ex_env; ex_failure; ex_interrupt]) as H.
  { repeat constructor; intros now E; try discriminate; injection E as <-; reflexivity. }
  split; [exact H |].
  exact (one_song_session_never_fetches (Some ex_lines) ex_now _ ex_world H).
Defined.

Lemma tick_lines_in_step (env : TickEnv) (st st' : RenderState) (wd : World) :
  lines_in_step st -> snd (tick env st wd) = Ok st' -> lines_in_step st'.
Proof.
  intros (Hne & Hidx) Ht.
  destruct (env_now env) as [[now |] | e] eqn:Hnow.
  - destruct (song_changed now (current_info st)) eqn:Hsc.
    + unfold tick in Ht. destruct (_term_size (env_size env)) as [w h].
      rewrite Hnow, tick_deliver_info, Hsc, tick_song_changed_eq in Ht. cbn [snd] in Ht.
      destruct (env_fetch env) as [fetched | e]; [| discriminate].
      injection Ht as <-. split; cbn.
      * destruct fetched as [[| l ls] |]; discriminate.
      * left. reflexivity.
    + rewrite tick_same_song_eq, Hnow in Ht
        by (intros now' E; rewrite Hnow in E; injection E as <-; exact Hsc).
      destruct (current_lines st) as [lines |] eqn:Hlines.
      * unfold tick_lyrics in Ht.
        assert (lines <> []) as Hlne by (intros ->; apply Hne; reflexivity).
        destruct (find_active_line_in_range lines (position_s now) Hlne)
          as (r & l & Hfind & Hr & _).
        rewrite Hfind in Ht.
        destruct (negb (r =? previous_idx (deliver_signals env st))
                  || needs_redraw (deliver_signals env st));
          unfold show_frame in Ht; cbn [snd] in Ht; injection Ht as <-;
          unfold lines_in_step; simpl (current_lines _); simpl (previous_idx _);
          (split; [congruence |]);
          right; exists lines; (split; [exact Hlines | lia]).
      * unfold tick_no_lyrics, show_frame in Ht. cbn [snd] in Ht. injection Ht as <-.
        unfold lines_in_step; simpl (current_lines _); simpl (previous_idx _). split; [congruence |].
        destruct Hidx as [Hidx | (lines & Hl & _)]; [left; exact Hidx | congruence].
  - rewrite tick_same_song_eq, Hnow in Ht
      by (intros now' E; rewrite Hnow in E; discriminate).
    unfold tick_no_player, show_frame in Ht. cbn [snd] in Ht. injection Ht as <-.
    unfold lines_in_step; simpl (current_lines _); simpl (previous_idx _). split; [exact Hne | exact Hidx].
  - rewrite tick_same_song_eq, Hnow in Ht
      by (intros now' E; rewrite Hnow in E; discriminate).
    discriminate.
Qed.

Lemma loop_states_in_step (sched : list TickEnv) (st : RenderState) (wd : World) :
  lines_in_step st -> Forall lines_in_step (loop_states sched st wd).
Proof.
  revert st wd. induction sched as [| env rest IH]; intros st wd Hst; cbn [loop_states].
  - constructor; [exact Hst |]. destruct (interrupted st); constructor.
  - constructor; [exact Hst |]. destruct (interrupted st); [constructor |].
    pose proof (tick_lines_in_step env st) as Hstep.
    destruct (tick env st wd) as [wd1 [st1 | e]] eqn:Ht; [| constructor].
    apply IH. apply (Hstep st1 wd Hst). rewrite Ht. reflexivity.
Qed.

(** X6.  Started the way cli.py starts it, with [lyrics if lyrics else
    None], the render loop never holds an empty list of lines, and the
    index of the line last shown is always -1 or an index of the lines
    at hand: the locator is always asked about a list with a line, and
    the highlighted row is always a real line. *)
Theorem lines_stay_in_step (lyrics : option (list LyricLine)) (initial_info : NowPlaying)
    (sched : list TickEnv) (wd : World) :
  Forall (fun st =>
            current_lines st <> Some [] /\
            (previous_idx st = -1 \/
             exists lines, current_lines st = Some lines /\
               0 <= previous_idx st < len lines))
         (loop_states sched (initial_state (lyrics_or_none lyrics) initial_info) wd).
Proof.
  apply loop_states_in_step. split; cbn.
  - destruct lyrics as [[| l ls] |]; discriminate.
  - left. reflexivity.
Qed.

(** ** Pipe mode *)

Lemma py_index_In {A} (l : list A) (i : Z) (x : A) : py_index l i = Ok x -> In x l.
Proof.
  unfold py_index. destruct (_ && _); [| discriminate].
  destruct (nth_error l _) as [y |] eqn:E; [| discriminate].
  intros H. injection H as <-. eapply nth_error_In. exact E.
Qed.

Lemma pipe_extends_refl (lines : list LyricLine) (wd : World) : pipe_extends lines wd wd.
Proof.
  repeat split; try reflexivity. exists []. split; [| constructor].
  cbn. symmetry. apply app_nil_r.
Qed.

Lemma pipe_extends_trans (lines : list LyricLine) (a b c : World) :
  pipe_extends lines a b -> pipe_extends lines b c -> pipe_extends lines a c.
Proof.
  intros ((p1 & Ho1 & Hp1) & Ha1 & Hi1 & Hw1 & Hf1) ((p2 & Ho2 & Hp2) & Ha2 & Hi2 & Hw2 & Hf2).
  repeat split; try congruence.
  exists (p1 ++ p2). split.
  - rewrite Ho2, Ho1, flat_map_app, app_assoc. reflexivity.
  - apply Forall_app. split; assumption.
Qed.

Lemma pipe_tick_extends (lines : list LyricLine) (initial_info : NowPlaying)
    (env : TickEnv) (intr : bool) (prev : Z) (wd : World) :
  pipe_extends lines wd (fst (pipe_tick lines initial_info env intr prev wd)).
Proof.
  unfold pipe_tick.
  destruct (env_now env) as [[now |] | e]; try apply pipe_extends_refl.
  destruct (song_changed now initial_info); [apply pipe_extends_refl |].
  destruct (negb (is_playing now)); [apply pipe_extends_refl |].
  destruct (_find_active_line lines (position_s now)) as [active_idx | e];
    [| apply pipe_extends_refl].
  destruct (negb (active_idx =? prev)); [| apply pipe_extends_refl].
  destruct (py_index lines active_idx) as [l | e] eqn:El; [| apply pipe_extends_refl].
  apply py_index_In in El. cbn [fst].
  destruct (text l) as [| c r] eqn:Ht; [apply pipe_extends_refl |].
  repeat split; try reflexivity.
  exists [l]. split.
  - cbn. rewrite Ht, <- app_assoc. reflexivity.
  - constructor; [| constructor]. split; [exact El | rewrite Ht; discriminate].
Qed.

Lemma pipe_loop_extends (lines : list LyricLine) (initial_info : NowPlaying)
    (sched : list TickEnv) (intr : bool) (prev : Z) (wd : World) :
  pipe_extends lines wd (fst (pipe_loop lines initial_info sched intr prev wd)).
Proof.
  revert intr prev wd. induction sched as [| env rest IH]; intros intr prev wd;
    cbn [pipe_loop].
  - destruct intr; apply pipe_extends_refl.
  - destruct intr; [apply pipe_extends_refl |].
    pose proof (pipe_tick_extends lines initial_info env false prev wd) as Ht.
    destruct (pipe_tick lines initial_info env false prev wd) as [wd1 [[i p |] | e]];
      cbn [fst] in *; try exact Ht.
    eapply pipe_extends_trans; [exact Ht | apply IH].
Qed.

(** X7.  Pipe mode writes nothing but lyric lines: everything
    [display_pipe] sends to the output is the text of a line of the
    lyrics, never an empty one, each followed by a newline and a flush.
    It leaves the terminal mode, the SIGWINCH handler and the log of
    fetches alone, and when it is left, by return or by an exception,
    the SIGINT handler is the one found on entry. *)
Theorem pipe_prints_only_lyrics (lines : list LyricLine) (initial_info : NowPlaying)
    (sched : list TickEnv) (wd : World) :
  let wd' := fst (display_pipe lines initial_info sched wd) in
  (exists printed,
     stdout wd' = stdout wd
                  ++ flat_map (fun l => [Write (text l ++ [10%N]); Flush]) printed /\
     Forall (fun l => In l lines /\ text l <> []) printed) /\
  stdin_attrs wd' = stdin_attrs wd /\
  sigwinch_handler wd' = sigwinch_handler wd /\
  fetch_calls wd' = fetch_calls wd /\
  (snd (display_pipe lines initial_info sched wd) <> Running ->
     sigint_handler wd' = sigint_handler wd) /\
  (snd (display_pipe lines initial_info sched wd) = Running ->
     sigint_handler wd' = IntHandler).
Proof.
  unfold display_pipe.
  pose proof (pipe_loop_extends lines initial_info sched false (-1)
                (with_handlers IntHandler (sigwinch_handler wd) wd))
    as (Hout & Ha & Hi & Hw & Hf).
  destruct (pipe_loop lines initial_info sched false (-1)
              (with_handlers IntHandler (sigwinch_handler wd) wd)) as [wd2 outcome].
  cbn [fst] in *.
  destruct outcome as [| e |]; cbn [fst snd with_handlers stdout stdin_attrs
                                     sigint_handler sigwinch_handler fetch_calls] in *;
    repeat split; try assumption; try congruence; try discriminate; try reflexivity.
Qed.

Lemma behaves_pipe_tick (lines : list LyricLine) (initial_info : NowPlaying)
    (env : TickEnv) (intr : bool) (prev : Z) :
  lines <> [] ->
  behaves (fun e => env_now env = Raise e)
          (Fallible.pipe_tick lines initial_info env intr prev).
Proof.
  intros Hne. unfold Fallible.pipe_tick.
  apply behaves_lift_then; [intros e E; exact E |].
  intros [now |] _; [| apply behaves_ret].
  destruct (song_changed now initial_info); [apply behaves_ret |].
  destruct (negb (is_playing now)); [apply behaves_ret |].
  destruct (find_active_line_in_range lines (position_s now) Hne) as (r & l & Hr & _ & Hl).
  apply behaves_lift_then; [intros e E; congruence |].
  intros a Ha. assert (a = r) as -> by congruence.
  destruct (negb (r =? prev)); [| apply behaves_ret].
  apply behaves_lift_then; [intros e E; congruence |].
  intros l' _. apply behaves_then; [| apply behaves_ret].
  destruct (text l'); [apply behaves_ret |].
  unfold Fallible.print_flush.
  apply behaves_then; [apply behaves_out_call |].
  apply behaves_then; apply behaves_out_call.
Qed.

Lemma yields_pipe_tick (lines : list LyricLine) (initial_info : NowPlaying)
    (env : TickEnv) (intr : bool) (prev : Z) :
  yields (fun step =>
            match step with
            | Return =>
                exists now, env_now env = Ok (Some now) /\
                  song_changed now initial_info = true
            | Continue i _ =>
                i = intr || env_sigint env /\
                (env_now env = Ok None \/
                 exists now, env_now env = Ok (Some now) /\
                   song_changed now initial_info = false)
            end)
         (Fallible.pipe_tick lines initial_info env intr prev).
Proof.
  unfold Fallible.pipe_tick.
  eapply yields_and_then with (mid := fun now => env_now env = Ok now).
  { apply yields_lift. intros a E. exact E. }
  intros [now |] Hnow; [| apply yields_ret; split; [reflexivity | left; exact Hnow]].
  destruct (song_changed now initial_info) eqn:Hsc.
  { apply yields_ret. exists now. split; [exact Hnow | exact Hsc]. }
  assert (env_now env = Ok None \/
          exists n, env_now env = Ok (Some n) /\ song_changed n initial_info = false)
    as Hsame by (right; exists now; split; [exact Hnow | exact Hsc]).
  destruct (negb (is_playing now)); [apply yields_ret; split; [reflexivity | exact Hsame] |].
  eapply yields_and_then; [apply yields_any | intros active_idx _].
  destruct (negb (active_idx =? prev));
    [| apply yields_ret; split; [reflexivity | exact Hsame]].
  eapply yields_and_then; [apply yields_any | intros l _].
  eapply yields_and_then; [apply yields_any | intros _ _].
  apply yields_ret. split; [reflexivity | exact Hsame].
Qed.

(** X8.  With at least one line, an exception leaves pipe mode only if
    [get_now_playing] raised it or the stream did when a line was
    printed (the reader of the pipe has gone): the index into the lines
    is always valid.  It returns only on an interrupt or when the song
    is no longer the one it was started for, and otherwise keeps
    running.  However it is left, the SIGINT handler is the one found
    on entry: its [finally] block makes no call that can fail. *)
Theorem pipe_mode_leaves (lines : list LyricLine) (initial_info : NowPlaying)
    (sched : list TickEnv) (p : Fallible.Process) :
  lines <> [] ->
  let run := Fallible.display_pipe lines initial_info sched p in
  match snd run with
  | Raised e =>
      Exists (fun env => env_now env = Raise e) sched \/
      In (Some e) (Fallible.out_answers p)
  | Returned =>
      Exists (fun env =>
                env_sigint env = true \/
                exists now, env_now env = Ok (Some now) /\
                  (title now, artist now) <> (title initial_info, artist initial_info))
             sched
  | Running =>
      Forall (fun env =>
                env_sigint env = false /\
                (env_now env = Ok None \/
                 exists now, env_now env = Ok (Some now) /\
                   (title now, artist now) = (title initial_info, artist initial_info)))
             sched
  end /\
  (snd run <> Running ->
   sigint_handler (Fallible.world (fst run)) = sigint_handler (Fallible.world p)).
Proof.
  intros Hne. cbv zeta. unfold Fallible.display_pipe.
  set (p0 := fst (Fallible.update
                    (fun wd => with_handlers IntHandler (sigwinch_handler wd) wd) p)).
  change (Fallible.out_answers p) with (Fallible.out_answers p0).
  assert (forall prev q,
            match snd (Fallible.pipe_loop lines initial_info sched false prev q) with
            | Raised e =>
                Exists (fun env => env_now env = Raise e) sched \/
                In (Some e) (Fallible.out_answers q)
            | Returned =>
                Exists (fun env =>
                          env_sigint env = true \/
                          exists now, env_now env = Ok (Some now) /\
                            (title now, artist now)
                            <> (title initial_info, artist initial_info))
                       sched
            | Running =>
                Forall (fun env =>
                          env_sigint env = false /\
                          (env_now env = Ok None \/
                           exists now, env_now env = Ok (Some now) /\
                             (title now, artist now)
                             = (title initial_info, artist initial_info)))
                       sched
            end) as H.
  { clear p0. induction sched as [| env rest IH]; intros prev q;
      cbn [Fallible.pipe_loop snd].
    - constructor.
    - destruct (behaves_pipe_tick lines initial_info env false prev Hne q)
        as (Hadv & Hraise).
      pose proof (yields_pipe_tick lines initial_info env false prev q) as Hstep.
      destruct (Fallible.pipe_tick lines initial_info env false prev q)
        as [q1 [[i prev1 |] | e]]; cbn [fst snd] in *.
      + destruct (Hstep _ eq_refl) as (-> & Hnow). cbn [orb].
        assert (env_now env = Ok None \/
                exists now, env_now env = Ok (Some now) /\
                  (title now, artist now) = (title initial_info, artist initial_info))
          as Hnow'.
        { destruct Hnow as [Hn | (now & Hn & Hsc)]; [left; exact Hn |].
          right. exists now. split; [exact Hn | apply song_unchanged_iff; exact Hsc]. }
        destruct (env_sigint env) eqn:Hint.
        * destruct rest; cbn [Fallible.pipe_loop snd]; apply Exists_cons_hd; left;
            exact Hint.
        * specialize (IH prev1 q1).
          destruct (snd (Fallible.pipe_loop lines initial_info rest false prev1 q1))
            as [| e |].
          -- apply Exists_cons_tl. exact IH.
          -- destruct IH as [Hr | Hin]; [left; apply Exists_cons_tl; exact Hr |].
             right. eapply advances_answer; eassumption.
          -- constructor; [split; [exact Hint | exact Hnow'] | exact IH].
      + destruct (Hstep _ eq_refl) as (now & Hn & Hsc). apply Exists_cons_hd. right.
        exists now. split; [exact Hn | apply song_changed_iff; exact Hsc].
      + destruct (Hraise e eq_refl) as [Hr | Hin]; [| right; exact Hin].
        left. apply Exists_cons_hd. exact Hr. }
  specialize (H (-1) p0).
  destruct (Fallible.pipe_loop lines initial_info sched false (-1) p0) as [p1 [| e |]];
    cbn [fst snd] in *; (split; [exact H |]); try reflexivity.
  contradiction.
Qed.

(** The reader of the pipe has gone when the first line is printed. *)
Lemma pipe_mode_leaves_witness :
  ex_lines <> [] /\
  snd (Fallible.display_pipe ex_lines ex_now [ex_env] ex_closed)
  = Raised (ExternalError 32) /\
  In (Some (ExternalError 32)) (Fallible.out_answers ex_closed) /\
  sigint_handler (Fallible.world (fst (Fallible.display_pipe ex_lines ex_now [ex_env]
                                                            ex_closed)))
  = HandlerOf 0.
Proof.
  assert (ex_lines <> []) as Hne by (unfold ex_lines; discriminate).
  assert (snd (Fallible.display_pipe ex_lines ex_now [ex_env] ex_closed)
          = Raised (ExternalError 32)) as Hrun by (vm_compute; reflexivity).
  split; [exact Hne |]. split; [exact Hrun |].
  destruct (pipe_mode_leaves ex_lines ex_now [ex_env] ex_closed Hne) as (_ & Hhandler).
  split; [left; reflexivity |].
  apply Hhandler. rewrite Hrun. discriminate.
Defined.

(** ** How the session is left *)

(** What opens the screen, then the loop: an exception comes from the
    stream or from a collaborator. *)
Lemma open_then_loop (sched : list TickEnv) (st : RenderState) (p : Fallible.Process) :
  interrupted st = false ->
  match snd (match Fallible.and_then (Fallible.out_write _HIDE_CURSOR)
                     (fun _ => Fallible.and_then (Fallible.out_write _CLEAR)
                                 (fun _ => Fallible.out_flush)) p with
             | (p1, Raise e) => (p1, Raised e)
             | (p1, Ok _) => Fallible.run_loop sched st p1
             end) with
  | Raised e => In (Some e) (Fallible.out_answers p) \/ raised_in sched e
  | Returned => Exists (fun env => env_sigint env = true) sched
  | Running => Forall (fun env => env_sigint env = false) sched
  end.
Proof.
  intros Hst.
  pose proof (behaves_then (fun _ => False) _ _
                (behaves_out_call _ (Write _HIDE_CURSOR))
                (behaves_then _ _ _ (behaves_out_call _ (Write _CLEAR))
                              (behaves_out_call _ Flush)) p) as (Hadv & Hraise).
  fold (Fallible.out_write _HIDE_CURSOR) (Fallible.out_write _CLEAR) Fallible.out_flush
    in Hadv, Hraise.
  destruct (Fallible.and_then (Fallible.out_write _HIDE_CURSOR) _ p) as [p1 [[] | e]];
    cbn [fst snd] in *.
  - destruct (run_loop_behaves sched st p1) as (_ & Hend). specialize (Hend Hst).
    destruct (snd (Fallible.run_loop sched st p1)) as [| e |]; try exact Hend.
    destruct Hend as [Hr | Hin]; [right; exact Hr |].
    left. eapply advances_answer; eassumption.
  - destruct (Hraise e eq_refl) as [[] | Hin]. left. exact Hin.
Qed.

Lemma try_block_leaves (old : option TermAttrs) (sched : list TickEnv)
    (st : RenderState) (p : Fallible.Process) :
  interrupted st = false ->
  match snd (Fallible.try_block old sched st p) with
  | Raised e =>
      Fallible.setcbreak_answer p = Some e \/ In (Some e) (Fallible.out_answers p) \/
      raised_in sched e
  | Returned => Exists (fun env => env_sigint env = true) sched
  | Running => Forall (fun env => env_sigint env = false) sched
  end.
Proof.
  intros Hst. unfold Fallible.try_block. unfold Fallible.and_then at 1.
  assert (forall p0, Fallible.out_answers p0 = Fallible.out_answers p ->
            match snd (match Fallible.and_then (Fallible.out_write _HIDE_CURSOR)
                               (fun _ => Fallible.and_then (Fallible.out_write _CLEAR)
                                           (fun _ => Fallible.out_flush)) p0 with
                       | (p1, Raise e) => (p1, Raised e)
                       | (p1, Ok _) => Fallible.run_loop sched st p1
                       end) with
            | Raised e =>
                Fallible.setcbreak_answer p = Some e \/
                In (Some e) (Fallible.out_answers p) \/ raised_in sched e
            | Returned => Exists (fun env => env_sigint env = true) sched
            | Running => Forall (fun env => env_sigint env = false) sched
            end) as Hrest.
  { intros p0 Hans. pose proof (open_then_loop sched st p0 Hst) as H.
    rewrite Hans in H.
    match type of H with match ?o with _ => _ end => destruct o end;
      [exact H | right; exact H | exact H]. }
  destruct old as [a |].
  - unfold Fallible.tty_setcbreak. destruct (Fallible.setcbreak_answer p) as [e |] eqn:Esc.
    + cbn [snd]. left. reflexivity.
    + cbn [Fallible.update]. apply Hrest. reflexivity.
  - cbn [Fallible.ret]. apply Hrest. reflexivity.
Qed.

(** The [finally] block raises only what one of its own calls did. *)
Lemma restore_raises (old : option TermAttrs) (old_int old_winch : Handler)
    (p : Fallible.Process) (e : exn) :
  snd (Fallible.restore old old_int old_winch p) = Raise e ->
  Fallible.tcsetattr_answer p = Some e \/ In (Some e) (Fallible.out_answers p).
Proof.
  unfold Fallible.restore.
  pose proof (behaves_then (fun _ => False) _ _
                (behaves_out_call _ (Write _SHOW_CURSOR))
                (behaves_then _ _ _ (behaves_out_call _ (Write _CLEAR))
                              (behaves_out_call _ Flush)) p) as (Hadv & Hraise).
  fold (Fallible.out_write _SHOW_CURSOR) (Fallible.out_write _CLEAR) Fallible.out_flush
    in Hadv, Hraise.
  unfold Fallible.and_then at 1. unfold Fallible.and_then at 1 in Hadv.
  unfold Fallible.and_then at 1 in Hraise.
  destruct (Fallible.out_write _SHOW_CURSOR p) as [p1 [[] | e1]]; cbn [fst snd] in *.
  - unfold Fallible.and_then at 1. unfold Fallible.and_then at 1 in Hadv.
  unfold Fallible.and_then at 1 in Hraise.
    destruct (Fallible.out_write _CLEAR p1) as [p2 [[] | e2]]; cbn [fst snd] in *.
    + unfold Fallible.and_then at 1.
      destruct (Fallible.out_flush p2) as [p3 [[] | e3]]; cbn [fst snd] in *.
      * destruct Hadv as (_ & _ & _ & _ & Htc).
        unfold Fallible.and_then.
        destruct old as [a |]; cbn [Fallible.ret]; [| discriminate].
        unfold Fallible.tcsetattr. rewrite Htc.
        destruct (Fallible.tcsetattr_answer p) as [e4 |]; cbn; [| discriminate].
        intros H. injection H as <-. left. reflexivity.
      * intros H. right. destruct (Hraise e H) as [[] | Hin]. exact Hin.
    + intros H. right. destruct (Hraise e H) as [[] | Hin]. exact Hin.
  - intros H. right. destruct (Hraise e H) as [[] | Hin]. exact Hin.
Qed.

(** X9.  An exception leaves [display_lyrics] only if one of its
    system calls or collaborators raised it: [sys.stdin.fileno()],
    [tty.setcbreak], a call on the output stream, [termios.tcsetattr],
    [get_now_playing] in some pass, or [fetch_lyrics] in a pass that
    found a song.  The locator, the frame builders and the writer raise
    nothing of their own.  It returns only after a SIGINT, and is still
    running only if none was delivered. *)
Theorem session_leaves (lines : option (list LyricLine)) (initial_info : NowPlaying)
    (sched : list TickEnv) (p : Fallible.Process) :
  match snd (Fallible.display_lyrics lines initial_info sched p) with
  | Raised e =>
      Fallible.fileno_answer p = Some e \/
      Fallible.setcbreak_answer p = Some e \/
      Fallible.tcsetattr_answer p = Some e \/
      In (Some e) (Fallible.out_answers p) \/
      Exists (fun env =>
                env_now env = Raise e \/
                (env_fetch env = Raise e /\ exists now, env_now env = Ok (Some now))) sched
  | Returned => Exists (fun env => env_sigint env = true) sched
  | Running => Forall (fun env => env_sigint env = false) sched
  end.
Proof.
  destruct (Fallible.fileno_answer p) as [e |] eqn:Hfd.
  { unfold Fallible.display_lyrics, Fallible.stdin_fileno.
    cbn [fst Fallible.update Fallible.fileno_answer]. rewrite Hfd. cbn [snd].
    left. reflexivity. }
  rewrite (display_lyrics_finally lines initial_info sched p Hfd). unfold at_finally.
  set (p0 := fst (Fallible.update (with_handlers IntHandler WinchHandler) p)).
  pose proof (try_block_leaves (stdin_attrs (Fallible.world p)) sched
                (initial_state lines initial_info) p0 eq_refl) as Hleave.
  pose proof (try_block_spec sched (initial_state lines initial_info) p0)
    as (_ & _ & _ & _ & (used & Hused) & Htc).
  change (stdin_attrs (Fallible.world p0)) with (stdin_attrs (Fallible.world p)) in *.
  change (Fallible.out_answers p0) with (Fallible.out_answers p) in *.
  change (Fallible.setcbreak_answer p0) with (Fallible.setcbreak_answer p) in *.
  change (Fallible.tcsetattr_answer p0) with (Fallible.tcsetattr_answer p) in *.
  destruct (Fallible.try_block (stdin_attrs (Fallible.world p)) sched
              (initial_state lines initial_info) p0) as [p1 pending].
  cbn [fst snd] in *.
  assert (forall e,
            snd (Fallible.restore (stdin_attrs (Fallible.world p))
                   (sigint_handler (Fallible.world p)) (sigwinch_handler (Fallible.world p))
                   p1) = Raise e ->
            Fallible.tcsetattr_answer p = Some e \/ In (Some e) (Fallible.out_answers p))
    as Hfinally.
  { intros e H. apply restore_raises in H. destruct H as [H | H].
    - left. rewrite <- Htc. exact H.
    - right. rewrite Hused. apply in_or_app. right. exact H. }
  destruct (Fallible.restore (stdin_attrs (Fallible.world p))
              (sigint_handler (Fallible.world p)) (sigwinch_handler (Fallible.world p)) p1)
    as [p2 [[] | e']]; cbn [snd] in Hfinally.
  - destruct pending as [| e |]; cbn [snd]; [exact Hleave | | exact Hleave].
    destruct Hleave as [H | [H | H]]; [right; left; exact H | | ].
    + right. right. right. left. exact H.
    + right. right. right. right. exact H.
  - destruct pending as [| e |]; cbn [snd]; [| | exact Hleave];
      destruct (Hfinally e' eq_refl) as [H | H];
      solve [ right; right; left; exact H | right; right; right; left; exact H ].
Qed.

(** ** Styles and the clock *)

(** X10.  [_styled_line] never leaves the palette: whatever the
    distance, zero, negative or huge, the line gets one of the six
    styles of [_GRAD]; distance 1 and below gets the first (bold white)
    and distance 6 and beyond the last (dim bright black). *)
Theorem styled_line_in_palette (t : str) (dist : Z) :
  (exists tier, In tier _GRAD /\ _styled_line t dist = tier t) /\
  (dist <= 1 -> _styled_line t dist = _BOLD ++ _FG_WHITE ++ t ++ _RESET ++ _EL) /\
  (6 <= dist -> _styled_line t dist = _DIM ++ _FG_BR_BLACK ++ t ++ _RESET ++ _EL).
Proof.
  unfold _styled_line. change (len _GRAD) with 6. split; [| split].
  - assert (Z.to_nat (Z.min (Z.max 0 (dist - 1)) (6 - 1)) < 6)%nat as Hlt by lia.
    exists (nth (Z.to_nat (Z.min (Z.max 0 (dist - 1)) (6 - 1))) _GRAD (fun t => t)).
    split; [| reflexivity]. apply nth_In. exact Hlt.
  - intros H. replace (Z.min (Z.max 0 (dist - 1)) (6 - 1)) with 0 by lia. reflexivity.
  - intros H. replace (Z.min (Z.max 0 (dist - 1)) (6 - 1)) with 5 by lia. reflexivity.
Qed.

Lemma read_uint_acc (d : Decimal.uint) (acc : positive) :
  fold_left read_digit (lit (NilEmpty.string_of_uint d)) (Z.pos acc)
  = Z.pos (Pos.of_uint_acc d acc).
Proof.
  revert acc. induction d; intros acc; cbn [NilEmpty.string_of_uint Pos.of_uint_acc];
    [reflexivity | ..];
    match goal with
    | |- fold_left _ (lit (String ?c ?s)) _ = _ =>
        change (lit (String c s)) with (N_of_ascii c :: lit s)
    end;
    cbn [fold_left]; rewrite <- IHd; f_equal; unfold read_digit;
    match goal with
    | |- context [digit_value ascii_decimal ?c] =>
        let v := eval vm_compute in (digit_value ascii_decimal c) in
        change (digit_value ascii_decimal c) with v
    end;
    lia.
Qed.

Lemma read_uint (d : Decimal.uint) :
  fold_left read_digit (lit (NilEmpty.string_of_uint d)) 0 = Z.of_N (Pos.of_uint d).
Proof.
  induction d; cbn [NilEmpty.string_of_uint Pos.of_uint]; [reflexivity | ..];
    match goal with
    | |- fold_left _ (lit (String ?c ?s)) _ = _ =>
        change (lit (String c s)) with (N_of_ascii c :: lit s)
    end;
    cbn [fold_left];
    [exact IHd | ..];
    match goal with
    | |- fold_left _ _ ?a = Z.of_N (N.pos (Pos.of_uint_acc _ ?p)) =>
        change a with (Z.pos p); apply read_uint_acc
    end.
Qed.

Lemma all_decimal_uint (d : Decimal.uint) :
  all_decimal ascii_decimal (lit (NilEmpty.string_of_uint d)).
Proof. induction d; cbn; constructor; try reflexivity; assumption. Qed.

(** [int(str(n)) == n] for a natural number, reading with the ASCII
    digits. *)
Lemma py_int_str_of_int (n : Z) :
  0 <= n -> py_int ascii_decimal (str_of_int n) = Ok n.
Proof.
  intros Hn. unfold str_of_int, NilZero.string_of_int, NilZero.string_of_uint.
  destruct n as [| p | p]; [reflexivity | | lia].
  cbn [Z.to_int].
  pose proof (DecimalPos.Unsigned.of_to p) as Hp.
  destruct (Pos.to_uint p) eqn:E; [cbn in Hp; discriminate | ..];
    (rewrite py_int_digits;
     [ unfold digits_value; fold read_digit; rewrite read_uint, Hp; reflexivity
     | apply all_decimal_uint
     | cbn; discriminate ]).
Qed.

Lemma In_range (n i : Z) : In i (range n) <-> 0 <= i < n.
Proof.
  unfold range. rewrite in_map_iff. split.
  - intros (k & <- & Hk). apply in_seq in Hk. lia.
  - intros Hi. exists (Z.to_nat i). split; [lia | apply in_seq; lia].
Qed.

Lemma fmt_02d_seconds (s : Z) :
  0 <= s < 60 ->
  List.length (fmt_02d s) = 2%nat /\ py_int ascii_decimal (fmt_02d s) = Ok s.
Proof.
  intros Hs.
  assert (forallb (fun s => Nat.eqb (List.length (fmt_02d s)) 2
                            && match py_int ascii_decimal (fmt_02d s) with
                               | Ok v => v =? s
                               | Raise _ => false
                               end) (range 60) = true) as Hall
    by (vm_compute; reflexivity).
  rewrite forallb_forall in Hall. specialize (Hall s (proj2 (In_range 60 s) Hs)).
  apply andb_true_iff in Hall. destruct Hall as [Hlen Hval].
  apply Nat.eqb_eq in Hlen. split; [exact Hlen |].
  destruct (py_int ascii_decimal (fmt_02d s)) as [v |]; [| discriminate].
  apply Z.eqb_eq in Hval. congruence.
Qed.

Lemma int_of_float_floor (x : Q) : (0 <= x)%Q -> int_of_float x = Qround.Qfloor x.
Proof.
  destruct x as [n d]. unfold Qle, int_of_float, Qround.Qfloor. cbn. intros Hn.
  apply Z.quot_div_nonneg; lia.
Qed.

(** X11.  For a time that is not negative, [_format_time] writes the
    whole minutes, a colon, and the remaining whole seconds on exactly
    two digits; read back with [int()], the two fields give the minutes
    and seconds of the time rounded down to the second. *)
Theorem format_time_reads_back (seconds : Q) :
  (0 <= seconds)%Q ->
  exists mm ss n,
    _format_time seconds = mm ++ lit ":" ++ ss /\
    List.length ss = 2%nat /\
    py_int ascii_decimal mm = Ok (n / 60) /\
    py_int ascii_decimal ss = Ok (n mod 60) /\
    0 <= n mod 60 < 60 /\
    (inject_Z n <= seconds < inject_Z (n + 1))%Q.
Proof.
  intros Hpos.
  assert (0 <= Qround.Qfloor seconds) as Hn.
  { change 0 with (Qround.Qfloor 0). apply Qround.Qfloor_resp_le. exact Hpos. }
  pose proof (Z.mod_pos_bound (Qround.Qfloor seconds) 60 ltac:(lia)) as Hmod.
  destruct (fmt_02d_seconds _ Hmod) as (Hlen & Hval).
  exists (str_of_int (Qround.Qfloor seconds / 60)),
         (fmt_02d (Qround.Qfloor seconds mod 60)), (Qround.Qfloor seconds).
  split; [| split; [| split; [| split; [| split]]]].
  - unfold _format_time. rewrite (int_of_float_floor seconds Hpos). reflexivity.
  - exact Hlen.
  - apply py_int_str_of_int. apply Z.div_pos; lia.
  - exact Hval.
  - exact Hmod.
  - split; [apply Qround.Qfloor_le | apply Qround.Qlt_floor].
Qed.

Lemma format_time_reads_back_witness :
  (0 <= position_s ex_now)%Q /\
  exists mm ss n,
    _format_time (position_s ex_now) = mm ++ lit ":" ++ ss /\
    py_int ascii_decimal ss = Ok (n mod 60).
Proof.
  assert (0 <= position_s ex_now)%Q as H by (unfold Qle; cbn; lia).
  split; [exact H |].
  destruct (format_time_reads_back (position_s ex_now) H)
    as (mm & ss & n & Hf & _ & _ & Hs & _).
  exists mm, ss, n. split; [exact Hf | exact Hs].
Defined.

(** ** The range of parsed timestamps *)

Section ParserBounds.

Variable decimal : char -> option Z.

Hypothesis decimal_zero : decimal 48%N = Some 0.

(** Decimal digits have the values 0 to 9. *)
Hypothesis decimal_range : forall c d, decimal c = Some d -> 0 <= d <= 9.

Lemma digits_value_bound (s : str) :
  all_decimal decimal s ->
  0 <= digits_value decimal s < 10 ^ Z.of_nat (List.length s).
Proof.
  unfold digits_value. intros H.
  assert (forall acc k, 0 <= acc < 10 ^ Z.of_nat k ->
            0 <= fold_left (fun a c => 10 * a + digit_value decimal c) s acc
              < 10 ^ Z.of_nat (k + List.length s)) as Hgen.
  { induction H as [| c s Hc Hs IH]; intros acc k Hacc; cbn [fold_left List.length].
    - rewrite Nat.add_0_r. exact Hacc.
    - replace (k + S (List.length s))%nat with (S k + List.length s)%nat by lia.
      apply IH. rewrite Nat2Z.inj_succ, Z.pow_succ_r by lia.
      unfold is_decimal in Hc. unfold digit_value.
      destruct (decimal c) as [d |] eqn:Hd; [| discriminate].
      pose proof (decimal_range c d Hd). lia. }
  apply (Hgen 0 0%nat). cbn. lia.
Qed.

Lemma millis_bound (g3 : option str) :
  match g3 with
  | Some f => all_decimal decimal f /\ (1 <= List.length f <= 3)%nat
  | None => True
  end ->
  0 <= millis decimal g3 < 1000.
Proof.
  destruct g3 as [f |]; cbn [millis]; [| lia].
  intros (Hd & Hl). pose proof (digits_value_bound f Hd) as Hb.
  unfold len.
  assert (List.length f = 1 \/ List.length f = 2 \/ List.length f = 3)%nat
    as [E | [E | E]] by lia;
    rewrite E in *; cbn in Hb |- *; lia.
Qed.

(** X12.  Every timestamp [parse_lrc] returns lies in [0, 6040)
    seconds: at most 99 minutes, 99 seconds (the seconds field is not
    limited to 59) and 999 thousandths. *)
Theorem parsed_times_in_range (lrc_text : str) (lines : list LyricLine) :
  parse_lrc decimal lrc_text = Ok lines ->
  Forall (fun l => (0 <= time_s l)%Q /\ (time_s l < 6040)%Q) lines.
Proof.
  unfold parse_lrc. rewrite (parse_lines_spec decimal decimal_zero). cbn [bind].
  intros H. injection H as <-.
  apply Forall_forall. intros l Hl.
  apply (Permutation_in _ (sort_by_time_perm _)) in Hl.
  apply in_map_iff in Hl. destruct Hl as ([[[g1 g2] g3] g4] & <- & Hg).
  apply In_matched in Hg. destruct Hg as (raw & _ & Hm).
  pose proof (pattern_match_groups decimal _ _ _ _ _ Hm) as (Hd1 & Hl1 & Hd2 & Hl2 & H3).
  pose proof (digits_value_bound g1 Hd1) as Hb1.
  pose proof (digits_value_bound g2 Hd2) as Hb2.
  pose proof (millis_bound g3 H3) as Hb3.
  assert (digits_value decimal g1 < 100) as Hm1.
  { assert (List.length g1 = 1 \/ List.length g1 = 2)%nat as [E | E] by lia;
      rewrite E in Hb1; cbn in Hb1; lia. }
  assert (digits_value decimal g2 < 100) as Hm2.
  { rewrite Hl2 in Hb2. cbn in Hb2. lia. }
  cbn [line_of_groups time_s].
  set (m := digits_value decimal g1) in *. set (s := digits_value decimal g2) in *.
  set (ms := millis decimal g3) in *. clearbody m s ms.
  unfold Qle, Qlt, Qplus, Qdiv, Qmult, Qinv, inject_Z, Qnum, Qden.
  change (Z.pos (1 * 1000)) with 1000. change (Z.pos (1 * (1 * 1000))) with 1000.
  lia.
Qed.

End ParserBounds.

Lemma ascii_decimal_range (c : char) (d : Z) : ascii_decimal c = Some d -> 0 <= d <= 9.
Proof.
  unfold ascii_decimal, in_range. destruct (N.leb 48 c && N.leb c 57)%N eqn:E; [| discriminate].
  apply andb_true_iff in E. destruct E as [E1 E2].
  apply N.leb_le in E1, E2. intros H. injection H as <-. lia.
Qed.

Lemma parsed_times_in_range_witness :
  parse_lrc ascii_decimal (lit "[99:99.999] end")
    = Ok [mkLyricLine (inject_Z 6039 + inject_Z 999 / inject_Z 1000) (lit "end")] /\
  Forall (fun l => (0 <= time_s l)%Q /\ (time_s l < 6040)%Q)
         [mkLyricLine (inject_Z 6039 + inject_Z 999 / inject_Z 1000) (lit "end")].
Proof.
  assert (parse_lrc ascii_decimal (lit "[99:99.999] end")
          = Ok [mkLyricLine (inject_Z 6039 + inject_Z 999 / inject_Z 1000) (lit "end")]) as H
    by (vm_compute; reflexivity).
  split; [exact H |].
  exact (parsed_times_in_range ascii_decimal ascii_decimal_zero ascii_decimal_range _ _ H).
Defined.

(** ** Choosing the player *)

Lemma first_playing_found (query : nat -> str -> result (option NowPlaying))
    (players : list str) (k i : nat) (p : str) (info : NowPlaying) :
  nth_error players i = Some p ->
  query (k + i)%nat p = Ok (Some info) ->
  is_playing info = true ->
  (forall j q, (j < i)%nat -> nth_error players j = Some q ->
     not_playing (query (k + j)%nat q)) ->
  first_playing query k players = Ok (Some info).
Proof.
  revert k i. induction players as [| q players IH]; intros k i Hp Hq Hplay Hbefore.
  - destruct i; discriminate.
  - destruct i as [| i]; cbn [first_playing].
    + cbn in Hp. injection Hp as ->. rewrite Nat.add_0_r in Hq. rewrite Hq. cbn [bind].
      rewrite Hplay. reflexivity.
    + destruct (Hbefore 0%nat q ltac:(lia) eq_refl) as (a & Ha & Hna).
      rewrite Nat.add_0_r in Ha. rewrite Ha. cbn [bind].
      assert (first_playing query (S k) players = Ok (Some info)) as Hrest.
      { apply (IH (S k) i); [exact Hp | | exact Hplay |].
        - replace (S k + i)%nat with (k + S i)%nat by lia. exact Hq.
        - intros j q' Hj Hq'. replace (S k + j)%nat with (k + S j)%nat by lia.
          apply (Hbefore (S j)); [lia | exact Hq']. }
      destruct a as [x |]; [rewrite (Hna x eq_refl) |]; exact Hrest.
Qed.

Lemma first_playing_none (query : nat -> str -> result (option NowPlaying))
    (players : list str) (k : nat) :
  (forall j q, nth_error players j = Some q -> not_playing (query (k + j)%nat q)) ->
  first_playing query k players = Ok None.
Proof.
  revert k. induction players as [| q players IH]; intros k Hall; cbn [first_playing].
  - reflexivity.
  - destruct (Hall 0%nat q eq_refl) as (a & Ha & Hna).
    rewrite Nat.add_0_r in Ha. rewrite Ha. cbn [bind].
    assert (first_playing query (S k) players = Ok None) as Hrest.
    { apply IH. intros j q' Hq'. replace (S k + j)%nat with (k + S j)%nat by lia.
      apply (Hall (S j)). exact Hq'. }
    destruct a as [x |]; [rewrite (Hna x eq_refl) |]; exact Hrest.
Qed.

(** X13.  With the bus reachable and no player named, [get_now_playing]
    answers [None] when no MPRIS name is on the bus; otherwise it
    prefers a player that is playing, the first one in bus order whose
    answer says so; and when nobody is playing it asks the first player
    once more and returns that answer, whatever the other players hold.
    With a player named, it asks only that player. *)
Theorem now_playing_prefers_playing (bus : Bus) (names : list str) :
  bus_connect bus = Ok tt ->
  bus_names bus = Ok names ->
  let players := filter (fun n => startswith n MPRIS_PREFIX) names in
  (players = [] -> get_now_playing bus None = Ok None) /\
  (forall i p info,
     nth_error players i = Some p ->
     bus_query bus i p = Ok (Some info) ->
     is_playing info = true ->
     (forall j q, (j < i)%nat -> nth_error players j = Some q ->
        not_playing (bus_query bus j q)) ->
     get_now_playing bus None = Ok (Some info)) /\
  (forall first,
     hd_error players = Some first ->
     (forall j q, nth_error players j = Some q -> not_playing (bus_query bus j q)) ->
     get_now_playing bus None = bus_query bus (List.length players) first) /\
  (forall name, get_now_playing bus (Some name) = bus_query bus 0 name).
Proof.
  intros Hc Hn players.
  assert (list_players bus = Ok players) as Hlp.
  { unfold list_players. rewrite Hc, Hn. reflexivity. }
  unfold get_now_playing. rewrite Hc, Hlp. cbn [bind].
  split; [| split; [| split]].
  - intros ->. reflexivity.
  - intros i p info Hp Hq Hplay Hbefore.
    destruct players as [| first rest] eqn:E; [destruct i; discriminate |].
    rewrite (first_playing_found (bus_query bus) (first :: rest) 0 i p info Hp Hq Hplay Hbefore).
    reflexivity.
  - intros first Hhd Hall.
    destruct players as [| first' rest] eqn:E; [discriminate |].
    cbn in Hhd. injection Hhd as ->.
    rewrite (first_playing_none (bus_query bus) (first :: rest) 0 Hall). reflexivity.
  - reflexivity.
Qed.

Lemma now_playing_prefers_playing_witness :
  bus_connect ex_bus = Ok tt /\
  get_now_playing ex_bus None = Ok (Some ex_now).
Proof.
  split; [reflexivity |].
  destruct (now_playing_prefers_playing ex_bus _ eq_refl eq_refl) as (_ & Hplaying & _).
  apply (Hplaying 1%nat (lit "org.mpris.MediaPlayer2.spotify") ex_now);
    try reflexivity.
  intros j q Hj Hq. assert (j = 0)%nat as -> by lia.
  cbn in Hq. injection Hq as <-.
  exists (Some ex_paused). split; [reflexivity |].
  intros info E. injection E as <-. reflexivity.
Defined.

(** ** Fetching lyrics *)

Lemma first_synced_Some (results : list Track) (synced : str) :
  first_synced results = Some synced <->
  exists before t after,
    results = before ++ t :: after /\
    syncedLyrics t = Some synced /\ synced <> [] /\
    Forall (fun t' => truthy_text (syncedLyrics t') = None) before.
Proof.
  split.
  - induction results as [| t results IH]; cbn [first_synced]; [discriminate |].
    destruct (truthy_text (syncedLyrics t)) as [s |] eqn:Et.
    + intros H. injection H as ->. exists [], t, results.
      unfold truthy_text in Et. destruct (syncedLyrics t) as [[| c r] |]; try discriminate.
      injection Et as <-. repeat split; [discriminate | constructor].
    + intros H. destruct (IH H) as (before & t' & after & -> & Hs & Hne & Hb).
      exists (t :: before), t', after. repeat split; try assumption.
      constructor; assumption.
  - intros (before & t & after & -> & Hs & Hne & Hb).
    induction Hb as [| t' before Ht' Hb IH]; cbn [app first_synced].
    + rewrite Hs. destruct synced; [contradiction | reflexivity].
    + rewrite Ht'. exact IH.
Qed.

Section FetchProofs.

Variable decimal : char -> option Z.

Hypothesis decimal_zero : decimal 48%N = Some 0.

Lemma parse_lrc_total (lrc_text : str) :
  parse_lrc decimal lrc_text
  = Ok (sort_by_time (List.map (line_of_groups decimal)
                               (matched decimal (splitlines lrc_text)))).
Proof. unfold parse_lrc. rewrite (parse_lines_spec decimal decimal_zero). reflexivity. Qed.

(** X14.  When the exact-match request answers 200 with a synced text
    that is not empty, [fetch_lyrics] returns the parse of that text
    (an empty list if no line of it carries a timestamp) and makes no
    other request: the search endpoint is not contacted. *)
Theorem exact_match_wins (http : Http) (title artist album : str)
    (duration_s : option Q) (synced : str) :
  http_get http (get_request title artist album duration_s)
    = Reply 200 (Ok (mkTrack (Some synced))) ->
  synced <> [] ->
  exists lines,
    parse_lrc decimal synced = Ok lines /\
    fetch_lyrics decimal http title artist album duration_s
    = ([get_request title artist album duration_s], Ok (Some lines)).
Proof.
  intros Hget Hne. eexists. split; [apply parse_lrc_total |].
  unfold fetch_lyrics. rewrite Hget. cbn [Z.eqb Pos.eqb syncedLyrics truthy_text].
  destruct synced as [| c s]; [contradiction |].
  rewrite parse_lrc_total. reflexivity.
Qed.

(** X15.  When the exact match offers no text, [fetch_lyrics] makes
    one search request, by title and artist only (album and duration
    are dropped), and returns the parse of the first result that has a
    synced text, skipping results whose text is missing or empty. *)
Theorem search_is_the_fallback (http : Http) (title artist album : str)
    (duration_s : option Q) (results : list Track) :
  exact_unusable (http_get http (get_request title artist album duration_s)) ->
  http_search http (search_request title artist) = Reply 200 (Ok results) ->
  fst (fetch_lyrics decimal http title artist album duration_s)
    = [get_request title artist album duration_s; search_request title artist] /\
  req_params (search_request title artist)
    = [(lit "track_name", PStr title); (lit "artist_name", PStr artist)] /\
  (forall before t after synced,
     results = before ++ t :: after ->
     syncedLyrics t = Some synced -> synced <> [] ->
     Forall (fun t' => syncedLyrics t' = None \/ syncedLyrics t' = Some []) before ->
     exists lines,
       parse_lrc decimal synced = Ok lines /\
       snd (fetch_lyrics decimal http title artist album duration_s) = Ok (Some lines)) /\
  (Forall (fun t' => syncedLyrics t' = None \/ syncedLyrics t' = Some []) results ->
     snd (fetch_lyrics decimal http title artist album duration_s) = Ok None).
Proof.
  intros Hex Hsearch.
  assert (fetch_lyrics decimal http title artist album duration_s
          = ([get_request title artist album duration_s; search_request title artist],
             fetch_by_search decimal http title artist)) as Hf.
  { unfold fetch_lyrics, exact_unusable in *.
    destruct (http_get http (get_request title artist album duration_s))
      as [| status json]; [reflexivity |].
    destruct (status =? 200) eqn:Est; [| reflexivity].
    apply Z.eqb_eq in Est.
    destruct Hex as [Hst | (data & -> & Ht)]; [contradiction |].
    rewrite Ht. reflexivity. }
  assert (forall t', (syncedLyrics t' = None \/ syncedLyrics t' = Some []) ->
            truthy_text (syncedLyrics t') = None) as Hfalsy.
  { intros t' [-> | ->]; reflexivity. }
  rewrite Hf. cbn [fst snd]. split; [reflexivity |]. split; [reflexivity |].
  unfold fetch_by_search. rewrite Hsearch. cbn [Z.eqb Pos.eqb bind]. split.
  - intros before t after synced -> Hs Hne Hb.
    assert (first_synced (before ++ t :: after) = Some synced) as ->.
    { apply first_synced_Some. exists before, t, after. repeat split; try assumption.
      eapply Forall_impl; [| exact Hb]. exact Hfalsy. }
    eexists. split; [apply parse_lrc_total |]. rewrite parse_lrc_total. reflexivity.
  - intros Hall.
    assert (first_synced results = None) as ->; [| reflexivity].
    clear Hsearch. induction Hall as [| t' rest Ht' Hrest IH]; cbn [first_synced];
      [reflexivity |].
    rewrite (Hfalsy t' Ht'). exact IH.
Qed.

(** X16.  [fetch_lyrics] absorbs the failures of the service: a
    [RequestException] or a status other than 200 from either endpoint
    never raises, and when both fail the result is [None] after exactly
    two requests.  The only exceptions that leave it are those of
    decoding a 200 body. *)
Theorem fetch_absorbs_failures (http : Http) (title artist album : str)
    (duration_s : option Q) :
  (forall e,
     snd (fetch_lyrics decimal http title artist album duration_s) = Raise e ->
     http_get http (get_request title artist album duration_s) = Reply 200 (Raise e) \/
     http_search http (search_request title artist) = Reply 200 (Raise e)) /\
  ((forall status json,
      http_get http (get_request title artist album duration_s) = Reply status json ->
      status <> 200) ->
   (forall status json,
      http_search http (search_request title artist) = Reply status json ->
      status <> 200) ->
   fetch_lyrics decimal http title artist album duration_s
   = ([get_request title artist album duration_s; search_request title artist], Ok None)).
Proof.
  assert (forall e, fetch_by_search decimal http title artist = Raise e ->
            http_search http (search_request title artist) = Reply 200 (Raise e)) as Hs.
  { intros e. unfold fetch_by_search.
    destruct (http_search http (search_request title artist)) as [| status json];
      [discriminate |].
    destruct (status =? 200) eqn:Est; [| discriminate].
    apply Z.eqb_eq in Est. subst status.
    destruct json as [results | e']; cbn [bind].
    - destruct (first_synced results); [rewrite parse_lrc_total |]; discriminate.
    - intros H. injection H as ->. reflexivity. }
  split.
  - intros e. unfold fetch_lyrics.
    destruct (http_get http (get_request title artist album duration_s))
      as [| status json]; cbn [snd]; [intros H; right; apply Hs; exact H |].
    destruct (status =? 200) eqn:Est; cbn [snd]; [| intros H; right; apply Hs; exact H].
    apply Z.eqb_eq in Est. subst status.
    destruct json as [data | e']; cbn [snd].
    + destruct (truthy_text (syncedLyrics data)); cbn [snd].
      * rewrite parse_lrc_total. discriminate.
      * intros H. right. apply Hs. exact H.
    + intros H. injection H as ->. left. reflexivity.
  - intros Hget Hsearch. unfold fetch_lyrics, fetch_by_search.
    destruct (http_search http (search_request title artist)) as [| st2 j2] eqn:E2.
    + destruct (http_get http (get_request title artist album duration_s))
        as [| st1 j1] eqn:E1; [reflexivity |].
      pose proof (Hget st1 j1 eq_refl) as H1. apply Z.eqb_neq in H1. rewrite H1.
      reflexivity.
    + pose proof (Hsearch st2 j2 eq_refl) as H2. apply Z.eqb_neq in H2. rewrite H2.
      destruct (http_get http (get_request title artist album duration_s))
        as [| st1 j1] eqn:E1; [reflexivity |].
      pose proof (Hget st1 j1 eq_refl) as H1. apply Z.eqb_neq in H1. rewrite H1.
      reflexivity.
Qed.

End FetchProofs.

Lemma exact_match_wins_witness :
  ascii_decimal 48%N = Some 0 /\
  exists lines,
    parse_lrc ascii_decimal (lit "[00:01.5] a") = Ok lines /\
    fetch_lyrics ascii_decimal ex_http_exact (lit "Song") (lit "Band") (lit "Album")
                 (Some (duration_s ex_now))
    = ([get_request (lit "Song") (lit "Band") (lit "Album") (Some (duration_s ex_now))],
       Ok (Some lines)).
Proof.
  split; [exact ascii_decimal_zero |].
  apply (exact_match_wins ascii_decimal ascii_decimal_zero ex_http_exact).
  - reflexivity.
  - discriminate.
Defined.

Lemma search_is_the_fallback_witness :
  ascii_decimal 48%N = Some 0 /\
  exact_unusable (http_get ex_http_search
                    (get_request (lit "Song") (lit "Band") [] None)) /\
  exists lines,
    parse_lrc ascii_decimal (lit "[00:02] b") = Ok lines /\
    snd (fetch_lyrics ascii_decimal ex_http_search (lit "Song") (lit "Band") [] None)
    = Ok (Some lines).
Proof.
  assert (exact_unusable (http_get ex_http_search
                            (get_request (lit "Song") (lit "Band") [] None))) as Hex
    by (left; discriminate).
  split; [exact ascii_decimal_zero |]. split; [exact Hex |].
  destruct (search_is_the_fallback ascii_decimal ascii_decimal_zero ex_http_search
              (lit "Song") (lit "Band") [] None _ Hex eq_refl) as (_ & _ & Hfirst & _).
  apply (Hfirst [mkTrack None; mkTrack (Some [])] (mkTrack (Some (lit "[00:02] b")))
                [mkTrack (Some (lit "[00:03] c"))]).
  - reflexivity.
  - reflexivity.
  - discriminate.
  - apply Forall_cons; [left; reflexivity |].
    apply Forall_cons; [right; reflexivity | apply Forall_nil].
Defined.

Lemma fetch_absorbs_failures_witness :
  ascii_decimal 48%N = Some 0 /\
  fetch_lyrics ascii_decimal ex_http_down (lit "Song") (lit "Band") [] None
  = ([get_request (lit "Song") (lit "Band") [] None;
      search_request (lit "Song") (lit "Band")], Ok None).
Proof.
  split; [exact ascii_decimal_zero |].
  apply (fetch_absorbs_failures ascii_decimal ascii_decimal_zero ex_http_down).
  - intros status json E. discriminate.
  - intros status json E. injection E as <- _. discriminate.
Defined.

(** ** What the differential writer leaves on the screen *)

Lemma paint_fold_other (rows : list (Z * str)) (screen : Screen) (i : Z) :
  (forall e, In e rows -> fst e <> i) ->
  fold_left paint rows screen i = screen i.
Proof.
  revert screen. induction rows as [| e rows IH]; intros screen Hno; cbn [fold_left].
  - reflexivity.
  - rewrite IH by (intros e' He'; apply Hno; right; exact He').
    unfold paint. replace (i =? fst e) with false; [reflexivity |].
    symmetry. apply Z.eqb_neq. intros E. apply (Hno e (or_introl eq_refl)). congruence.
Qed.

Lemma paint_fold_shown (rows : list (Z * str)) (screen : Screen) (i : Z) (line : str) :
  (forall e, In e rows -> fst e = i -> snd e = line) ->
  screen i = Some line \/ (exists e, In e rows /\ fst e = i) ->
  fold_left paint rows screen i = Some line.
Proof.
  revert screen. induction rows as [| e rows IH]; intros screen Huniq Hsrc; cbn [fold_left].
  - destruct Hsrc as [H | (e & [] & _)]. exact H.
  - apply IH; [intros e' He'; apply Huniq; right; exact He' |].
    unfold paint. destruct (Z.eq_dec (fst e) i) as [E | E].
    + left. rewrite E, Z.eqb_refl, (Huniq e (or_introl eq_refl) E). reflexivity.
    + replace (i =? fst e) with false by (symmetry; apply Z.eqb_neq; congruence).
      destruct Hsrc as [H | (e' & [-> | He'] & Hi)].
      * left. exact H.
      * contradiction.
      * right. exists e'. split; assumption.
Qed.

Lemma paint_fold_row (rows : list (Z * str)) (screen : Screen) (i : Z) (line : str) :
  In (i, line) rows ->
  (forall e, In e rows -> fst e = i -> snd e = line) ->
  fold_left paint rows screen i = Some line.
Proof.
  intros Hin Huniq. apply paint_fold_shown; [exact Huniq |].
  right. exists (i, line). split; [exact Hin | reflexivity].
Qed.

(** X17.  The differential writer is sound: on a screen that shows the
    previous frame, painting the rows [_write_diff] emits makes every
    row of the current frame show, emitted or skipped; rows below the
    current frame are left as they were. *)
Theorem diff_leaves_current_frame (prev cur : list str) (force : bool) :
  let after := fold_left paint (changed_rows prev cur force) (showing prev) in
  (forall j line, nth_error cur j = Some line -> after (Z.of_nat j) = Some line) /\
  (forall i, len cur <= i -> after i = showing prev i).
Proof.
  intros after.
  assert (forall e, In e (changed_rows prev cur force) ->
            exists j, fst e = Z.of_nat j /\ nth_error cur j = Some (snd e)) as Hrows.
  { intros [i line] He. unfold changed_rows in He. apply filter_In in He.
    destruct He as [He _]. apply In_enumerate in He. exact He. }
  split.
  - intros j line Hj.
    destruct (row_changed prev force (Z.of_nat j) line) eqn:Hch.
    + apply paint_fold_row.
      * unfold changed_rows. apply filter_In. split; [| exact Hch].
        apply In_enumerate. exists j. split; [reflexivity | exact Hj].
      * intros e He Hi. destruct (Hrows e He) as (j' & Hj' & Hl).
        assert (j' = j) as -> by lia. congruence.
    + subst after. rewrite paint_fold_other.
      * unfold showing. replace (Z.of_nat j <? 0) with false by (symmetry; apply Z.ltb_ge; lia).
        rewrite Nat2Z.id.
        destruct (nth_error prev j) as [p |] eqn:Hp.
        -- destruct (list_eq_dec N.eq_dec p line) as [-> | Hne]; [reflexivity |].
           assert (row_changed prev force (Z.of_nat j) line = true); [| congruence].
           apply row_changed_iff. right. right. exists p. split; [exact Hp | exact Hne].
        -- assert (row_changed prev force (Z.of_nat j) line = true); [| congruence].
           apply row_changed_iff. right. left. apply nth_error_None. exact Hp.
      * intros e He Hi. destruct (Hrows e He) as (j' & Hj' & Hl).
        assert (j' = j) as -> by lia.
        unfold changed_rows in He. apply filter_In in He. destruct He as [_ He].
        destruct e as [i l]. cbn [fst snd] in *. subst i.
        assert (l = line) as -> by congruence. congruence.
  - intros i Hi. subst after. apply paint_fold_other.
    intros e He E. destruct (Hrows e He) as (j & Hj & Hl).
    apply nth_error_len in Hl. lia.
Qed.

(** ** Edges *)

Lemma pipe_loop_waits (initial_info : NowPlaying) (before after : list TickEnv)
    (wd : World) :
  Forall (waiting_pass initial_info) before ->
  pipe_loop [] initial_info (before ++ after) false (-1) wd
  = pipe_loop [] initial_info after false (-1) wd.
Proof.
  intros Hwait. induction Hwait as [| e before He Hbefore IH]; [reflexivity |].
  destruct He as (Hint & Hnow). cbn [app pipe_loop]. unfold pipe_tick.
  destruct Hnow as [-> | (n & -> & Hsame & Hpaused)].
  - rewrite Hint. exact IH.
  - apply song_unchanged_iff in Hsame. rewrite Hsame, Hpaused, Hint. exact IH.
Qed.

(** X18.  Pipe mode needs lines: started on an empty list, the first
    pass that finds the song playing raises [IndexError] at
    [lines[active_idx]], however many passes before it found no player
    or the song paused; nothing is printed and the SIGINT handler is
    restored.  cli.py calls it only under [if lyrics]. *)
Theorem pipe_mode_needs_lines (initial_info now : NowPlaying)
    (before : list TickEnv) (env : TickEnv) (rest : list TickEnv) (wd : World) :
  Forall (fun e =>
            env_sigint e = false /\
            (env_now e = Ok None \/
             exists n, env_now e = Ok (Some n) /\
               (title n, artist n) = (title initial_info, artist initial_info) /\
               is_playing n = false))
         before ->
  env_now env = Ok (Some now) ->
  (title now, artist now) = (title initial_info, artist initial_info) ->
  is_playing now = true ->
  let run := display_pipe [] initial_info (before ++ env :: rest) wd in
  snd run = Raised IndexError /\
  stdout (fst run) = stdout wd /\
  sigint_handler (fst run) = sigint_handler wd.
Proof.
  intros Hwait Hnow Hsame Hplay. apply song_unchanged_iff in Hsame.
  unfold display_pipe. rewrite pipe_loop_waits by exact Hwait.
  cbn [pipe_loop]. unfold pipe_tick.
  rewrite Hnow, Hsame, Hplay. cbn. repeat split.
Qed.

Lemma pipe_mode_needs_lines_witness :
  Forall (waiting_pass ex_now) [ex_absent; ex_held] /\
  env_now ex_env = Ok (Some ex_now) /\
  snd (display_pipe [] ex_now ([ex_absent; ex_held] ++ ex_env :: [ex_env]) ex_world)
  = Raised IndexError.
Proof.
  assert (Forall (waiting_pass ex_now) [ex_absent; ex_held]) as Hwait.
  { apply Forall_cons; [split; [reflexivity | left; reflexivity] |].
    apply Forall_cons; [| apply Forall_nil].
    split; [reflexivity |]. right. eexists. repeat split; reflexivity. }
  split; [exact Hwait |]. split; [reflexivity |].
  exact (proj1 (pipe_mode_needs_lines ex_now ex_now [ex_absent; ex_held] ex_env [ex_env]
                  ex_world Hwait eq_refl eq_refl eq_refl)).
Defined.

(** X19.  The exact-match request always carries the title and the
    artist; it carries the album only when the album is not empty, and
    the duration, cut to whole seconds, only when a duration is given
    and positive: an unknown duration of 0 is not sent. *)
Theorem optional_request_fields (title artist album : str) (duration_s : option Q) :
  let params := req_params (get_request title artist album duration_s) in
  In (lit "track_name", PStr title) params /\
  In (lit "artist_name", PStr artist) params /\
  (forall v, In (lit "album_name", v) params <-> album <> [] /\ v = PStr album) /\
  (forall v, In (lit "duration", v) params <->
     exists d, duration_s = Some d /\ (0 < d)%Q /\ v = PInt (Qround.Qfloor d)).
Proof.
  cbn [get_request req_params]. unfold get_params.
  assert (forall d, negb (Qeq_bool d 0) && negb (Qle_bool d 0) = true <-> (0 < d)%Q) as Hpos.
  { intros d. rewrite andb_true_iff, !negb_true_iff. split.
    - intros (_ & Hle). apply Qnot_le_lt. intros H. apply Qle_bool_iff in H. congruence.
    - intros Hlt. split.
      + destruct (Qeq_bool d 0) eqn:E; [| reflexivity].
        apply Qeq_bool_iff in E. rewrite E in Hlt. exfalso. apply (Qlt_irrefl 0). exact Hlt.
      + destruct (Qle_bool d 0) eqn:E; [| reflexivity].
        apply Qle_bool_iff in E. exfalso. apply (Qlt_irrefl 0).
        eapply Qlt_le_trans; eassumption. }
  split; [left; reflexivity |]. split; [right; left; reflexivity |].
  assert (forall k v, In (k, v) [(lit "track_name", PStr title); (lit "artist_name", PStr artist)]
                      -> k <> lit "album_name" /\ k <> lit "duration") as Hfixed.
  { intros k v [H | [H | []]]; injection H as <- _; split; discriminate. }
  split.
  - intros v. rewrite !in_app_iff. split.
    + intros [H | [H | H]].
      * apply Hfixed in H. destruct H as [H _]. contradiction.
      * destruct album as [| c r]; [contradiction |].
        destruct H as [H | []]. injection H as <-. split; [discriminate | reflexivity].
      * destruct duration_s as [d |]; [| contradiction].
        destruct (negb (Qeq_bool d 0) && negb (Qle_bool d 0)); [| contradiction].
        destruct H as [H | []]. discriminate.
    + intros (Hne & ->). right. left.
      destruct album; [contradiction | left; reflexivity].
  - intros v. rewrite !in_app_iff. split.
    + intros [H | [H | H]].
      * apply Hfixed in H. destruct H as [_ H]. contradiction.
      * destruct album as [| c r]; [contradiction |].
        destruct H as [H | []]. discriminate.
      * destruct duration_s as [d |]; [| contradiction].
        destruct (negb (Qeq_bool d 0) && negb (Qle_bool d 0)) eqn:E; [| contradiction].
        apply Hpos in E. destruct H as [H | []]. injection H as <-.
        exists d. split; [reflexivity |]. split; [exact E |].
        rewrite int_of_float_floor by (apply Qlt_le_weak; exact E). reflexivity.
    + intros (d & -> & Hd & ->). right. right.
      apply Hpos in Hd as E. rewrite E. left.
      rewrite int_of_float_floor by (apply Qlt_le_weak; exact Hd). reflexivity.
Qed.

(** X20.  On sorted lines the locator is monotone: a later position
    never gives an earlier line. *)
Theorem locator_is_monotone (lines : list LyricLine) (p q : Q) :
  sorted_by_time lines ->
  (p <= q)%Q ->
  exists rp rq,
    _find_active_line lines p = Ok rp /\ _find_active_line lines q = Ok rq /\ rp <= rq.
Proof.
  intros Hs Hpq.
  destruct (find_active_line_boundary lines p Hs) as (kp & Hkp & Ep & Hp).
  destruct (find_active_line_boundary lines q Hs) as (kq & Hkq & Eq & Hq).
  exists (Z.max 0 (kp - 1)), (Z.max 0 (kq - 1)). split; [exact Ep |]. split; [exact Eq |].
  assert (kp <= kq); [| lia].
  destruct (Z_le_gt_dec kp kq) as [| Hgt]; [assumption | exfalso].
  destruct (py_index_in_range lines kq) as (l & _ & Hl); [lia |].
  assert (time_s l <= p)%Q as Hlp by (apply (Hp _ _ Hl); lia).
  assert (Z.of_nat (Z.to_nat kq) < kq); [| lia].
  apply (Hq _ _ Hl). eapply Qle_trans; eassumption.
Qed.

Lemma locator_is_monotone_witness :
  sorted_by_time ex_lines /\ (1 <= 3)%Q /\
  exists rp rq,
    _find_active_line ex_lines 1 = Ok rp /\ _find_active_line ex_lines 3 = Ok rq /\ rp <= rq.
Proof.
  assert (1 <= 3)%Q as H by (unfold Qle; cbn; lia).
  split; [exact ex_lines_sorted |]. split; [exact H |].
  exact (locator_is_monotone ex_lines 1 3 ex_lines_sorted H).
Defined.
